(** * The circuit cache of qiskit_aqua (utils/circuit_cache.py)

    A shallow embedding of the module's state (its globals), of
    [cache_circuit], [try_loading_cache_from_file], [load_qobj_from_cache]
    and [clear_cache], and the properties of the structural compilation
    cache that follow from them.  Chunk numbers, circuit numbers and
    qubit indices are non-negative ints, [nat] here; line numbers are
    those of circuit_cache.py. *)

From Stdlib Require Import String Ascii Arith Lia Bool.
From Stdlib Require Import DecimalString DecimalNat Decimal.
From Stdlib Require Import Floats.PrimFloat.
From stdpp Require Import base list strings gmap.
Open Scope string_scope.
Open Scope nat_scope.
Open Scope list_scope.

(** ** Python values used by the module *)

Module Py.

(** Exceptions the module can raise, by Python class.  [Exception] and
    [AquaError] carry the formatted message. *)
Inductive error :=
| KeyError (key : string)
| IndexError
| TypeError
| AttributeError (attribute : string)
| Exception (msg : string)
| AquaError (msg : string)
| FileNotFoundError (path : string)
| UnpicklingError
| EOFError.

(** Result of an expression that may raise. *)
Inductive result (A : Type) :=
| Ok (a : A)
| Raise (e : error).
Arguments Ok {A} a.
Arguments Raise {A} e.

Definition rbind {A B} (r : result A) (k : A -> result B) : result B :=
  match r with
  | Ok a => k a
  | Raise e => Raise e
  end.

(** [l[i]] for a non-negative index. *)
Definition getitem {A} (l : list A) (i : nat) : result A :=
  match l !! i with
  | Some a => Ok a
  | None => Raise IndexError
  end.

(** [l.insert(i, x)] for a non-negative index: an index past the end
    appends ([take] and [drop] clamp as the list method does). *)
Definition list_insert_at {A} (i : nat) (x : A) (l : list A) : list A :=
  take i l ++ x :: drop i l.

(** [l[i] = x]: the list after the assignment, [IndexError] out of range. *)
Definition setitem {A} (l : list A) (i : nat) (x : A) : result (list A) :=
  if i <? length l then Ok (<[i := x]> l) else Raise IndexError.

(** [l.pop(0)] is used on non-empty lists only and is written as a match
    where it occurs. *)

(** A dict with string keys, in insertion order (the order [items()]
    iterates in). *)
Definition dict (V : Type) := list (string * V).

Fixpoint dict_get {V} (d : dict V) (k : string) : option V :=
  match d with
  | [] => None
  | (k', v) :: d' => if String.eqb k' k then Some v else dict_get d' k
  end.

(** [d[k] = v]: an existing key keeps its place. *)
Fixpoint dict_set {V} (d : dict V) (k : string) (v : V) : dict V :=
  match d with
  | [] => [(k, v)]
  | (k', v') :: d' =>
      if String.eqb k' k then (k', v) :: d' else (k', v') :: dict_set d' k v
  end.

(** [d.get(k, default)]. *)
Definition dict_get_default {V} (d : dict V) (k : string) (default : V) : V :=
  match dict_get d k with
  | Some v => v
  | None => default
  end.

(** [d[k]]: a missing key raises [KeyError]. *)
Definition dict_getitem {V} (d : dict V) (k : string) : result V :=
  match dict_get d k with
  | Some v => Ok v
  | None => Raise (KeyError k)
  end.

(** [str(n)] for a non-negative int. *)
Definition str_nat (n : nat) : string :=
  NilEmpty.string_of_uint (Nat.to_uint n).

Fixpoint str_items (l : list nat) : string :=
  match l with
  | [] => ""
  | n :: l' =>
      match l' with
      | [] => str_nat n
      | _ :: _ => str_nat n +:+ ", " +:+ str_items l'
      end
  end.

(** [l.__str__()] for a list of non-negative ints: ["[0, 1]"]. *)
Definition str_list (l : list nat) : string :=
  "[" +:+ str_items l +:+ "]".

End Py.

Import Py.

#[global] Instance result_bind : MBind result := fun _ _ k r => rbind r k.
#[global] Instance result_ret : MRet result := fun _ a => Ok a.

(** ** Source programs (QuantumCircuit) *)

Record Register := {
  reg_name : string;
  reg_size : nat;
  (** [isinstance(reg, QuantumRegister)] *)
  is_QuantumRegister : bool
}.

(** A parameter of a gate: a real number (a float, an int, a number
    [float()] converts), or a value [np.array(..., dtype=float)] refuses
    with TypeError, such as a complex number. *)
Inductive Param :=
| Real (x : float)
| Complex (re im : float).

(** A gate of the circuit: [name], [arg] (register, index) pairs and
    [param]. *)
Record Gate := {
  gate_name : string;
  arg : list (Register * nat);
  param : list Param
}.

(** An element of [circuit.data]: a gate, or a [CompositeGate] with the
    list its [instruction_list()] returns. *)
Inductive CircuitElement :=
| PlainGate (g : Gate)
| CompositeGate (instruction_list : list Gate).

Record QuantumCircuit := {
  circ_name : string;
  (** the OrderedDict [regs], name to register *)
  regs : dict Register;
  data : list CircuitElement
}.

(** ** Compiled jobs (Qobj) *)

(** A compiled instruction.  [name] and [qubits] are read on every
    instruction; [params] is absent on some (measure), hence the
    option. *)
Record Instruction := {
  name : string;
  qubits : list nat;
  params : option (list float)
}.

Record Header := {
  header_name : string;
  (** [None] once the attribute is deleted *)
  compiled_circuit_qasm : option string
}.

Record Experiment := {
  header : Header;
  instructions : list Instruction
}.

Record Qobj := {
  qobj_id : string;
  experiments : list Experiment
}.

(** ** The signature matcher of [cache_circuit] (lines 91-125) *)

(** [[reg.size for reg in input_circuit.regs.values()
      if isinstance(reg, QuantumRegister)]] *)
Definition qreg_sizes (input_circuit : QuantumCircuit) : list nat :=
  map reg_size (filter is_QuantumRegister (map snd (regs input_circuit))).

Fixpoint qreg_indeces_from (sizes : list nat) (i : nat) (names : list string)
  (acc : gmap string nat) : gmap string nat :=
  match names with
  | [] => acc
  | n :: names' =>
      qreg_indeces_from sizes (S i) names' (<[n := sum_list (take i sizes)]> acc)
  end.

(** [{name: sum(qreg_sizes[0:i]) for i, name in enumerate(input_circuit.regs)}] *)
Definition qreg_indeces (input_circuit : QuantumCircuit) : gmap string nat :=
  qreg_indeces_from (qreg_sizes input_circuit) 0
    (map fst (regs input_circuit)) ∅.

(** Unroll circuit in case of composite gates. *)
Definition raw_gates (input_circuit : QuantumCircuit) : list Gate :=
  flat_map (fun gate =>
              match gate with
              | CompositeGate l => l
              | PlainGate g => [g]
              end) (data input_circuit).

(** [[qubit + qreg_indeces[reg.name] for reg, qubit in regs
      if isinstance(reg, QuantumRegister)]] *)
Fixpoint gate_qubits (indeces : gmap string nat) (regs : list (Register * nat))
  : result (list nat) :=
  match regs with
  | [] => Ok []
  | (reg, qubit) :: regs' =>
      if is_QuantumRegister reg then
        off ← match indeces !! reg_name reg with
                | Some off => Ok off
                | None => Raise (KeyError (reg_name reg))
                end ;
        rest ← gate_qubits indeces regs' ;
        Ok (qubit + off :: rest)
      else gate_qubits indeces regs'
  end.

(** [gate_type + qubits.__str__()] *)
Definition type_and_qubits (gate_type : string) (qubits : list nat) : string :=
  gate_type +:+ str_list qubits.

(** The op_graph: signature to the queue of source indices. *)
Definition OpGraph := dict (list nat).

(** Lines 102-108: the loop over [enumerate(raw_gates)], from index [i]. *)
Fixpoint build_op_graph (indeces : gmap string nat) (i : nat) (gates : list Gate)
  (op_graph : OpGraph) : result OpGraph :=
  match gates with
  | [] => Ok op_graph
  | uncompiled_gate :: gates' =>
      qubits ← gate_qubits indeces (arg uncompiled_gate) ;
      let key := type_and_qubits (gate_name uncompiled_gate) qubits in
      build_op_graph indeces (S i) gates'
        (dict_set op_graph key (dict_get_default op_graph key [] ++ [i]))
  end.

Definition extra_in_qobj_msg (sig : string) : string :=
  "Circuit shape does not match qobj, found extra " +:+ sig +:+ " instruction in qobj".

Definition extra_in_circuit_msg (sig : string) : string :=
  "Circuit shape does not match qobj, found extra " +:+ sig +:+ " in circuit".

(** Lines 110-121: the loop over the compiled instructions, from index
    [compiled_gate_index], threading the op_graph and the mapping. *)
Fixpoint match_instructions (indeces : gmap string nat) (raw : list Gate)
  (compiled_gate_index : nat) (compiled : list Instruction)
  (op_graph : OpGraph) (mapping : list nat) : result (OpGraph * list nat) :=
  match compiled with
  | [] => Ok (op_graph, mapping)
  | compiled_gate :: compiled' =>
      let key := type_and_qubits (name compiled_gate) (qubits compiled_gate) in
      queue ← dict_getitem op_graph key ;
      match queue with
      | uncompiled_gate_index :: queue' =>
          let op_graph' := dict_set op_graph key queue' in
          uncompiled_gate ← getitem raw uncompiled_gate_index ;
          qs ← gate_qubits indeces (arg uncompiled_gate) ;
          let mapping' :=
            if String.eqb (name compiled_gate) (gate_name uncompiled_gate)
               && String.eqb (str_list (qubits compiled_gate)) (str_list qs)
            then list_insert_at compiled_gate_index uncompiled_gate_index mapping
            else mapping in
          match_instructions indeces raw (S compiled_gate_index) compiled'
            op_graph' mapping'
      | [] => Raise (Exception (extra_in_qobj_msg key))
      end
  end.

(** Lines 91-121 for one program slot: the op_graph left over and the
    mapping.  [qobj.experiments[circ_num]] is evaluated when the second
    loop starts. *)
Definition build_mapping (input_circuit : QuantumCircuit) (qobj : Qobj)
  (circ_num : nat) : result (OpGraph * list nat) :=
  let indeces := qreg_indeces input_circuit in
  let raw := raw_gates input_circuit in
  op_graph ← build_op_graph indeces 0 raw [] ;
  experiment ← getitem (experiments qobj) circ_num ;
  match_instructions indeces raw 0 (instructions experiment) op_graph [].

(** Lines 123-125: the first signature, in insertion order, whose queue
    is not empty raises. *)
Fixpoint check_leftover (op_graph : OpGraph) : result unit :=
  match op_graph with
  | [] => Ok tt
  | (key, ops) :: op_graph' =>
      match ops with
      | [] => check_leftover op_graph'
      | _ :: _ => Raise (Exception (extra_in_circuit_msg key))
      end
  end.

(** ** The module's state *)

(** One per-program mapping: position [i] holds the source index of
    compiled instruction [i]. *)
Abbreviation Mapping := (list nat).

(** [mappings] is a list of list objects, one per chunk, and line 155
    stores the object of chunk 0 a second time: the entries are
    references into [heap], so that a later [insert] into chunk 0's list
    is seen through every alias.  The per-program mappings inside are
    never mutated once stored and are kept as values, as are the Qobj
    copies ([copy.deepcopy] leaves no sharing inside [qobjs]). *)
Abbreviation loc := nat.

(** The content of the cache file, by what lines 140-143 do with it:
    - [Pickle]: a dict with 'qobjs' and 'mappings' as line 129 writes
      it (qobj dicts, the mappings and the list objects they refer to;
      [qobj_to_dict] and [Qobj.from_dict] are taken as inverse);
    - [PickleWithoutMappings]: a dict with 'qobjs' and no 'mappings';
    - [PickleWithoutQobjs]: a dict with no 'qobjs';
    - [PickleOfOther]: an object that is no dict and that a string does
      not subscript (None, a number, a list);
    - [EmptyFile]: no byte, [pickle.load] raises EOFError;
    - [Corrupt]: bytes [pickle.load] refuses with UnpicklingError.
    The entries of 'qobjs' are dicts [Qobj.from_dict] accepts. *)
Inductive Blob :=
| Pickle (qobj_dicts : list Qobj) (mappings : list loc)
    (objects : list (list Mapping))
| PickleWithoutMappings (qobj_dicts : list Qobj)
| PickleWithoutQobjs
| PickleOfOther
| EmptyFile
| Corrupt.

Record Globals := {
  qobjs : option (list Qobj);
  mappings : option (list loc);
  misses : option nat;
  try_reusing_qobjs : bool;
  use_caching : bool;
  naughty_mode : bool;
  cache_file : option string;
  persist_cache : bool;
  (** the list objects [mappings] refers to *)
  heap : list (list Mapping);
  (** the file system, by path *)
  files : gmap string Blob
}.

(** The module as imported (lines 47-54), on a given file system. *)
Definition initial (fs : gmap string Blob) : Globals :=
  {| qobjs := None; mappings := None; misses := Some 0;
     try_reusing_qobjs := true; use_caching := false; naughty_mode := false;
     cache_file := None; persist_cache := false; heap := []; files := fs |}.

Definition set_qobjs (v : option (list Qobj)) (g : Globals) : Globals :=
  {| qobjs := v; mappings := mappings g; misses := misses g;
     try_reusing_qobjs := try_reusing_qobjs g; use_caching := use_caching g;
     naughty_mode := naughty_mode g; cache_file := cache_file g;
     persist_cache := persist_cache g; heap := heap g; files := files g |}.

Definition set_mappings (v : option (list loc)) (g : Globals) : Globals :=
  {| qobjs := qobjs g; mappings := v; misses := misses g;
     try_reusing_qobjs := try_reusing_qobjs g; use_caching := use_caching g;
     naughty_mode := naughty_mode g; cache_file := cache_file g;
     persist_cache := persist_cache g; heap := heap g; files := files g |}.

Definition set_misses (v : option nat) (g : Globals) : Globals :=
  {| qobjs := qobjs g; mappings := mappings g; misses := v;
     try_reusing_qobjs := try_reusing_qobjs g; use_caching := use_caching g;
     naughty_mode := naughty_mode g; cache_file := cache_file g;
     persist_cache := persist_cache g; heap := heap g; files := files g |}.

Definition set_try_reusing_qobjs (v : bool) (g : Globals) : Globals :=
  {| qobjs := qobjs g; mappings := mappings g; misses := misses g;
     try_reusing_qobjs := v; use_caching := use_caching g;
     naughty_mode := naughty_mode g; cache_file := cache_file g;
     persist_cache := persist_cache g; heap := heap g; files := files g |}.

Definition set_heap (v : list (list Mapping)) (g : Globals) : Globals :=
  {| qobjs := qobjs g; mappings := mappings g; misses := misses g;
     try_reusing_qobjs := try_reusing_qobjs g; use_caching := use_caching g;
     naughty_mode := naughty_mode g; cache_file := cache_file g;
     persist_cache := persist_cache g; heap := v; files := files g |}.

Definition set_files (v : gmap string Blob) (g : Globals) : Globals :=
  {| qobjs := qobjs g; mappings := mappings g; misses := misses g;
     try_reusing_qobjs := try_reusing_qobjs g; use_caching := use_caching g;
     naughty_mode := naughty_mode g; cache_file := cache_file g;
     persist_cache := persist_cache g; heap := heap g; files := v |}.

(** ** Statements: state passing with exceptions

    A statement maps the globals to its result and the globals it leaves
    behind; an exception keeps the mutations made before it. *)
Definition M (A : Type) : Type := Globals → result A * Globals.

Definition ret {A} (a : A) : M A := λ g, (Ok a, g).

Definition bind {A B} (m : M A) (k : A → M B) : M B :=
  λ g, match m g with
       | (Ok a, g') => k a g'
       | (Raise e, g') => (Raise e, g')
       end.

Definition raise {A} (e : error) : M A := λ g, (Raise e, g).

(** An expression that reads no global. *)
Definition lift {A} (r : result A) : M A := λ g, (r, g).

Definition get : M Globals := λ g, (Ok g, g).

Definition modify (f : Globals → Globals) : M unit := λ g, (Ok tt, f g).

#[global] Instance M_bind : MBind M := λ _ _ k m, bind m k.
#[global] Instance M_ret : MRet M := λ _ a, ret a.

(** [for i, x in enumerate(l): body], counting from [i]. *)
Fixpoint for_enumerate {A} (body : nat → A → M unit) (i : nat) (l : list A)
  : M unit :=
  match l with
  | [] => ret tt
  | x :: l' => body i x ;; for_enumerate body (S i) l'
  end.

(** [qobjs[...]]: subscripting [None] is a TypeError. *)
Definition subscript_qobjs : M (list Qobj) :=
  g ← get ;
  match qobjs g with
  | Some qs => ret qs
  | None => raise TypeError
  end.

Definition subscript_mappings : M (list loc) :=
  g ← get ;
  match mappings g with
  | Some ms => ret ms
  | None => raise TypeError
  end.

(** The list object a reference of [mappings] denotes.  A reference
    outside the heap does not occur in Python; it is an IndexError here. *)
Definition deref (l : loc) : M (list Mapping) :=
  g ← get ; lift (getitem (heap g) l).

(** In-place update of a list object. *)
Definition store (l : loc) (v : list Mapping) : M unit :=
  modify (λ g, set_heap (<[l := v]> (heap g)) g).

(** A new list object. *)
Definition alloc (v : list Mapping) : M loc :=
  g ← get ;
  modify (set_heap (heap g ++ [v])) ;;
  ret (length (heap g)).

Definition with_experiments (q : Qobj) (es : list Experiment) : Qobj :=
  {| qobj_id := qobj_id q; experiments := es |}.

Definition with_header (e : Experiment) (h : Header) : Experiment :=
  {| header := h; instructions := instructions e |}.

Definition with_instructions (e : Experiment) (instrs : list Instruction)
  : Experiment :=
  {| header := header e; instructions := instrs |}.

(** In-place update of [qobjs[chunk].experiments[circ_num]], an object
    that has just been read. *)
Definition store_experiment (chunk circ_num : nat) (e : Experiment) : M unit :=
  qs ← subscript_qobjs ;
  q ← lift (getitem qs chunk) ;
  modify (set_qobjs
            (Some (<[chunk := with_experiments q
                                (<[circ_num := e]> (experiments q))]> qs))).

(** ** cache_circuit *)

(** Line 89: [del qobjs[chunk].experiments[circ_num].header.compiled_circuit_qasm] *)
Definition del_compiled_circuit_qasm (chunk circ_num : nat) : M unit :=
  qs ← subscript_qobjs ;
  q ← lift (getitem qs chunk) ;
  e ← lift (getitem (experiments q) circ_num) ;
  match compiled_circuit_qasm (header e) with
  | Some _ =>
      store_experiment chunk circ_num
        (with_header e {| header_name := header_name (header e);
                          compiled_circuit_qasm := None |})
  | None => raise (AttributeError "compiled_circuit_qasm")
  end.

(** Line 122: [mappings[chunk][circ_num] = mapping] *)
Definition store_mapping (chunk circ_num : nat) (mapping : Mapping) : M unit :=
  ms ← subscript_mappings ;
  l ← lift (getitem ms chunk) ;
  slots ← deref l ;
  slots' ← lift (setitem slots circ_num mapping) ;
  store l slots'.

(** Lines 87-125: the body of the loop over [enumerate(circuits)]. *)
Definition cache_circuit_body (qobj : Qobj) (chunk circ_num : nat)
  (input_circuit : QuantumCircuit) : M unit :=
  del_compiled_circuit_qasm chunk circ_num ;;
  '(op_graph, mapping) ← lift (build_mapping input_circuit qobj circ_num) ;
  store_mapping chunk circ_num mapping ;;
  lift (check_leftover op_graph).

(** Lines 126-131: the cache is pickled when a cache file is set
    ([open(cache_file, 'wb')] is taken to succeed).  Both globals are
    lists when [cache_circuit] gets here. *)
Definition save_cache_to_file : M unit :=
  g ← get ;
  match cache_file g with
  | Some path =>
      if 0 <? String.length path then
        qs ← subscript_qobjs ;
        ms ← subscript_mappings ;
        modify (set_files (<[path := Pickle qs ms (heap g)]> (files g)))
      else ret tt
  | None => ret tt
  end.

Definition cache_circuit (qobj : Qobj) (circuits : list QuantumCircuit)
  (chunk : nat) : M unit :=
  (* lines 80-82 *)
  modify (λ g, if qobjs g is None then set_qobjs (Some []) g else g) ;;
  modify (λ g, if mappings g is None then set_mappings (Some []) g else g) ;;
  modify (λ g, if misses g is None then set_misses (Some 0) g else g) ;;
  (* line 84: [copy.deepcopy(qobj)] is the value itself *)
  qs ← subscript_qobjs ;
  modify (set_qobjs (Some (list_insert_at chunk qobj qs))) ;;
  (* line 86 *)
  l ← alloc (replicate (length circuits) []) ;
  ms ← subscript_mappings ;
  modify (set_mappings (Some (list_insert_at chunk l ms))) ;;
  for_enumerate (cache_circuit_body qobj chunk) 0 circuits ;;
  save_cache_to_file.

(** ** try_loading_cache_from_file *)

(** Lines 138-144.  [open] raises on a missing file (line 139),
    [pickle.load] on an empty file and on bytes that do not unpickle
    (line 140), [cache['qobjs']] on an object a string does not
    subscript and on a dict without the key (line 142), and
    [cache['mappings']] on a dict without that key (line 143), after
    line 142 has assigned [qobjs].  Nothing in the function catches any
    of them.  The loaded list objects replace the heap: the ones the old
    [mappings] referred to are unreachable once it is reassigned. *)
Definition try_loading_cache_from_file : M unit :=
  g ← get ;
  match qobjs g, cache_file g with
  | None, Some path =>
      if 0 <? String.length path then
        match files g !! path with
        | None => raise (FileNotFoundError path)
        | Some EmptyFile => raise EOFError
        | Some Corrupt => raise UnpicklingError
        | Some PickleOfOther => raise TypeError
        | Some PickleWithoutQobjs => raise (KeyError "qobjs")
        | Some (PickleWithoutMappings qobj_dicts) =>
            modify (set_qobjs (Some qobj_dicts)) ;;
            raise (KeyError "mappings")
        | Some (Pickle qobj_dicts ms objects) =>
            modify (λ g, set_heap objects
                           (set_mappings (Some ms)
                              (set_qobjs (Some qobj_dicts) g)))
        end
      else ret tt
  | _, _ => ret tt
  end.

(** ** load_qobj_from_cache *)

(** Lines 154-156: a chunk past the cached ones is made from chunk 0. *)
Definition reuse_first_chunk (chunk : nat) : M unit :=
  g ← get ;
  match qobjs g with
  | Some qs =>
      if try_reusing_qobjs g && (length qs <=? chunk) then
        (* [mappings.insert(chunk, mappings[0])]: the same list object *)
        match mappings g with
        | Some ms =>
            l0 ← lift (getitem ms 0) ;
            modify (set_mappings (Some (list_insert_at chunk l0 ms)))
        | None => raise (AttributeError "insert")
        end ;;
        (* [qobjs.insert(chunk, copy.deepcopy(qobjs[0]))] *)
        q0 ← lift (getitem qs 0) ;
        modify (set_qobjs (Some (list_insert_at chunk q0 qs)))
      else ret tt
  | None => ret tt
  end.

(** Lines 162-164: too few experiments in chunk 0, reuse the first one. *)
Definition reuse_first_experiment (chunk circ_num : nat) : M unit :=
  g ← get ;
  if try_reusing_qobjs g && (chunk =? 0) && (0 <? circ_num) then
    qs ← subscript_qobjs ;
    q ← lift (getitem qs chunk) ;
    if length (experiments q) <=? circ_num then
      q0 ← lift (getitem qs 0) ;
      e0 ← lift (getitem (experiments q0) 0) ;
      modify (set_qobjs
                (Some (<[0 := with_experiments q0
                                (list_insert_at circ_num e0 (experiments q0))]>
                         qs))) ;;
      ms ← subscript_mappings ;
      l0 ← lift (getitem ms 0) ;
      slots ← deref l0 ;
      m0 ← lift (getitem slots 0) ;
      store l0 (list_insert_at circ_num m0 slots)
    else ret tt
  else ret tt.

Definition gate_mismatch_msg (cache_index : nat) (uncompiled_gate : Gate)
  (gate_num : nat) (compiled_name : string) (compiled_params : list float)
  : string :=
  "Gate mismatch at gate " +:+ str_nat cache_index +:+ " ("
  +:+ gate_name uncompiled_gate +:+ ", "
  +:+ str_nat (length (param uncompiled_gate)) +:+ " params) of circuit against gate "
  +:+ str_nat gate_num +:+ " (" +:+ compiled_name +:+ ", "
  +:+ str_nat (length compiled_params) +:+ " params) of cached qobj".

(** [np.array(param, dtype=float).tolist()]: the parameters as floats,
    TypeError when one of them is not a real number. *)
Fixpoint float_list (param : list Param) : result (list float) :=
  match param with
  | [] => Ok []
  | Real x :: param' => xs ← float_list param' ; Ok (x :: xs)
  | Complex _ _ :: _ => Raise TypeError
  end.

(** Lines 178-184 for one compiled gate and its source gate.  The
    condition reads [params] through [getattr] with default [[]]; the
    message reads [compiled_gate.params] directly, which raises
    AttributeError on an instruction without the field.  Line 184
    converts before it assigns: when the conversion raises, the gate
    keeps its parameters. *)
Definition patch_gate (cache_index gate_num : nat) (compiled_gate : Instruction)
  (uncompiled_gate : Gate) : result Instruction :=
  if negb (length (default [] (params compiled_gate))
           =? length (param uncompiled_gate))
     || negb (String.eqb (name compiled_gate) (gate_name uncompiled_gate))
  then
    match params compiled_gate with
    | Some ps =>
        Raise (AquaError (gate_mismatch_msg cache_index uncompiled_gate
                            gate_num (name compiled_gate) ps))
    | None => Raise (AttributeError "params")
    end
  else
    ps ← float_list (param uncompiled_gate) ;
    Ok {| name := name compiled_gate; qubits := qubits compiled_gate;
          params := Some ps |}.

(** Lines 172-184: the loop over the compiled gates of one experiment,
    from [gate_num].  The gates are patched in place, so the list comes
    back with the gates before the failing one rewritten.  [mapping] is
    [mappings[chunk][circ_num]] as the loop evaluates it at each gate that
    is not a snapshot (nothing changes it during the loop), with the
    error it raises. *)
Fixpoint patch_instructions (mapping : result Mapping) (raw : list Gate)
  (gate_num : nat) (compiled : list Instruction)
  : list Instruction * result unit :=
  match compiled with
  | [] => ([], Ok tt)
  | compiled_gate :: compiled' =>
      if String.eqb (name compiled_gate) "snapshot" then
        let '(rest, r) := patch_instructions mapping raw (S gate_num) compiled' in
        (compiled_gate :: rest, r)
      else
        match (m ← mapping ;
               cache_index ← getitem m gate_num ;
               uncompiled_gate ← getitem raw cache_index ;
               patch_gate cache_index gate_num compiled_gate uncompiled_gate)
        with
        | Ok patched =>
            let '(rest, r) :=
              patch_instructions mapping raw (S gate_num) compiled' in
            (patched :: rest, r)
        | Raise e => (compiled_gate :: compiled', Raise e)
        end
  end.

(** [mappings[chunk][circ_num]] *)
Definition lookup_mapping (chunk circ_num : nat) : M Mapping :=
  ms ← subscript_mappings ;
  l ← lift (getitem ms chunk) ;
  slots ← deref l ;
  lift (getitem slots circ_num).

(** [m], with the exception it raises handed over as a value (the state
    it leaves is kept either way). *)
Definition attempt {A} (m : M A) : M (result A) :=
  λ g, let '(r, g') := m g in (Ok r, g').

(** Lines 158-184: the body of the loop over [enumerate(circuits)]. *)
Definition load_qobj_body (chunk circ_num : nat)
  (input_circuit : QuantumCircuit) : M unit :=
  reuse_first_experiment chunk circ_num ;;
  let raw := raw_gates input_circuit in
  (* line 171 *)
  qs ← subscript_qobjs ;
  q ← lift (getitem qs chunk) ;
  e ← lift (getitem (experiments q) circ_num) ;
  let e1 := with_header e {| header_name := circ_name input_circuit;
                             compiled_circuit_qasm :=
                               compiled_circuit_qasm (header e) |} in
  store_experiment chunk circ_num e1 ;;
  (* lines 172-184 *)
  mapping ← attempt (lookup_mapping chunk circ_num) ;
  let '(patched, r) := patch_instructions mapping raw 0 (instructions e1) in
  store_experiment chunk circ_num (with_instructions e1 patched) ;;
  lift r.

(** The job handed to the caller and how it holds its experiments: in
    naughty mode they are the cached Experiment objects themselves, else
    deep copies of them. *)
Inductive Sharing := SharedWithCache | DeepCopied.

Definition load_qobj_from_cache (circuits : list QuantumCircuit) (chunk : nat)
  : M (Qobj * Sharing) :=
  try_loading_cache_from_file ;;
  reuse_first_chunk chunk ;;
  for_enumerate (load_qobj_body chunk) 0 circuits ;;
  (* lines 185-188 *)
  qs ← subscript_qobjs ;
  q ← lift (getitem qs chunk) ;
  g ← get ;
  let exec_qobj :=
    with_experiments q (take (length circuits) (experiments q)) in
  if naughty_mode g then ret (exec_qobj, SharedWithCache)
  else ret (exec_qobj, DeepCopied).

(** ** clear_cache *)

Definition clear_cache : M unit :=
  modify (λ g, set_try_reusing_qobjs true
                 (set_misses (Some 0)
                    (set_mappings None (set_qobjs None g)))).

(** * The vocabulary of the properties *)

(** ** Signatures as strings *)

Definition is_digit (c : ascii) : bool :=
  (48 <=? nat_of_ascii c) && (nat_of_ascii c <=? 57).

Fixpoint all_digits (s : string) : bool :=
  match s with
  | EmptyString => true
  | String c s' => is_digit c && all_digits s'
  end.

(** No digit in front: the empty string, or one that starts with a
    character that is not a digit. *)
Definition stops_number (s : string) : bool :=
  match s with
  | EmptyString => true
  | String c _ => negb (is_digit c)
  end.

Fixpoint no_open_bracket (s : string) : bool :=
  match s with
  | EmptyString => true
  | String c s' => negb (Ascii.eqb c "[") && no_open_bracket s'
  end.

(** The printed list after its opening bracket. *)
Definition items_close (l : list nat) : string := str_items l +:+ "]".

(** ** The signature matcher *)

(** The signature line 106 computes for a source gate. *)
Definition source_signature (indeces : gmap string nat) (g : Gate)
  : result string :=
  qs ← gate_qubits indeces (arg g) ;
  Ok (type_and_qubits (gate_name g) qs).

(** The signatures of the unrolled gates, in program order. *)
Fixpoint signatures (indeces : gmap string nat) (gates : list Gate)
  : result (list string) :=
  match gates with
  | [] => Ok []
  | g :: gates' =>
      s ← source_signature indeces g ;
      rest ← signatures indeces gates' ;
      Ok (s :: rest)
  end.

(** The signature line 111 computes for a compiled instruction. *)
Definition compiled_signature (ci : Instruction) : string :=
  type_and_qubits (name ci) (qubits ci).

(** How many entries of [l] are the signature [s]. *)
Fixpoint occurrences (s : string) (l : list string) : nat :=
  match l with
  | [] => 0
  | x :: l' => (if String.eqb x s then 1 else 0) + occurrences s l'
  end.

(** The indices, counted from [i], of the entries of [sigs] that are the
    signature [s], in increasing order. *)
Fixpoint sig_positions (s : string) (i : nat) (sigs : list string) : list nat :=
  match sigs with
  | [] => []
  | x :: sigs' =>
      if String.eqb x s then i :: sig_positions s (S i) sigs'
      else sig_positions s (S i) sigs'
  end.

(** The queue of a signature in the op_graph, empty when it has none. *)
Definition queue (op_graph : OpGraph) (s : string) : list nat :=
  dict_get_default op_graph s [].

(** Every source index waiting in the op_graph. *)
Definition waiting (op_graph : OpGraph) : list nat := concat (map snd op_graph).

(** Every index waiting under a signature is a source gate of that
    signature. *)
Definition queues_sound (sigs : list string) (og : OpGraph) : Prop :=
  ∀ s u, u ∈ queue og s → sigs !! u = Some s.

(** ** The cache and an insert *)

(** What no function of the module but [clear_cache] writes, and the
    files apart. *)
Definition same_config (g g' : Globals) : Prop :=
  misses g' = misses g
  ∧ try_reusing_qobjs g' = try_reusing_qobjs g
  ∧ use_caching g' = use_caching g
  ∧ naughty_mode g' = naughty_mode g
  ∧ cache_file g' = cache_file g
  ∧ persist_cache g' = persist_cache g.

(** The number of cached chunks. *)
Definition chunk_count (g : Globals) : nat := length (default [] (qobjs g)).

(** The source operations that carry parameters. *)
Definition parameterized (gates : list Gate) : list Gate :=
  filter (λ g, param g ≠ []) gates.

(** The cached copy of [qobj]: the job with the qasm text deleted from
    some of its headers. *)
Definition is_copy_of (q q' : Qobj) : Prop :=
  qobj_id q' = qobj_id q
  ∧ Forall2 (λ e e', instructions e' = instructions e
                     ∧ header_name (header e') = header_name (header e))
      (experiments q) (experiments q').

(** The globals while the loop of [cache_circuit] runs, for the lists
    [qs0], [ms0] before the call and the heap [h0] before line 86: the
    new chunk is where lines 84 and 86 put it. *)
Definition inserting (qobj : Qobj) (chunk : nat) (qs0 : list Qobj)
  (ms0 : list loc) (h0 : list (list Mapping)) (g0 g : Globals) (q : Qobj)
  (slots : list Mapping) : Prop :=
  qobjs g = Some (list_insert_at chunk q qs0)
  ∧ mappings g = Some (list_insert_at chunk (length h0) ms0)
  ∧ heap g = h0 ++ [slots]
  ∧ is_copy_of qobj q
  ∧ files g = files g0
  ∧ same_config g0 g.

(** ** What a patch keeps of the cached jobs *)

(** A compiled instruction after a patch: same type tag and operand
    addresses, and a snapshot is the same instruction. *)
Definition instruction_kept (ci ci' : Instruction) : Prop :=
  name ci' = name ci ∧ qubits ci' = qubits ci
  ∧ (name ci = "snapshot" → ci' = ci).

Definition experiment_kept (e e' : Experiment) : Prop :=
  Forall2 instruction_kept (instructions e) (instructions e')
  ∧ compiled_circuit_qasm (header e') = compiled_circuit_qasm (header e).

(** Every cached experiment is still there, at its index. *)
Definition experiments_kept (es es' : list Experiment) : Prop :=
  ∀ k e, es !! k = Some e → ∃ e', es' !! k = Some e' ∧ experiment_kept e e'.

Definition qobj_kept (q q' : Qobj) : Prop :=
  qobj_id q' = qobj_id q ∧ experiments_kept (experiments q) (experiments q').

Definition qobjs_kept (qs qs' : list Qobj) : Prop :=
  ∀ c q, qs !! c = Some q → ∃ q', qs' !! c = Some q' ∧ qobj_kept q q'.

Definition cache_kept (g g' : Globals) : Prop :=
  ∀ qs, qobjs g = Some qs → ∃ qs', qobjs g' = Some qs' ∧ qobjs_kept qs qs'.

(** ** The patch of a slot *)

(** [mappings[chunk][circ_num]] as an expression of the globals. *)
Definition mapping_at (g : Globals) (chunk circ_num : nat) : result Mapping :=
  match mappings g with
  | Some ms =>
      l ← getitem ms chunk ;
      slots ← getitem (heap g) l ;
      getitem slots circ_num
  | None => Raise TypeError
  end.

(** The experiment of a slot after lines 171-184 have run on it. *)
Definition patched_experiment (g : Globals) (chunk circ_num : nat)
  (input_circuit : QuantumCircuit) (e : Experiment)
  : Experiment * result unit :=
  let e1 := with_header e {| header_name := circ_name input_circuit;
                             compiled_circuit_qasm :=
                               compiled_circuit_qasm (header e) |} in
  let pr := patch_instructions (mapping_at g chunk circ_num)
              (raw_gates input_circuit) 0 (instructions e) in
  (with_instructions e1 pr.1, pr.2).

(** The globals after the body has stored that experiment. *)
Definition with_patched (g : Globals) (chunk circ_num : nat) (qs : list Qobj)
  (q : Qobj) (e' : Experiment) : Globals :=
  set_qobjs
    (Some (<[chunk := with_experiments q
                        (<[circ_num := e']> (experiments q))]> qs)) g.

(** A slot after a patch that completed: the header carries the name of
    the circuit and every gate that is not a snapshot the parameters,
    converted to floats, of a source gate of its name. *)
Definition slot_patched (circ : QuantumCircuit) (e' : Experiment) : Prop :=
  header_name (header e') = circ_name circ
  ∧ ∀ i ci', instructions e' !! i = Some ci' → name ci' ≠ "snapshot" →
      ∃ u ug, raw_gates circ !! u = Some ug ∧ name ci' = gate_name ug
              ∧ ∃ ps, float_list (param ug) = Ok ps ∧ params ci' = Some ps.

(** The slots before [k] of the chunk hold the patch of their
    circuits. *)
Definition patched_below (circuits : list QuantumCircuit) (chunk k : nat)
  (g : Globals) : Prop :=
  ∀ i circ, i < k → circuits !! i = Some circ →
    ∃ qs q e', qobjs g = Some qs ∧ qs !! chunk = Some q
               ∧ experiments q !! i = Some e' ∧ slot_patched circ e'.

(** The slot [j] of the chunk holds [e] and its mapping is [m], and the
    loop has not passed it. *)
Definition slot_waiting (chunk j : nat) (e : Experiment) (m : Mapping)
  (k : nat) (g : Globals) : Prop :=
  k ≤ j
  ∧ ∃ qs q, qobjs g = Some qs ∧ qs !! chunk = Some q
            ∧ experiments q !! j = Some e ∧ mapping_at g chunk j = Ok m.

(** [qobjs[chunk].experiments[circ_num]], if there. *)
Definition cached_experiment (g : Globals) (chunk circ_num : nat)
  : option Experiment :=
  qs ← qobjs g ; q ← qs !! chunk ; experiments q !! circ_num.

(** The parameters of [qobjs[chunk].experiments[circ_num].instructions[i]]. *)
Definition cached_params (g : Globals) (chunk circ_num i : nat)
  : option (list float) :=
  e ← cached_experiment g chunk circ_num ;
  ci ← instructions e !! i ;
  params ci.

(** The parameters of instruction [i] of experiment [circ_num] of chunk
    [chunk] in the cache pickled at [path]. *)
Definition pickled_params (g : Globals) (path : string)
  (chunk circ_num i : nat) : option (list float) :=
  match files g !! path with
  | Some (Pickle qs _ _) =>
      q ← qs !! chunk ;
      e ← experiments q !! circ_num ;
      ci ← instructions e !! i ;
      params ci
  | _ => None
  end.

(** ** Gates and instructions up to their parameters *)

(** Two source gates with the same name and arguments. *)
Definition same_shape (g1 g2 : Gate) : Prop :=
  gate_name g1 = gate_name g2 ∧ arg g1 = arg g2.

(** Two compiled instructions with the same name and qubits. *)
Definition same_operation (i1 i2 : Instruction) : Prop :=
  name i1 = name i2 ∧ qubits i1 = qubits i2.

(** ** Slots the patch can rewrite *)

(** A parameter line 184 converts. *)
Definition is_real (p : Param) : Prop := ∃ x, p = Real x.

(** Lines 174-184 go through for the compiled gate at position [i]: a
    snapshot, or a gate whose mapping entry is a source gate of its
    name with as many parameters, all of them real numbers. *)
Definition gate_matches (raw : list Gate) (m : Mapping) (i : nat)
  (ci : Instruction) : Prop :=
  name ci ≠ "snapshot" →
  ∃ u ug, m !! i = Some u ∧ raw !! u = Some ug
          ∧ name ci = gate_name ug
          ∧ length (default [] (params ci)) = length (param ug)
          ∧ Forall is_real (param ug).

Definition slot_matches (circ : QuantumCircuit) (e : Experiment) (m : Mapping)
  : Prop :=
  ∀ i ci, instructions e !! i = Some ci → gate_matches (raw_gates circ) m i ci.

(** The compiled gate [ci] at position [i] once the loop has passed it:
    a snapshot is left alone, another gate carries the parameters of
    its source gate, converted to floats. *)
Definition patched_gate (raw : list Gate) (m : Mapping) (i : nat)
  (ci ci' : Instruction) : Prop :=
  if String.eqb (name ci) "snapshot" then ci' = ci
  else ∃ u ug ps,
         m !! i = Some u ∧ raw !! u = Some ug
         ∧ float_list (param ug) = Ok ps
         ∧ ci' = {| name := name ci; qubits := qubits ci; params := Some ps |}.

(** The experiments of a chunk while the loop of the patch is at slot
    [k]: the slots before [k] hold the patch of their circuit, computed
    with the mappings of [g], and the others are those of [q]. *)
Definition patching (circuits : list QuantumCircuit) (chunk : nat)
  (g : Globals) (q : Qobj) (k : nat) (x : Globals) : Prop :=
  mappings x = mappings g ∧ heap x = heap g
  ∧ ∃ qs' q',
      qobjs x = Some qs' ∧ qs' !! chunk = Some q'
      ∧ qobj_id q' = qobj_id q
      ∧ length (experiments q') = length (experiments q)
      ∧ (∀ i, k ≤ i → experiments q' !! i = experiments q !! i)
      ∧ (∀ i circ e, i < k → circuits !! i = Some circ →
           experiments q !! i = Some e →
           experiments q' !! i
           = Some (patched_experiment g chunk i circ e).1).

(** Two source gates with the same name and as many parameters. *)
Definition same_arity (g g' : Gate) : Prop :=
  gate_name g' = gate_name g ∧ length (param g') = length (param g).

(** A batch whose programs unroll to gates of the same names and
    parameter counts as those of another batch, slot by slot. *)
Definition same_template (circuits circuits' : list QuantumCircuit) : Prop :=
  Forall2 (λ c c', Forall2 same_arity (raw_gates c) (raw_gates c'))
    circuits circuits'.

(** A batch whose gates have real numbers for parameters. *)
Definition real_parameters (circuits : list QuantumCircuit) : Prop :=
  Forall (λ c, Forall (λ ug, Forall is_real (param ug)) (raw_gates c))
    circuits.

(** ** A batch longer than chunk 0 *)

(** Lines 171-184 on the experiment [e] with the mapping [m]. *)
Definition patch_with (m : Mapping) (circ : QuantumCircuit) (e : Experiment)
  : Experiment * result unit :=
  let e1 := with_header e {| header_name := circ_name circ;
                             compiled_circuit_qasm :=
                               compiled_circuit_qasm (header e) |} in
  let pr := patch_instructions (Ok m) (raw_gates circ) 0 (instructions e) in
  (with_instructions e1 pr.1, pr.2).

(** The experiment slot [k] of chunk 0 is patched from: the cached one,
    or past the cached ones slot 0 as the first iteration left it. *)
Definition slot_template (q0 : Qobj) (e0' : Experiment) (k : nat)
  : option Experiment :=
  if k <? length (experiments q0) then experiments q0 !! k else Some e0'.

(** The mapping of slot [k] of chunk 0: the stored one, or past the
    stored ones the mapping of slot 0. *)
Definition slot_mapping (slots : list Mapping) (m0 : Mapping) (k : nat)
  : option Mapping :=
  if k <? length slots then slots !! k else Some m0.

(** The globals while the loop of a patch of chunk 0 is at slot [k],
    for the job [q0] and the list [slots] at [l0] before the call. *)
Definition extending (circuits : list QuantumCircuit) (g : Globals)
  (ms : list loc) (l0 : loc) (slots : list Mapping) (q0 : Qobj)
  (m0 : Mapping) (e0' : Experiment) (k : nat) (x : Globals) : Prop :=
  try_reusing_qobjs x = true
  ∧ mappings x = Some ms
  ∧ heap x
    = <[l0 := slots ++ replicate (k - length slots) m0]> (heap g)
  ∧ ∃ qs' q',
      qobjs x = Some qs' ∧ qs' !! 0 = Some q'
      ∧ qobj_id q' = qobj_id q0
      ∧ length (experiments q') = length (experiments q0) `max` k
      ∧ (∀ i, k ≤ i → experiments q' !! i = experiments q0 !! i)
      ∧ (∀ i circ e m, i < k → circuits !! i = Some circ →
           slot_template q0 e0' i = Some e →
           slot_mapping slots m0 i = Some m →
           experiments q' !! i = Some (patch_with m circ e).1).

(** ** The two modes *)

(** [naughty_mode] as the caller sets it. *)
Definition with_naughty_mode (b : bool) (g : Globals) : Globals :=
  {| qobjs := qobjs g; mappings := mappings g; misses := misses g;
     try_reusing_qobjs := try_reusing_qobjs g; use_caching := use_caching g;
     naughty_mode := b; cache_file := cache_file g;
     persist_cache := persist_cache g; heap := heap g; files := files g |}.

(** The outcome of an operation that does not read the mode, run in
    mode [b]. *)
Definition in_mode {A} (b : bool) (out : result A * Globals)
  : result A * Globals :=
  (out.1, with_naughty_mode b out.2).

(** The outcome of the patch operation run in mode [b], from its
    outcome in the other mode: the job is shared as [b] says. *)
Definition shared_in_mode (b : bool) (out : result (Qobj * Sharing) * Globals)
  : result (Qobj * Sharing) * Globals :=
  (match out.1 with
   | Ok (job, _) => Ok (job, if b then SharedWithCache else DeepCopied)
   | Raise err => Raise err
   end,
   with_naughty_mode b out.2).

(** ** The job an insert stores *)

(** An experiment after line 89: the qasm text deleted from its header. *)
Definition without_qasm (e : Experiment) : Experiment :=
  with_header e {| header_name := header_name (header e);
                   compiled_circuit_qasm := None |}.

(** The cached job while the loop of [cache_circuit] is at slot [i]:
    the job [qobj] with line 89 done on the slots before [i]. *)
Definition stored_upto (qobj : Qobj) (i : nat) (q : Qobj) : Prop :=
  qobj_id q = qobj_id qobj
  ∧ length (experiments q) = length (experiments qobj)
  ∧ ∀ k e, experiments qobj !! k = Some e →
      experiments q !! k = Some (if k <? i then without_qasm e else e)
      ∧ (k < i → compiled_circuit_qasm (header e) ≠ None).

(** Lines 89-125 go through for slot [j]: the compiled sub-job is
    there with its qasm text, both loops of the matcher complete and no
    source operation is left over. *)
Definition slot_accepted (qobj : Qobj) (j : nat) (circ : QuantumCircuit)
  : Prop :=
  ∃ e qasm og mapping,
    experiments qobj !! j = Some e
    ∧ compiled_circuit_qasm (header e) = Some qasm
    ∧ build_mapping circ qobj j = Ok (og, mapping)
    ∧ check_leftover og = Ok ().

(** The globals while the loop of [cache_circuit] is at slot [i]: the
    chunk holds the job with line 89 done on the slots before [i], and
    its list of mappings, at [l], has [n] slots. *)
Definition storing (qobj : Qobj) (chunk : nat) (ms : list loc) (l : loc)
  (n i : nat) (x : Globals) : Prop :=
  mappings x = Some ms ∧ ms !! chunk = Some l
  ∧ (∃ slots, heap x !! l = Some slots ∧ length slots = n)
  ∧ ∃ qs q, qobjs x = Some qs ∧ qs !! chunk = Some q ∧ stored_upto qobj i q.

(** ** Scenarios *)

Module Scenario.

Definition q : Register :=
  {| reg_name := "q"; reg_size := 2; is_QuantumRegister := true |}.

(** A one-qubit rotation on q0 and a two-qubit gate without parameters
    on q0, q1. *)
Definition OpA (theta : float) : Gate :=
  {| gate_name := "OpA"; arg := [(q, 0)]; param := [Real theta] |}.

Definition OpB : Gate :=
  {| gate_name := "OpB"; arg := [(q, 0); (q, 1)]; param := [] |}.

Definition program (n : string) (gates : list Gate) : QuantumCircuit :=
  {| circ_name := n; regs := [("q", q)]; data := map PlainGate gates |}.

Definition iOpA (theta : float) : Instruction :=
  {| name := "OpA"; qubits := [0]; params := Some [theta] |}.

Definition iOpB : Instruction :=
  {| name := "OpB"; qubits := [0; 1]; params := Some [] |}.

(** A compiled job with one experiment per instruction list. *)
Definition job (sub_jobs : list (list Instruction)) : Qobj :=
  {| qobj_id := "job";
     experiments :=
       map (λ instrs,
              {| header := {| header_name := "circuit";
                              compiled_circuit_qasm := Some "OPENQASM 2.0;" |};
                 instructions := instrs |}) sub_jobs |}.

(** Scenario 1: [OpA(q0), OpB(q0,q1), OpA(q0)], compiled in order. *)
Definition program1 : QuantumCircuit :=
  program "p1" [OpA 0.5; OpB; OpA 1.5].
Definition job1 : Qobj := job [[iOpA 0; iOpB; iOpA 0]].

(** Scenario 2: [OpA(q0), OpA(q0)] compiled to one [OpA(q0)]. *)
Definition program2 : QuantumCircuit := program "p2" [OpA 0.5; OpA 1.5].
Definition job2 : Qobj := job [[iOpA 0]].

(** A compiled instruction whose signature no source gate has, and one
    compiled instruction more than the source has of its signature. *)
Definition program3 : QuantumCircuit := program "p3" [OpA 0.5].
Definition job3_absent : Qobj := job [[iOpB]].
Definition job3_exhausted : Qobj := job [[iOpA 0; iOpA 0]].

End Scenario.

(** ** Scenarios for the patcher *)

Module Cached.

(** [cache_file] as the caller sets it. *)
Definition with_cache_file (path : string) (g : Globals) : Globals :=
  {| qobjs := qobjs g; mappings := mappings g; misses := misses g;
     try_reusing_qobjs := try_reusing_qobjs g; use_caching := use_caching g;
     naughty_mode := naughty_mode g; cache_file := Some path;
     persist_cache := persist_cache g; heap := heap g; files := files g |}.

(** The cache after Scenario 1 is inserted as chunk 0. *)
Definition scenario1 : Globals :=
  (cache_circuit Scenario.job1 [Scenario.program1] 0 (initial ∅)).2.

(** The two-qubit gate with one parameter at the source, none in the
    compiled job. *)
Definition OpB1 : Gate :=
  {| gate_name := "OpB"; arg := [(Scenario.q, 0); (Scenario.q, 1)];
     param := [Real 2.5] |}.

Definition program_arity : QuantumCircuit :=
  Scenario.program "p5" [Scenario.OpA 0.5; OpB1].

Definition arity : Globals :=
  (cache_circuit (Scenario.job [[Scenario.iOpA 0; Scenario.iOpB]])
     [program_arity] 0 (initial ∅)).2.

(** The same with a cache file configured. *)
Definition arity_on_file : Globals :=
  (cache_circuit (Scenario.job [[Scenario.iOpA 0; Scenario.iOpB]])
     [program_arity] 0 (with_cache_file "cache.pkl" (initial ∅))).2.

(** A program with a snapshot. *)
Definition Snapshot : Gate :=
  {| gate_name := "snapshot"; arg := [(Scenario.q, 0); (Scenario.q, 1)];
     param := [] |}.

Definition iSnapshot : Instruction :=
  {| name := "snapshot"; qubits := [0; 1]; params := Some [7%float] |}.

Definition program_snapshot : QuantumCircuit :=
  Scenario.program "p6" [Scenario.OpA 0.5; Snapshot].

Definition snapshot : Globals :=
  (cache_circuit (Scenario.job [[Scenario.iOpA 0; iSnapshot]])
     [program_snapshot] 0 (initial ∅)).2.

End Cached.

(** * Properties *)

(** ** Signatures as strings

    [type_and_qubits] concatenates the type tag and the printed operand
    list.  The printed list starts at the last ["["] of the string and
    decimal printing is injective, so equal signature strings mean equal
    type tags and equal operand addresses. *)

Section Signature_strings.

#[local] Arguments String.append : simpl nomatch.

Lemma append_assoc (a b c : string) : (a +:+ b) +:+ c = a +:+ b +:+ c.
Proof. induction a as [|x a IH]; simpl; [done | by rewrite IH]. Qed.

Lemma no_open_bracket_append (a b : string) :
  no_open_bracket (a +:+ b) = no_open_bracket a && no_open_bracket b.
Proof.
  induction a as [|x a IH]; simpl; [done|].
  rewrite IH. by rewrite andb_assoc.
Qed.

Lemma all_digits_no_open_bracket (s : string) :
  all_digits s = true → no_open_bracket s = true.
Proof.
  induction s as [|c s IH]; simpl; [done|].
  intros [Hc Hs]%andb_true_iff. rewrite IH by done.
  rewrite andb_true_r. apply negb_true_iff, Ascii.eqb_neq.
  intros ->. discriminate Hc.
Qed.

Lemma all_digits_string_of_uint (d : uint) :
  all_digits (NilEmpty.string_of_uint d) = true.
Proof. induction d; simpl; auto. Qed.

Lemma all_digits_str_nat (n : nat) : all_digits (str_nat n) = true.
Proof. apply all_digits_string_of_uint. Qed.

Lemma str_nat_inj (a b : nat) : str_nat a = str_nat b → a = b.
Proof.
  unfold str_nat. intros H.
  apply Unsigned.to_uint_inj.
  assert (Some (Nat.to_uint a) = Some (Nat.to_uint b)) as [= ->]; [|done].
  by rewrite <- !NilEmpty.usu, H.
Qed.

Lemma str_nat_nonempty (n : nat) : str_nat n ≠ "".
Proof.
  unfold str_nat. intros H.
  assert (Nat.to_uint n = Nil) as Hnil.
  { assert (Some (Nat.to_uint n) = Some Nil) as [= ->]; [|done].
    by rewrite <- NilEmpty.usu, H. }
  apply (DecimalFacts.unorm_nonnil (Nat.to_uint n)).
  by rewrite <- Unsigned.to_of, Unsigned.of_to.
Qed.

(** Two numbers followed by something that is not a digit: the numbers
    and what follows are determined by the concatenation. *)
Lemma digits_split (d1 d2 r1 r2 : string) :
  all_digits d1 = true → all_digits d2 = true →
  stops_number r1 = true → stops_number r2 = true →
  d1 +:+ r1 = d2 +:+ r2 → d1 = d2 ∧ r1 = r2.
Proof.
  revert d2. induction d1 as [|c d1 IH]; intros [|c' d2]; simpl.
  - done.
  - intros _ [Hc _]%andb_true_iff Hr1 _ ->. simpl in Hr1.
    by rewrite Hc in Hr1.
  - intros [Hc _]%andb_true_iff _ _ Hr2 <-. simpl in Hr2.
    by rewrite Hc in Hr2.
  - intros [_ H1]%andb_true_iff [_ H2]%andb_true_iff Hr1 Hr2 [= -> Heq].
    destruct (IH d2 H1 H2 Hr1 Hr2 Heq) as [-> ->]. done.
Qed.

Lemma items_close_cons (n : nat) (l : list nat) :
  items_close (n :: l)
  = str_nat n +:+ match l with
                  | [] => "]"
                  | _ :: _ => ", " +:+ items_close l
                  end.
Proof.
  unfold items_close. destruct l as [|m l]; [done|].
  change (str_items (n :: m :: l))
    with (str_nat n +:+ ", " +:+ str_items (m :: l)).
  by rewrite !append_assoc.
Qed.

Lemma items_close_inj (l1 l2 : list nat) :
  items_close l1 = items_close l2 → l1 = l2.
Proof.
  revert l2. induction l1 as [|a l1 IH]; intros [|b l2].
  - done.
  - rewrite items_close_cons. intros H.
    pose proof (all_digits_str_nat b) as Hd.
    pose proof (str_nat_nonempty b) as Hn.
    destruct (str_nat b) as [|c s]; [done|].
    simpl in H, Hd. injection H as <- _. done.
  - rewrite items_close_cons. intros H.
    pose proof (all_digits_str_nat a) as Hd.
    pose proof (str_nat_nonempty a) as Hn.
    destruct (str_nat a) as [|c s]; [done|].
    simpl in H, Hd. injection H as -> _. done.
  - rewrite !items_close_cons. intros H.
    apply digits_split in H as [Hab Htl];
      [|apply all_digits_str_nat..| by destruct l1 | by destruct l2].
    apply str_nat_inj in Hab as ->.
    destruct l1 as [|a1 l1], l2 as [|b1 l2]; try done.
    injection Htl as Htl. by rewrite (IH _ Htl).
Qed.

Lemma items_close_no_open_bracket (l : list nat) :
  no_open_bracket (items_close l) = true.
Proof.
  induction l as [|n l IH]; [done|].
  rewrite items_close_cons, no_open_bracket_append.
  rewrite all_digits_no_open_bracket by apply all_digits_str_nat.
  destruct l; [done|]. simpl. exact IH.
Qed.

(** The text before the last opening bracket is determined by the
    whole. *)
Lemma split_at_last_bracket (n1 n2 b1 b2 : string) :
  no_open_bracket b1 = true → no_open_bracket b2 = true →
  n1 +:+ String "[" b1 = n2 +:+ String "[" b2 → n1 = n2 ∧ b1 = b2.
Proof.
  intros H1 H2. revert n2.
  induction n1 as [|c n1 IH]; intros [|c' n2]; simpl.
  - by intros [= ->].
  - intros [= <- ->]. rewrite no_open_bracket_append in H1.
    simpl in H1. by rewrite andb_false_r in H1.
  - intros [= -> <-]. rewrite no_open_bracket_append in H2.
    simpl in H2. by rewrite andb_false_r in H2.
  - intros [= -> Heq]. by destruct (IH _ Heq) as [-> ->].
Qed.

Lemma str_list_inj (l1 l2 : list nat) : str_list l1 = str_list l2 → l1 = l2.
Proof. intros [= H]. by apply items_close_inj. Qed.

Lemma type_and_qubits_inj (t1 t2 : string) (q1 q2 : list nat) :
  type_and_qubits t1 q1 = type_and_qubits t2 q2 → t1 = t2 ∧ q1 = q2.
Proof.
  intros H.
  apply split_at_last_bracket in H as [-> H];
    [|apply items_close_no_open_bracket..].
  by apply items_close_inj in H as ->.
Qed.

End Signature_strings.

(** ** The signature matcher *)

Set Implicit Arguments.
Unset Strict Implicit.

Ltac simpl_result :=
  cbn [mbind mret result_bind result_ret rbind] in *.

Section Dict.

Context {V : Type}.
Implicit Types (d : dict V) (k : string) (v : V).

Lemma dict_get_set d k k' v :
  dict_get (dict_set d k v) k'
  = if String.eqb k k' then Some v else dict_get d k'.
Proof.
  induction d as [|[k0 v0] d IH]; simpl.
  - done.
  - destruct (String.eqb_spec k0 k) as [->|Hne]; simpl.
    + by destruct (String.eqb_spec k k').
    + destruct (String.eqb_spec k0 k') as [->|Hne'].
      * destruct (String.eqb_spec k k'); [congruence | done].
      * apply IH.
Qed.

Lemma dict_get_default_set d k k' v (dflt : V) :
  dict_get_default (dict_set d k v) k' dflt
  = if String.eqb k k' then v else dict_get_default d k' dflt.
Proof.
  unfold dict_get_default. rewrite dict_get_set.
  by destruct (String.eqb k k').
Qed.

End Dict.

Section Matcher.

Variable indeces : gmap string nat.

Lemma queue_set (og : OpGraph) (k s : string) (q : list nat) :
  queue (dict_set og k q) s = if String.eqb k s then q else queue og s.
Proof. apply dict_get_default_set. Qed.

Lemma queue_get (og : OpGraph) (k : string) (q : list nat) :
  dict_get og k = Some q → queue og k = q.
Proof. unfold queue, dict_get_default. by intros ->. Qed.

Lemma queue_nonempty_get (og : OpGraph) (k : string) :
  queue og k ≠ [] → dict_get og k = Some (queue og k).
Proof. unfold queue, dict_get_default. by destruct (dict_get og k). Qed.

(** Appending an index to a queue adds it to the waiting indices. *)
Lemma waiting_push (og : OpGraph) (k : string) (i : nat) :
  waiting (dict_set og k (dict_get_default og k [] ++ [i])) ≡ₚ i :: waiting og.
Proof.
  unfold waiting, dict_get_default.
  induction og as [|[k0 q0] og IH]; simpl.
  - done.
  - destruct (String.eqb_spec k0 k) as [->|Hne]; simpl.
    + rewrite <- app_assoc. simpl. symmetry. apply Permutation_middle.
    + rewrite IH. symmetry. apply Permutation_middle.
Qed.

(** Popping the front of a queue removes it from the waiting indices. *)
Lemma waiting_pop (og : OpGraph) (k : string) (u : nat) (q : list nat) :
  dict_get og k = Some (u :: q) →
  u :: waiting (dict_set og k q) ≡ₚ waiting og.
Proof.
  unfold waiting.
  induction og as [|[k0 q0] og IH]; simpl; [done|].
  destruct (String.eqb_spec k0 k) as [->|Hne]; simpl.
  - by intros [= ->].
  - intros H. rewrite <- (IH H). apply Permutation_middle.
Qed.

Lemma signatures_lookup (gates : list Gate) (sigs : list string) (u : nat)
  (s : string) :
  signatures indeces gates = Ok sigs → sigs !! u = Some s →
  ∃ g, gates !! u = Some g ∧ source_signature indeces g = Ok s.
Proof.
  revert sigs u. induction gates as [|g gates IH]; intros sigs u; simpl.
  - by intros [= <-].
  - destruct (source_signature indeces g) as [s0|] eqn:Hs; [|done].
    simpl_result.
    destruct (signatures indeces gates) as [rest|] eqn:Hr; [|done].
    simpl_result. intros [= <-]. destruct u as [|u]; simpl.
    + intros [= <-]. eauto.
    + intros Hu. by apply (IH rest).
Qed.

Lemma signatures_length (gates : list Gate) (sigs : list string) :
  signatures indeces gates = Ok sigs → length sigs = length gates.
Proof.
  revert sigs. induction gates as [|g gates IH]; intros sigs; simpl.
  - by intros [= <-].
  - destruct (source_signature indeces g); [|done]. simpl_result.
    destruct (signatures indeces gates); [|done]. simpl_result.
    intros [= <-]. simpl. f_equal. by apply IH.
Qed.

Lemma sig_positions_lookup (s : string) (i : nat) (sigs : list string) (u : nat) :
  u ∈ sig_positions s i sigs → i ≤ u ∧ sigs !! (u - i) = Some s.
Proof.
  revert i. induction sigs as [|x sigs IH]; intros i; simpl.
  - by intros ?%elem_of_nil.
  - destruct (String.eqb_spec x s) as [->|Hne].
    + intros [->|Hin]%elem_of_cons.
      * by rewrite Nat.sub_diag.
      * destruct (IH _ Hin) as [Hle Hl]. split; [lia|].
        by replace (u - i) with (S (u - S i)) by lia.
    + intros Hin. destruct (IH _ Hin) as [Hle Hl]. split; [lia|].
      by replace (u - i) with (S (u - S i)) by lia.
Qed.

Lemma sig_positions_length (s : string) (i : nat) (sigs : list string) :
  length (sig_positions s i sigs) = occurrences s sigs.
Proof.
  revert i. induction sigs as [|x sigs IH]; intros i; simpl; [done|].
  destruct (String.eqb x s); simpl; by rewrite IH.
Qed.

(** *** The first loop (lines 102-108) *)

(** The op_graph built from the source gates: every signature's queue
    gains the positions of that signature, in program order. *)
Lemma build_op_graph_queue (gates : list Gate) (i : nat) (og og' : OpGraph) :
  build_op_graph indeces i gates og = Ok og' →
  ∃ sigs, signatures indeces gates = Ok sigs
          ∧ ∀ s, queue og' s = queue og s ++ sig_positions s i sigs.
Proof.
  revert i og. induction gates as [|g gates IH]; intros i og; simpl.
  - intros [= <-]. exists []. split; [done|]. intros s. by rewrite app_nil_r.
  - unfold source_signature.
    destruct (gate_qubits indeces (arg g)) as [qs|] eqn:Hq; [|done].
    simpl_result. intros H. apply IH in H as (sigs & -> & Hqueue).
    simpl_result. eexists. split; [done|].
    intros s. rewrite Hqueue, queue_set. simpl.
    destruct (String.eqb_spec (type_and_qubits (gate_name g) qs) s) as [->|].
    + by rewrite <- app_assoc.
    + done.
Qed.

Lemma build_op_graph_waiting (gates : list Gate) (i : nat) (og og' : OpGraph) :
  build_op_graph indeces i gates og = Ok og' →
  waiting og' ≡ₚ waiting og ++ seq i (length gates).
Proof.
  revert i og. induction gates as [|g gates IH]; intros i og; simpl.
  - intros [= <-]. by rewrite app_nil_r.
  - destruct (gate_qubits indeces (arg g)) as [qs|]; [|done].
    simpl_result. intros H. apply IH in H. rewrite H, waiting_push.
    simpl. apply Permutation_middle.
Qed.

(** *** The second loop (lines 110-121) *)

Lemma queues_sound_pop (sigs : list string) (og : OpGraph) (k : string)
  (u : nat) (q : list nat) :
  queues_sound sigs og → dict_get og k = Some (u :: q) →
  queues_sound sigs (dict_set og k q) ∧ sigs !! u = Some k.
Proof.
  intros Hs Hk. pose proof (queue_get Hk) as Hq. split.
  - intros s v. rewrite queue_set.
    destruct (String.eqb_spec k s) as [<-|Hne]; [|apply Hs].
    intros Hv. apply Hs. rewrite Hq. by right.
  - apply Hs. rewrite Hq. by left.
Qed.

(** One step of the second loop on a queue that is not empty: the test
    of line 117 holds and the popped index is appended to the mapping. *)
Lemma match_instructions_step (raw : list Gate) (sigs : list string)
  (j : nat) (ci : Instruction) (rest : list Instruction) (og : OpGraph)
  (mapping : list nat) (u : nat) (q : list nat) :
  signatures indeces raw = Ok sigs → queues_sound sigs og →
  length mapping = j →
  dict_get og (compiled_signature ci) = Some (u :: q) →
  match_instructions indeces raw j (ci :: rest) og mapping
  = match_instructions indeces raw (S j) rest
      (dict_set og (compiled_signature ci) q) (mapping ++ [u])
  ∧ ∃ g, raw !! u = Some g ∧ name ci = gate_name g
         ∧ gate_qubits indeces (arg g) = Ok (qubits ci).
Proof.
  intros Hsigs Hsound Hlen Hk.
  destruct (queues_sound_pop Hsound Hk) as [_ Hu].
  destruct (signatures_lookup Hsigs Hu) as (g & Hg & Hsg).
  unfold source_signature in Hsg.
  destruct (gate_qubits indeces (arg g)) as [qs|] eqn:Hqs; [|done].
  simpl_result. injection Hsg as Hsg.
  apply type_and_qubits_inj in Hsg as [Hname Hqubits].
  split; [|exists g; by subst].
  simpl. fold (compiled_signature ci).
  unfold dict_getitem. rewrite Hk. simpl_result.
  unfold getitem. rewrite Hg. simpl_result. rewrite Hqs. simpl_result.
  rewrite <- Hname, <- Hqubits, !String.eqb_refl. simpl.
  f_equal. unfold list_insert_at.
  rewrite take_ge, drop_ge by lia. done.
Qed.

Lemma occurrences_take_S (s : string) (x : string) (l : list string) (k : nat) :
  occurrences s (take (S k) (x :: l))
  = (if String.eqb x s then 1 else 0) + occurrences s (take k l).
Proof. done. Qed.

(** The second loop when it completes: it appends one source index per
    compiled instruction, each popped from the front of the queue of the
    instruction's signature. *)
Lemma match_instructions_ok (raw : list Gate) (sigs : list string)
  (compiled : list Instruction) (j : nat) (og og' : OpGraph)
  (mapping mapping' : list nat) :
  signatures indeces raw = Ok sigs → queues_sound sigs og →
  length mapping = j →
  match_instructions indeces raw j compiled og mapping = Ok (og', mapping') →
  ∃ popped,
    mapping' = mapping ++ popped
    ∧ length popped = length compiled
    ∧ queues_sound sigs og'
    ∧ popped ++ waiting og' ≡ₚ waiting og
    ∧ (∀ s, queue og' s
            = drop (occurrences s (map compiled_signature compiled)) (queue og s))
    ∧ (∀ k ci, compiled !! k = Some ci →
         ∃ u, popped !! k = Some u
              ∧ queue og (compiled_signature ci)
                  !! occurrences (compiled_signature ci)
                       (take k (map compiled_signature compiled)) = Some u
              ∧ ∃ g, raw !! u = Some g ∧ name ci = gate_name g
                     ∧ gate_qubits indeces (arg g) = Ok (qubits ci)).
Proof.
  intros Hsigs. revert j og mapping.
  induction compiled as [|ci rest IH]; intros j og mapping Hsound Hlen H.
  - injection H as <- <-. exists []. rewrite app_nil_r.
    repeat split; done.
  - destruct (dict_get og (compiled_signature ci)) as [[|u q]|] eqn:Hk.
    + simpl in H. fold (compiled_signature ci) in H.
      unfold dict_getitem in H. by rewrite Hk in H.
    + destruct (match_instructions_step rest Hsigs Hsound Hlen Hk)
        as [Hstep (g & Hg & Hname & Hqubits)].
      rewrite Hstep in H. clear Hstep.
      destruct (queues_sound_pop Hsound Hk) as [Hsound' _].
      apply IH in H as (popped & -> & Hlen' & Hs' & Hperm & Hqueue & Hpop);
        [|done|rewrite length_app; simpl; lia].
      exists (u :: popped). rewrite <- app_assoc. simpl.
      pose proof (queue_get Hk) as Hq.
      repeat split; try done.
      * by rewrite Hlen'.
      * rewrite Hperm. by apply waiting_pop.
      * intros s. rewrite Hqueue, queue_set.
        destruct (String.eqb_spec (compiled_signature ci) s) as [<-|Hne].
        -- by rewrite Hq.
        -- done.
      * intros [|k] ci' Hci'; simpl in Hci'.
        -- injection Hci' as <-. exists u. rewrite Hq. simpl. eauto 10.
        -- destruct (Hpop _ _ Hci') as (u' & Hu' & Hqu' & Hg').
           exists u'. split; [done|]. split; [|done].
           rewrite occurrences_take_S. rewrite queue_set in Hqu'.
           destruct (String.eqb_spec (compiled_signature ci)
                       (compiled_signature ci')) as [<-|Hne].
           ++ by rewrite Hq.
           ++ done.
    + simpl in H. fold (compiled_signature ci) in H.
      unfold dict_getitem in H. by rewrite Hk in H.
Qed.

(** The second loop completes when no signature occurs more often among
    the compiled instructions than indices wait in its queue. *)
Lemma match_instructions_total (raw : list Gate) (sigs : list string)
  (compiled : list Instruction) (j : nat) (og : OpGraph) (mapping : list nat) :
  signatures indeces raw = Ok sigs → queues_sound sigs og →
  length mapping = j →
  (∀ s, occurrences s (map compiled_signature compiled) ≤ length (queue og s)) →
  ∃ og' mapping',
    match_instructions indeces raw j compiled og mapping = Ok (og', mapping').
Proof.
  intros Hsigs. revert j og mapping.
  induction compiled as [|ci rest IH]; intros j og mapping Hsound Hlen Hocc.
  - by exists og, mapping.
  - pose proof (Hocc (compiled_signature ci)) as Hci.
    cbn [map occurrences] in Hci.
    rewrite String.eqb_refl in Hci.
    destruct (queue og (compiled_signature ci)) as [|u q] eqn:Hq;
      [simpl in Hci; lia|].
    assert (dict_get og (compiled_signature ci) = Some (u :: q)) as Hk.
    { rewrite <- Hq. apply queue_nonempty_get. by rewrite Hq. }
    destruct (match_instructions_step rest Hsigs Hsound Hlen Hk) as [-> _].
    destruct (queues_sound_pop Hsound Hk) as [Hsound' _].
    apply IH; [done|rewrite length_app; simpl; lia|].
    intros s. rewrite queue_set. specialize (Hocc s).
    cbn [map occurrences] in Hocc.
    destruct (String.eqb_spec (compiled_signature ci) s) as [Heq|Hne].
    + subst s. rewrite Hq in Hocc. simpl in Hocc. lia.
    + simpl in Hocc. lia.
Qed.

(** *** The check after the loops (lines 123-125) *)

Lemma check_leftover_ok (og : OpGraph) :
  check_leftover og = Ok () ↔ waiting og = [].
Proof.
  unfold waiting. induction og as [|[k [|u q]] og IH]; simpl; [done..|].
  split; done.
Qed.

Lemma check_leftover_raise (og : OpGraph) :
  waiting og ≠ [] →
  ∃ key, check_leftover og = Raise (Exception (extra_in_circuit_msg key)).
Proof.
  unfold waiting. induction og as [|[k [|u q]] og IH]; simpl; [done|done|].
  intros _. by exists k.
Qed.

End Matcher.

(** The two loops of one program slot, from the empty op_graph. *)
Lemma build_mapping_ok (input_circuit : QuantumCircuit) (qobj : Qobj)
  (circ_num : nat) (og : OpGraph) (mapping : list nat) :
  build_mapping input_circuit qobj circ_num = Ok (og, mapping) →
  ∃ sigs e,
    signatures (qreg_indeces input_circuit) (raw_gates input_circuit) = Ok sigs
    ∧ experiments qobj !! circ_num = Some e
    ∧ length mapping = length (instructions e)
    ∧ mapping ++ waiting og ≡ₚ seq 0 (length (raw_gates input_circuit))
    ∧ ∀ k ci, instructions e !! k = Some ci →
        ∃ u, mapping !! k = Some u
             ∧ sig_positions (compiled_signature ci) 0 sigs
                 !! occurrences (compiled_signature ci)
                      (take k (map compiled_signature (instructions e)))
               = Some u
             ∧ ∃ g, raw_gates input_circuit !! u = Some g
                    ∧ name ci = gate_name g
                    ∧ gate_qubits (qreg_indeces input_circuit) (arg g)
                      = Ok (qubits ci).
Proof.
  unfold build_mapping.
  destruct (build_op_graph _ 0 _ []) as [og0|] eqn:Hbuild; [|done].
  simpl_result. unfold getitem.
  destruct (experiments qobj !! circ_num) as [e|] eqn:He; [|done].
  simpl_result. intros Hmatch.
  destruct (build_op_graph_queue Hbuild) as (sigs & Hsigs & Hqueue).
  pose proof (build_op_graph_waiting Hbuild) as Hwait.
  assert (queues_sound sigs og0) as Hsound.
  { intros s u. rewrite Hqueue. unfold queue at 1. simpl.
    intros [_ Hu]%sig_positions_lookup. by rewrite Nat.sub_0_r in Hu. }
  destruct (match_instructions_ok Hsigs Hsound eq_refl Hmatch)
    as (popped & -> & Hlen & _ & Hperm & _ & Hpop).
  exists sigs, e. simpl. repeat split; try done.
  - by rewrite Hperm, Hwait.
  - intros k ci Hci. destruct (Hpop _ _ Hci) as (u & Hu & Hq & Hg).
    exists u. rewrite Hqueue in Hq. by repeat split.
Qed.

(** ** Lists: [insert] *)

Section List_insert_at.

Context {A : Type}.
Implicit Types (l : list A) (x y : A) (i j : nat).

Lemma length_list_insert_at i x l : length (list_insert_at i x l) = S (length l).
Proof.
  unfold list_insert_at. rewrite length_app. simpl.
  rewrite length_take, length_drop. lia.
Qed.

Lemma list_insert_at_ge i x l : length l ≤ i → list_insert_at i x l = l ++ [x].
Proof. intros. unfold list_insert_at. by rewrite take_ge, drop_ge. Qed.

Lemma list_insert_at_lookup_eq i x l :
  i ≤ length l → list_insert_at i x l !! i = Some x.
Proof.
  intros. unfold list_insert_at.
  rewrite lookup_app_r; rewrite length_take; [|lia].
  by replace (i - i `min` length l) with 0 by lia.
Qed.

(** What [l[i]] finds right after [l.insert(i, x)]: [x], and only when
    [i] was not past the end. *)
Lemma list_insert_at_lookup_inv i x y l :
  list_insert_at i x l !! i = Some y → y = x ∧ i ≤ length l.
Proof.
  intros H. destruct (decide (i ≤ length l)) as [Hle|Hgt].
  - rewrite list_insert_at_lookup_eq in H by done. by injection H as <-.
  - apply lookup_lt_Some in H. rewrite length_list_insert_at in H. lia.
Qed.

Lemma list_insert_at_lookup_lt i j x l :
  j < i → j < length l → list_insert_at i x l !! j = l !! j.
Proof.
  intros. unfold list_insert_at.
  rewrite lookup_app_l by (rewrite length_take; lia).
  by rewrite lookup_take_lt.
Qed.

Lemma list_insert_at_lookup_gt i j x l :
  i ≤ j → list_insert_at i x l !! S j = l !! j.
Proof.
  intros. destruct (decide (i ≤ length l)) as [Hle|Hgt].
  - unfold list_insert_at.
    rewrite lookup_app_r; rewrite length_take; [|lia].
    replace (S j - i `min` length l) with (S (j - i)) by lia. simpl.
    rewrite lookup_drop. f_equal. lia.
  - rewrite list_insert_at_ge by lia.
    rewrite !lookup_ge_None_2; [done|lia|].
    rewrite length_app. simpl. lia.
Qed.

Lemma insert_list_insert_at i x y l :
  <[i := y]> (list_insert_at i x l)
  = if decide (i ≤ length l) then list_insert_at i y l
    else list_insert_at i x l.
Proof.
  case_decide as Hle.
  - unfold list_insert_at.
    rewrite insert_app_r_alt; rewrite length_take; [|lia].
    by replace (i - i `min` length l) with 0 by lia.
  - apply list_insert_ge. rewrite length_list_insert_at. lia.
Qed.

End List_insert_at.

(** ** Statements *)

Ltac unfold_M :=
  unfold mbind, mret, M_bind, M_ret, bind, ret, raise, lift, get, modify in *.

Lemma for_enumerate_cons {A} (body : nat → A → M unit) (i : nat) (x : A)
  (l : list A) (g : Globals) :
  for_enumerate body i (x :: l) g
  = match body i x g with
    | (Ok _, g') => for_enumerate body (S i) l g'
    | (Raise e, g') => (Raise e, g')
    end.
Proof. done. Qed.

(** A property of the globals that every run of the body keeps, whatever
    its outcome, is kept by the loop. *)
Lemma for_enumerate_preserves {A} (body : nat → A → M unit) (P : Globals → Prop)
  (l : list A) (i : nat) (g g' : Globals) (r : result unit) :
  (∀ j x g1 r1 g2, P g1 → body j x g1 = (r1, g2) → P g2) →
  P g → for_enumerate body i l g = (r, g') → P g'.
Proof.
  intros Hbody. revert i g.
  induction l as [|x l IH]; intros i g HP.
  - by intros [= _ <-].
  - rewrite for_enumerate_cons.
    destruct (body i x g) as [[[]|e] g1] eqn:Hb.
    + apply IH. eauto.
    + intros [= _ <-]. eauto.
Qed.

(** A loop that completes has run its body to completion on every
    element, in order: an invariant indexed by the position carries
    over. *)
Lemma for_enumerate_ok {A} (body : nat → A → M unit)
  (Inv : nat → Globals → Prop) (l : list A) (i : nat) (g g' : Globals) :
  (∀ k x g1 g2, l !! k = Some x → Inv (i + k) g1 →
                body (i + k) x g1 = (Ok (), g2) → Inv (S (i + k)) g2) →
  Inv i g → for_enumerate body i l g = (Ok (), g') → Inv (i + length l) g'.
Proof.
  revert i g. induction l as [|x l IH]; intros i g Hbody HI.
  - intros [= <-]. by rewrite Nat.add_0_r.
  - rewrite for_enumerate_cons.
    destruct (body i x g) as [[[]|e] g1] eqn:Hb; [|done].
    intros H. simpl. rewrite <- Nat.add_succ_comm.
    apply (IH (S i) g1); [| |done].
    + intros k y g2 g3 Hk. rewrite Nat.add_succ_comm. by apply (Hbody (S k)).
    + specialize (Hbody 0 x g g1 eq_refl). rewrite Nat.add_0_r in Hbody.
      by apply Hbody.
Qed.

(** *** cache_circuit *)

Section Cache_circuit.

Variables (qobj : Qobj) (chunk : nat).
(** The lists before the call and the heap before line 86. *)
Variables (qs0 : list Qobj) (ms0 : list loc) (h0 : list (list Mapping)).

#[local] Abbreviation inserting_here := (inserting qobj chunk qs0 ms0 h0).

Ltac raise_case q slots :=
  intros [= <- <-]; exists q, slots; unfold inserting;
  split_and!; (done || by intros).

Lemma cache_circuit_body_spec (g0 g g' : Globals) (q : Qobj)
  (slots : list Mapping) (j : nat) (circ : QuantumCircuit) (r : result unit) :
  inserting_here g0 g q slots →
  cache_circuit_body qobj chunk j circ g = (r, g') →
  ∃ q' slots',
    inserting_here g0 g' q' slots'
    ∧ length slots' = length slots
    ∧ (∀ k, k ≠ j → slots' !! k = slots !! k)
    ∧ (r = Ok () →
       chunk ≤ length qs0 ∧ chunk ≤ length ms0
       ∧ ∃ og mapping,
           build_mapping circ qobj j = Ok (og, mapping)
           ∧ check_leftover og = Ok ()
           ∧ slots' !! j = Some mapping).
Proof.
  intros (Hq & Hm & Hh & Hcopy & Hf & Hc).
  unfold cache_circuit_body, del_compiled_circuit_qasm, store_experiment,
    store_mapping, deref, store, subscript_qobjs, subscript_mappings.
  unfold_M. rewrite Hq. unfold getitem at 1.
  destruct (list_insert_at chunk q qs0 !! chunk) as [q1|] eqn:Hq1; simpl.
  2:{ raise_case q slots. }
  apply list_insert_at_lookup_inv in Hq1 as [-> Hchunk].
  unfold getitem at 1.
  destruct (experiments q !! j) as [e|] eqn:He; simpl.
  2:{ raise_case q slots. }
  destruct (compiled_circuit_qasm (header e)) as [qasm|] eqn:Hqasm; simpl.
  2:{ raise_case q slots. }
  rewrite Hq. unfold getitem at 1.
  rewrite list_insert_at_lookup_eq by done. simpl.
  rewrite insert_list_insert_at, decide_True by done.
  set (q' := with_experiments q _).
  assert (is_copy_of qobj q') as Hcopy'.
  { destruct Hcopy as [Hid Hexps]. split; [done|]. simpl.
    apply Forall2_same_length_lookup. rewrite length_insert.
    split; [by apply Forall2_length in Hexps|].
    intros k e1 e2 Hk1 Hk2.
    destruct (Forall2_lookup_l _ _ _ _ _ Hexps Hk1) as (e3 & Hk3 & Hi & Hn).
    destruct (decide (k = j)) as [->|Hne].
    - rewrite list_lookup_insert_eq in Hk2 by by eapply lookup_lt_Some.
      simplify_eq. simpl. done.
    - rewrite list_lookup_insert_ne in Hk2 by done. by simplify_eq. }
  destruct (build_mapping circ qobj j) as [[og mapping]|err] eqn:Hbuild; simpl.
  2:{ raise_case q' slots. }
  rewrite Hm. unfold getitem at 1.
  destruct (list_insert_at chunk (length h0) ms0 !! chunk) as [l|] eqn:Hl; simpl.
  2:{ raise_case q' slots. }
  apply list_insert_at_lookup_inv in Hl as [-> Hchunk'].
  rewrite Hh. unfold getitem at 1.
  rewrite lookup_app_r, Nat.sub_diag by done. simpl.
  unfold setitem. destruct (j <? length slots) eqn:Hj; simpl.
  2:{ raise_case q' slots. }
  apply Nat.ltb_lt in Hj.
  rewrite insert_app_r_alt, Nat.sub_diag by done. simpl.
  intros [= <- <-]. exists q', (<[j := mapping]> slots). simpl.
  split; [unfold inserting; split_and!; done|].
  rewrite length_insert. split; [done|].
  split; [intros k Hk; by rewrite list_lookup_insert_ne|].
  intros Hok. split; [done|]. split; [done|].
  exists og, mapping. split; [done|].
  split; [done|]. by rewrite list_lookup_insert_eq.
Qed.

Lemma cache_circuit_loop_spec (g0 : Globals) (circuits : list QuantumCircuit)
  (i : nat) (g g' : Globals) (q : Qobj) (slots : list Mapping)
  (r : result unit) :
  inserting_here g0 g q slots →
  for_enumerate (cache_circuit_body qobj chunk) i circuits g = (r, g') →
  ∃ q' slots',
    inserting_here g0 g' q' slots'
    ∧ length slots' = length slots
    ∧ (∀ k, k < i → slots' !! k = slots !! k)
    ∧ (r = Ok () →
       ∀ k circ, circuits !! k = Some circ →
         chunk ≤ length qs0 ∧ chunk ≤ length ms0
         ∧ ∃ og mapping,
             build_mapping circ qobj (i + k) = Ok (og, mapping)
             ∧ check_leftover og = Ok ()
             ∧ slots' !! (i + k) = Some mapping).
Proof.
  revert i g q slots.
  induction circuits as [|circ circuits IH]; intros i g q slots Hins.
  - intros [= <- <-]. exists q, slots. by split_and!.
  - rewrite for_enumerate_cons.
    destruct (cache_circuit_body qobj chunk i circ g) as [r1 g1] eqn:Hbody.
    destruct (cache_circuit_body_spec Hins Hbody)
      as (q1 & slots1 & Hins1 & Hlen1 & Hframe1 & Hok1).
    destruct r1 as [[]|e].
    + intros Hloop.
      destruct (IH _ _ _ _ Hins1 Hloop)
        as (q' & slots' & Hins' & Hlen' & Hframe' & Hok').
      exists q', slots'. split_and!; [done|congruence| |].
      * intros k Hk. rewrite Hframe', Hframe1 by lia. done.
      * intros -> [|k] c Hc; simpl in Hc.
        -- injection Hc as <-. rewrite Nat.add_0_r.
           destruct (Hok1 eq_refl) as (? & ? & og & mapping & ? & ? & ?).
           split; [done|]. split; [done|].
           exists og, mapping. split_and!; [done..|].
           by rewrite Hframe' by lia.
        -- rewrite <- Nat.add_succ_comm. by apply Hok'.
    + intros [= <- <-]. exists q1, slots1. split_and!; [done..| |done].
      intros k Hk. apply Hframe1. lia.
Qed.

End Cache_circuit.

(** Lines 126-131 write the file and nothing else. *)
Lemma save_cache_to_file_spec (g g' : Globals) (r : result unit) :
  save_cache_to_file g = (r, g') →
  qobjs g' = qobjs g ∧ mappings g' = mappings g ∧ heap g' = heap g
  ∧ same_config g g'.
Proof.
  unfold save_cache_to_file, subscript_qobjs, subscript_mappings. unfold_M.
  intros H. unfold same_config.
  repeat (case_match; simpl in *; simplify_eq); by split_and!.
Qed.

(** What every call of [cache_circuit] does to the cache, whatever its
    outcome, and what the stored mappings are when it returns. *)
Lemma cache_circuit_spec (qobj : Qobj) (circuits : list QuantumCircuit)
  (chunk : nat) (g g' : Globals) (r : result unit) :
  cache_circuit qobj circuits chunk g = (r, g') →
  ∃ q' slots',
    qobjs g' = Some (list_insert_at chunk q' (default [] (qobjs g)))
    ∧ mappings g'
      = Some (list_insert_at chunk (length (heap g)) (default [] (mappings g)))
    ∧ heap g' = heap g ++ [slots']
    ∧ length slots' = length circuits
    ∧ is_copy_of qobj q'
    ∧ (r = Ok () →
       ∀ k circ, circuits !! k = Some circ →
         chunk ≤ length (default [] (qobjs g))
         ∧ chunk ≤ length (default [] (mappings g))
         ∧ ∃ og mapping,
             build_mapping circ qobj k = Ok (og, mapping)
             ∧ check_leftover og = Ok ()
             ∧ slots' !! k = Some mapping).
Proof.
  unfold cache_circuit, alloc, subscript_qobjs, subscript_mappings.
  unfold_M.
  set (g1 := if misses _ is None then _ else _).
  assert (qobjs g1 = Some (default [] (qobjs g))
          ∧ mappings g1 = Some (default [] (mappings g))
          ∧ heap g1 = heap g) as (Hq1 & Hm1 & Hh1).
  { subst g1. destruct (qobjs g) eqn:E1, (mappings g) eqn:E2;
      destruct (misses g) eqn:E3; simpl; rewrite ?E1, ?E2, ?E3; simpl;
      rewrite ?E1, ?E2, ?E3; simpl; by rewrite ?E1, ?E2. }
  rewrite Hq1. simpl. rewrite Hm1, Hh1.
  set (slots := replicate _ _). set (g2 := set_mappings _ _).
  assert (inserting qobj chunk (default [] (qobjs g))
            (default [] (mappings g)) (heap g) g2 g2 qobj slots) as Hins.
  { unfold inserting, same_config. split_and!; try done.
    split; [done|]. apply Forall2_same_length_lookup. split; [done|].
    intros k e1 e2 ??. by simplify_eq. }
  destruct (for_enumerate _ 0 circuits g2) as [r1 g3] eqn:Hloop.
  destruct (cache_circuit_loop_spec Hins Hloop)
    as (q' & slots' & Hins' & Hlen' & _ & Hok').
  destruct Hins' as (Hq3 & Hm3 & Hh3 & Hcopy3 & _).
  assert (length slots' = length circuits) as Hlen.
  { rewrite Hlen'. subst slots. by rewrite length_replicate. }
  destruct r1 as [[]|e].
  - destruct (save_cache_to_file g3) as [r4 g4] eqn:Hsave.
    destruct (save_cache_to_file_spec Hsave) as (Hq4 & Hm4 & Hh4 & _).
    intros [= <- <-]. exists q', slots'.
    rewrite Hq4, Hm4, Hh4. split_and!; try done.
    intros _. apply (Hok' eq_refl).
  - intros [= <- <-]. exists q', slots'. by split_and!.
Qed.

(** ** The claims about [cache_circuit] *)

(** C3.  The matcher is first in, first out per signature: when the two
    loops of a program slot complete, the mapping holds for the compiled
    instruction at position [k] the source index that is, among the
    source gates with the instruction's signature, at the rank the
    instruction has among the compiled instructions with that signature
    (the number of them before position [k]).  On Scenario 1 the mapping
    is [0, 1, 2]. *)
Theorem C3_matcher_is_fifo :
  (∀ input_circuit qobj circ_num og mapping,
     build_mapping input_circuit qobj circ_num = Ok (og, mapping) →
     ∃ sigs e,
       signatures (qreg_indeces input_circuit) (raw_gates input_circuit)
       = Ok sigs
       ∧ experiments qobj !! circ_num = Some e
       ∧ length mapping = length (instructions e)
       ∧ ∀ k ci, instructions e !! k = Some ci →
           ∃ u, mapping !! k = Some u
                ∧ sig_positions (compiled_signature ci) 0 sigs
                    !! occurrences (compiled_signature ci)
                         (take k (map compiled_signature (instructions e)))
                  = Some u)
  ∧ ∃ og, build_mapping Scenario.program1 Scenario.job1 0 = Ok (og, [0; 1; 2]).
Proof.
  split.
  - intros circ qobj circ_num og mapping H.
    destruct (build_mapping_ok H) as (sigs & e & Hs & He & Hlen & _ & Hfifo).
    exists sigs, e. split_and!; [done..|].
    intros k ci Hci. destruct (Hfifo _ _ Hci) as (u & Hu & Hpos & _).
    by exists u.
  - by eexists.
Qed.

Lemma C3_matcher_is_fifo_witness :
  ∃ sigs e,
    signatures (qreg_indeces Scenario.program1) (raw_gates Scenario.program1)
    = Ok sigs
    ∧ experiments Scenario.job1 !! 0 = Some e
    ∧ length [0; 1; 2] = length (instructions e)
    ∧ ∀ k ci, instructions e !! k = Some ci →
        ∃ u, [0; 1; 2] !! k = Some u
             ∧ sig_positions (compiled_signature ci) 0 sigs
                 !! occurrences (compiled_signature ci)
                      (take k (map compiled_signature (instructions e)))
               = Some u.
Proof.
  apply (proj1 C3_matcher_is_fifo Scenario.program1 Scenario.job1 0
           [("OpA[0]", []); ("OpB[0, 1]", [])] [0; 1; 2]).
  reflexivity.
Defined.

(** C7.  A compiled instruction whose signature no source gate has makes
    line 112 raise KeyError, not the "Circuit shape does not match qobj"
    exception, which is raised in the exhausted case only. *)
Theorem C7_absent_signature_raises_KeyError :
  build_mapping Scenario.program3 Scenario.job3_absent 0
  = Raise (KeyError "OpB[0, 1]")
  ∧ (cache_circuit Scenario.job3_absent [Scenario.program3] 0 (initial ∅)).1
    = Raise (KeyError "OpB[0, 1]")
  ∧ build_mapping Scenario.program3 Scenario.job3_exhausted 0
    = Raise (Exception (extra_in_qobj_msg "OpA[0]")).
Proof. split_and!; reflexivity. Qed.

Lemma build_op_graph_total (indeces : gmap string nat) (gates : list Gate)
  (sigs : list string) (i : nat) (og : OpGraph) :
  signatures indeces gates = Ok sigs →
  ∃ og', build_op_graph indeces i gates og = Ok og'.
Proof.
  revert sigs i og. induction gates as [|g gates IH]; intros sigs i og; simpl.
  - by eexists.
  - unfold source_signature.
    destruct (gate_qubits indeces (arg g)) as [qs|]; [|done]. simpl_result.
    destruct (signatures indeces gates) as [rest|] eqn:Hrest; [|done].
    intros _. by eapply IH.
Qed.

(** A compiled sub-job that lacks instructions of the source program:
    the loops complete and the check after them raises. *)
Lemma build_mapping_missing (input_circuit : QuantumCircuit) (qobj : Qobj)
  (circ_num : nat) (e : Experiment) (sigs : list string) :
  signatures (qreg_indeces input_circuit) (raw_gates input_circuit) = Ok sigs →
  experiments qobj !! circ_num = Some e →
  (∀ s, occurrences s (map compiled_signature (instructions e))
        ≤ occurrences s sigs) →
  length (instructions e) < length sigs →
  ∃ og mapping key,
    build_mapping input_circuit qobj circ_num = Ok (og, mapping)
    ∧ check_leftover og = Raise (Exception (extra_in_circuit_msg key)).
Proof.
  intros Hsigs He Hocc Hlen. unfold build_mapping.
  destruct (build_op_graph_total 0 [] Hsigs) as [og0 Hbuild].
  rewrite Hbuild. simpl_result. unfold getitem. rewrite He. simpl_result.
  destruct (build_op_graph_queue Hbuild) as (sigs' & Hsigs' & Hqueue).
  assert (sigs' = sigs) as -> by congruence.
  pose proof (build_op_graph_waiting Hbuild) as Hwait.
  assert (queues_sound sigs og0) as Hsound.
  { intros s u. rewrite Hqueue. unfold queue at 1. simpl.
    intros [_ Hu]%sig_positions_lookup. by rewrite Nat.sub_0_r in Hu. }
  destruct (match_instructions_total (compiled:=instructions e) (j:=0)
              (mapping:=[]) Hsigs Hsound eq_refl) as (og & mapping & Hmatch).
  { intros s. rewrite Hqueue. unfold queue at 1. simpl.
    by rewrite sig_positions_length. }
  destruct (match_instructions_ok Hsigs Hsound eq_refl Hmatch)
    as (popped & -> & Hpl & _ & Hperm & _).
  destruct (check_leftover_raise (og:=og)) as [key Hkey].
  { intros Hnil. apply Permutation_length in Hperm, Hwait.
    rewrite Hnil, app_nil_r in Hperm. simpl in Hwait.
    rewrite length_seq in Hwait.
    rewrite (signatures_length Hsigs) in Hlen. lia. }
  by exists og, popped, key.
Qed.

(** C4 (as amended).  Every mapping a successful insert stores is a
    bijection onto all the source operations of its program, with or
    without parameters: a permutation of their indices, as long as the
    compiled instruction list, and each compiled instruction has the
    type tag and the operand addresses of the source operation it is
    mapped to. *)
Theorem C4_stored_mappings_cover_every_source_operation
  (qobj : Qobj) (circuits : list QuantumCircuit) (chunk : nat)
  (g g' : Globals) :
  cache_circuit qobj circuits chunk g = (Ok (), g') →
  ∀ k circ, circuits !! k = Some circ →
    ∃ e mapping,
      experiments qobj !! k = Some e
      ∧ lookup_mapping chunk k g' = (Ok mapping, g')
      ∧ mapping ≡ₚ seq 0 (length (raw_gates circ))
      ∧ length mapping = length (raw_gates circ)
      ∧ length mapping = length (instructions e)
      ∧ NoDup mapping
      ∧ ∀ i ci, instructions e !! i = Some ci →
          ∃ u gate,
            mapping !! i = Some u
            ∧ raw_gates circ !! u = Some gate
            ∧ name ci = gate_name gate
            ∧ gate_qubits (qreg_indeces circ) (arg gate) = Ok (qubits ci).
Proof.
  intros Hcall k circ Hk.
  destruct (cache_circuit_spec Hcall)
    as (q' & slots' & Hq & Hm & Hh & Hlen & Hcopy & Hok).
  destruct (Hok eq_refl _ _ Hk)
    as (Hcq & Hcm & og & mapping & Hbuild & Hleft & Hslot).
  destruct (build_mapping_ok Hbuild)
    as (sigs & e & Hsigs & He & Hlen' & Hperm & Hfifo).
  apply check_leftover_ok in Hleft. rewrite Hleft, app_nil_r in Hperm.
  exists e, mapping. split_and!; try done.
  - unfold lookup_mapping, subscript_mappings, deref. unfold_M.
    rewrite Hm. unfold getitem.
    rewrite list_insert_at_lookup_eq by done. simpl.
    rewrite Hh, lookup_app_r, Nat.sub_diag by done. simpl.
    by rewrite Hslot.
  - apply Permutation_length in Hperm. by rewrite length_seq in Hperm.
  - rewrite Hperm. apply NoDup_seq.
  - intros i ci Hci. destruct (Hfifo _ _ Hci) as (u & Hu & _ & gate & ?).
    by exists u, gate.
Qed.

Lemma C4_stored_mappings_cover_every_source_operation_witness :
  ∃ e mapping,
    experiments Scenario.job1 !! 0 = Some e
    ∧ mapping ≡ₚ seq 0 (length (raw_gates Scenario.program1))
    ∧ length mapping = length (instructions e)
    ∧ NoDup mapping.
Proof.
  destruct (C4_stored_mappings_cover_every_source_operation
              (qobj := Scenario.job1) (circuits := [Scenario.program1])
              (chunk := 0) (g := initial ∅)
              (g' := (cache_circuit Scenario.job1 [Scenario.program1] 0
                        (initial ∅)).2)
              eq_refl (k := 0) (circ := Scenario.program1) eq_refl)
    as (e & mapping & He & _ & Hperm & _ & Hlen & Hnodup & _).
  by exists e, mapping.
Defined.

(** The claim as stated fails on Scenario 1: the stored mapping has
    three entries, the program two operations with parameters. *)
Lemma C4_counterexample :
  let run := cache_circuit Scenario.job1 [Scenario.program1] 0 (initial ∅) in
  run.1 = Ok ()
  ∧ (lookup_mapping 0 0 run.2).1 = Ok [0; 1; 2]
  ∧ length (parameterized (raw_gates Scenario.program1)) = 2.
Proof. split_and!; reflexivity. Qed.

(** *** The slots of an insert, one by one *)

Section Insert_run.

Variables (qobj : Qobj) (chunk : nat).

(** One run of the body on a slot whose sub-job is there and whose two
    loops complete: the qasm text is deleted, the mapping is stored, and
    the outcome is that of the check of lines 123-125. *)
Lemma cache_circuit_body_eq (j : nat) (circ : QuantumCircuit) (g : Globals)
  (qs : list Qobj) (q : Qobj) (e : Experiment) (qasm : string)
  (og : OpGraph) (mapping : Mapping) (ms : list loc) (l : loc)
  (slots : list Mapping) :
  qobjs g = Some qs → qs !! chunk = Some q → experiments q !! j = Some e →
  compiled_circuit_qasm (header e) = Some qasm →
  build_mapping circ qobj j = Ok (og, mapping) →
  mappings g = Some ms → ms !! chunk = Some l → heap g !! l = Some slots →
  j < length slots →
  cache_circuit_body qobj chunk j circ g
  = (check_leftover og,
     set_heap (<[l := <[j := mapping]> slots]> (heap g))
       (set_qobjs
          (Some (<[chunk := with_experiments q
                              (<[j := without_qasm e]> (experiments q))]> qs))
          g)).
Proof.
  intros Hqs Hq He Hqasm Hbuild Hms Hl Hslots Hj.
  unfold cache_circuit_body, del_compiled_circuit_qasm, store_experiment,
    store_mapping, deref, store, subscript_qobjs, subscript_mappings, getitem,
    setitem.
  unfold_M. rewrite Hqs, Hq. simpl. rewrite He. simpl. rewrite Hqasm.
  rewrite Hqs, Hq. simpl. rewrite Hbuild. simpl. rewrite Hms, Hl. simpl.
  rewrite Hslots. simpl. rewrite (proj2 (Nat.ltb_lt _ _) Hj). simpl.
  by destruct (check_leftover og) as [[]|].
Qed.

Variables (ms : list loc) (l : loc) (n : nat).

#[local] Abbreviation storing_here := (storing qobj chunk ms l n).

Lemma cache_circuit_body_storing (j : nat) (circ : QuantumCircuit)
  (x : Globals) (e : Experiment) (qasm : string) (og : OpGraph)
  (mapping : Mapping) :
  storing_here j x → j < n →
  experiments qobj !! j = Some e →
  compiled_circuit_qasm (header e) = Some qasm →
  build_mapping circ qobj j = Ok (og, mapping) →
  ∃ x', cache_circuit_body qobj chunk j circ x = (check_leftover og, x')
        ∧ storing_here (S j) x'
        ∧ files x' = files x
        ∧ ∃ slots, heap x' !! l = Some slots ∧ slots !! j = Some mapping.
Proof.
  intros (Hms & Hl & (slots & Hslots & Hlen) & qs & q & Hqs & Hq & Hst) Hj
    He Hqasm Hbuild.
  destruct Hst as (Hid & Hlenq & Hexp).
  destruct (Hexp _ _ He) as [Hej _]. rewrite Nat.ltb_irrefl in Hej.
  eexists. split.
  { eapply cache_circuit_body_eq; [done..|lia]. }
  pose proof (lookup_lt_Some _ _ _ Hslots) as Hlt.
  split; [split_and!|split; [done|]].
  - done.
  - done.
  - eexists. split; [by apply list_lookup_insert_eq|].
    by rewrite length_insert.
  - eexists _, _. split; [done|].
    split; [apply list_lookup_insert_eq; by eapply lookup_lt_Some|].
    split_and!; [done|by simpl; rewrite length_insert|].
    intros k ek Hk. destruct (Hexp _ _ Hk) as [Hqk Hdone]. simpl.
    destruct (decide (k = j)) as [->|Hne].
    + assert (ek = e) as -> by congruence.
      rewrite list_lookup_insert_eq by by eapply lookup_lt_Some.
      rewrite (proj2 (Nat.ltb_lt j (S j))) by lia.
      split; [done|]. intros _. by rewrite Hqasm.
    + rewrite list_lookup_insert_ne by done. rewrite Hqk. split.
      * destruct (Nat.ltb_spec k j), (Nat.ltb_spec k (S j)); (done || lia).
      * intros Hk'. apply Hdone. lia.
  - eexists. split; [by apply list_lookup_insert_eq|].
    apply list_lookup_insert_eq. lia.
Qed.

(** The loop up to its first slot that the check rejects. *)
Lemma cache_circuit_loop_first_failure (circuits : list QuantumCircuit)
  (i k : nat) (x : Globals) (circ : QuantumCircuit) (e : Experiment)
  (qasm : string) (og : OpGraph) (mapping : Mapping) (err : error) :
  storing_here i x → i + length circuits ≤ n →
  (∀ j c, j < k → circuits !! j = Some c → slot_accepted qobj (i + j) c) →
  circuits !! k = Some circ →
  experiments qobj !! (i + k) = Some e →
  compiled_circuit_qasm (header e) = Some qasm →
  build_mapping circ qobj (i + k) = Ok (og, mapping) →
  check_leftover og = Raise err →
  ∃ x', for_enumerate (cache_circuit_body qobj chunk) i circuits x
        = (Raise err, x')
        ∧ files x' = files x ∧ mappings x' = Some ms
        ∧ ∃ slots, heap x' !! l = Some slots ∧ slots !! (i + k) = Some mapping.
Proof.
  revert i circuits x.
  induction k as [|k IH]; intros i circuits x Hst Hn Hacc Hk He Hqasm Hbuild
    Hleft.
  - destruct circuits as [|c circuits]; [done|]. injection Hk as ->.
    rewrite Nat.add_0_r in *. simpl in Hn.
    assert (i < n) as Hi by lia.
    destruct (cache_circuit_body_storing Hst Hi He Hqasm Hbuild)
      as (x' & Hbody & (Hmx & _) & Hf & Hslots).
    exists x'. rewrite for_enumerate_cons, Hbody, Hleft. by split_and!.
  - destruct circuits as [|c circuits]; [done|]. simpl in Hk, Hn.
    destruct (Hacc 0 c) as (e0 & qasm0 & og0 & m0 & He0 & Hq0 & Hb0 & Hl0);
      [lia|done|].
    rewrite Nat.add_0_r in *.
    assert (i < n) as Hi by lia.
    destruct (cache_circuit_body_storing Hst Hi He0 Hq0 Hb0)
      as (x1 & Hbody & Hst1 & Hf1 & _).
    rewrite for_enumerate_cons, Hbody, Hl0.
    replace (i + S k) with (S i + k) in * by lia.
    destruct (IH (S i) circuits x1) as (x' & Hloop & Hf & Hmx & Hslots);
      [done|lia| |done..|].
    { intros j c' Hj Hc'. replace (S i + j) with (i + S j) by lia.
      apply Hacc; [lia|done]. }
    exists x'. split_and!; [done|congruence|done|done].
Qed.

End Insert_run.

(** C2 (as amended).  When the compiled sub-job of a program slot lacks
    instructions of the source program (no signature occurs more often
    than in the source and there are fewer instructions than source
    operations) and the slots before it go through, the check after the
    slot's loops fails and the insert raises its exception, "Circuit
    shape does not match qobj, found extra ... in circuit".  The failed
    call is not rolled back: the job copy and the list of mappings stay
    inserted at [chunk], with the mapping of the failing slot stored,
    so the cache has one chunk more than before. *)
Theorem C2_failed_insert_keeps_the_inserted_chunk
  (qobj : Qobj) (circuits : list QuantumCircuit) (chunk : nat)
  (g : Globals) (k : nat) (circ : QuantumCircuit)
  (e : Experiment) (qasm : string) (sigs : list string) :
  chunk ≤ chunk_count g → chunk ≤ length (default [] (mappings g)) →
  (∀ j c, j < k → circuits !! j = Some c → slot_accepted qobj j c) →
  circuits !! k = Some circ →
  experiments qobj !! k = Some e →
  compiled_circuit_qasm (header e) = Some qasm →
  signatures (qreg_indeces circ) (raw_gates circ) = Ok sigs →
  (∀ s, occurrences s (map compiled_signature (instructions e))
        ≤ occurrences s sigs) →
  length (instructions e) < length sigs →
  ∃ og mapping key g',
    build_mapping circ qobj k = Ok (og, mapping)
    ∧ check_leftover og = Raise (Exception (extra_in_circuit_msg key))
    ∧ cache_circuit qobj circuits chunk g
      = (Raise (Exception (extra_in_circuit_msg key)), g')
    ∧ chunk_count g' = S (chunk_count g)
    ∧ (∃ ms', mappings g' = Some ms'
              ∧ length ms' = S (length (default [] (mappings g))))
    ∧ (lookup_mapping chunk k g').1 = Ok mapping
    ∧ files g' = files g.
Proof.
  unfold chunk_count.
  intros Hcq Hcm Hacc Hk He Hqasm Hsigs Hocc Hlen.
  destruct (build_mapping_missing (qobj:=qobj) Hsigs He Hocc Hlen)
    as (og & mapping & key & Hbuild & Hleft).
  exists og, mapping, key.
  assert (∃ g', cache_circuit qobj circuits chunk g
                = (Raise (Exception (extra_in_circuit_msg key)), g')
                ∧ (lookup_mapping chunk k g').1 = Ok mapping
                ∧ files g' = files g) as (g' & Hcall & Hstored & Hfiles).
  { unfold cache_circuit, alloc, subscript_qobjs, subscript_mappings.
    unfold_M.
    set (g1 := if misses _ is None then _ else _).
    assert (qobjs g1 = Some (default [] (qobjs g))
            ∧ mappings g1 = Some (default [] (mappings g))
            ∧ files g1 = files g) as (Hq1 & Hm1 & Hf1).
    { subst g1. destruct (qobjs g) eqn:E1, (mappings g) eqn:E2;
        destruct (misses g) eqn:E3; simpl; rewrite ?E1, ?E2, ?E3; simpl;
        rewrite ?E1, ?E2, ?E3; simpl; by rewrite ?E1, ?E2. }
    rewrite Hq1. simpl. rewrite Hm1.
    set (g2 := set_mappings _ _).
    assert (storing qobj chunk
              (list_insert_at chunk (length (heap g1))
                 (default [] (mappings g)))
              (length (heap g1)) (length circuits) 0 g2) as Hst.
    { split_and!.
      - done.
      - by apply list_insert_at_lookup_eq.
      - eexists. split.
        + subst g2. simpl. by rewrite lookup_app_r, Nat.sub_diag.
        + by rewrite length_replicate.
      - eexists _, qobj. split; [done|].
        split; [by apply list_insert_at_lookup_eq|].
        split_and!; [done..|]. intros j ej Hj. split; [done|lia]. }
    destruct (cache_circuit_loop_first_failure (circuits := circuits)
                (k := k) Hst (Nat.le_refl _) Hacc Hk He Hqasm Hbuild Hleft)
      as (x' & -> & Hf & Hmx & slots & Hslots & Hm).
    exists x'. split; [done|]. split; [|by rewrite Hf].
    destruct Hst as (_ & Hl2 & _).
    unfold lookup_mapping, subscript_mappings, deref, getitem. unfold_M.
    rewrite Hmx, Hl2. simpl. rewrite Hslots. simpl. simpl in Hm.
    by rewrite Hm. }
  exists g'. split_and!; [done..| | |done|done].
  - destruct (cache_circuit_spec Hcall) as (q' & slots' & Hq & _).
    rewrite Hq. simpl. apply length_list_insert_at.
  - destruct (cache_circuit_spec Hcall) as (q' & slots' & _ & Hm & _).
    eexists. split; [done|]. apply length_list_insert_at.
Qed.

Lemma C2_failed_insert_keeps_the_inserted_chunk_witness :
  ∃ key g',
    cache_circuit
      (Scenario.job [[Scenario.iOpA 0; Scenario.iOpB; Scenario.iOpA 0];
                     [Scenario.iOpA 0]])
      [Scenario.program1; Scenario.program2] 0 (initial ∅)
    = (Raise (Exception (extra_in_circuit_msg key)), g')
    ∧ chunk_count g' = 1.
Proof.
  destruct (@C2_failed_insert_keeps_the_inserted_chunk
              (Scenario.job [[Scenario.iOpA 0; Scenario.iOpB; Scenario.iOpA 0];
                             [Scenario.iOpA 0]])
              [Scenario.program1; Scenario.program2] 0 (initial ∅) 1
              Scenario.program2
              {| header := {| header_name := "circuit";
                              compiled_circuit_qasm := Some "OPENQASM 2.0;" |};
                 instructions := [Scenario.iOpA 0] |}
              "OPENQASM 2.0;" ["OpA[0]"; "OpA[0]"])
    as (og & mapping & key & g' & _ & _ & Hcall & Hcount & _).
  - vm_compute. lia.
  - vm_compute. lia.
  - intros [|j] c Hj Hc; [|lia]. injection Hc as <-.
    eexists _, _, _, _. split_and!; vm_compute; reflexivity.
  - reflexivity.
  - reflexivity.
  - reflexivity.
  - reflexivity.
  - intros s. simpl. destruct (String.eqb "OpA[0]" s); simpl; lia.
  - simpl. lia.
  - by exists key, g'.
Defined.

(** The claim as stated fails on Scenario 2: the insert raises and the
    cache, empty before, holds a chunk after, with the partial mapping
    [0]. *)
Lemma C2_counterexample :
  let run := cache_circuit Scenario.job2 [Scenario.program2] 0 (initial ∅) in
  run.1 = Raise (Exception (extra_in_circuit_msg "OpA[0]"))
  ∧ chunk_count (initial ∅) = 0
  ∧ chunk_count run.2 = 1
  ∧ (lookup_mapping 0 0 run.2).1 = Ok [0].
Proof. split_and!; reflexivity. Qed.

(** C6 (as amended).  A successful insert at a chunk index that holds
    an entry puts the new job and its list of mappings at that index and
    moves the prior entry, and every later one, up by one: the new pair
    is what the index finds, nothing is overwritten and the cache has
    one chunk more. *)
Theorem C6_insert_moves_the_prior_entry_up
  (qobj : Qobj) (circuits : list QuantumCircuit) (chunk : nat)
  (g g' : Globals) (qs : list Qobj) (ms : list loc)
  (q_old : Qobj) (l_old : loc) :
  cache_circuit qobj circuits chunk g = (Ok (), g') →
  qobjs g = Some qs → mappings g = Some ms →
  qs !! chunk = Some q_old → ms !! chunk = Some l_old →
  ∃ qs' ms' q' slots,
    qobjs g' = Some qs' ∧ mappings g' = Some ms'
    ∧ length qs' = S (length qs) ∧ length ms' = S (length ms)
    ∧ qs' !! chunk = Some q' ∧ is_copy_of qobj q'
    ∧ ms' !! chunk = Some (length (heap g))
    ∧ heap g' !! length (heap g) = Some slots
    ∧ length slots = length circuits
    ∧ qs' !! S chunk = Some q_old ∧ ms' !! S chunk = Some l_old
    ∧ (∀ i, i < chunk → qs' !! i = qs !! i ∧ ms' !! i = ms !! i)
    ∧ (∀ i, chunk ≤ i → qs' !! S i = qs !! i ∧ ms' !! S i = ms !! i).
Proof.
  intros Hcall Hqs Hms Hq_old Hl_old.
  destruct (cache_circuit_spec Hcall)
    as (q' & slots' & Hq & Hm & Hh & Hlen & Hcopy & _).
  rewrite Hqs in Hq. rewrite Hms in Hm. simpl in Hq, Hm.
  pose proof (lookup_lt_Some _ _ _ Hq_old) as Hcq.
  pose proof (lookup_lt_Some _ _ _ Hl_old) as Hcm.
  eexists _, _, q', slots'. split_and!; try done.
  - apply length_list_insert_at.
  - apply length_list_insert_at.
  - apply list_insert_at_lookup_eq. lia.
  - apply list_insert_at_lookup_eq. lia.
  - rewrite Hh, lookup_app_r, Nat.sub_diag by done. done.
  - by rewrite list_insert_at_lookup_gt.
  - by rewrite list_insert_at_lookup_gt.
  - intros i Hi. rewrite !list_insert_at_lookup_lt by lia. done.
  - intros i Hi. by rewrite !list_insert_at_lookup_gt.
Qed.

Lemma C6_insert_moves_the_prior_entry_up_witness :
  let g1 := (cache_circuit Scenario.job1 [Scenario.program1] 0 (initial ∅)).2 in
  let g2 := (cache_circuit Scenario.job2 [] 0 g1).2 in
  ∃ qs' q',
    qobjs g2 = Some qs' ∧ length qs' = 2
    ∧ qs' !! 0 = Some q' ∧ is_copy_of Scenario.job2 q'
    ∧ qs' !! 1 = default [] (qobjs g1) !! 0.
Proof.
  intros g1 g2.
  destruct (C6_insert_moves_the_prior_entry_up
              (qobj := Scenario.job2) (circuits := []) (chunk := 0)
              (g := g1) (g' := g2) (qs := default [] (qobjs g1)) (ms := [0])
              (q_old := default Scenario.job1 (default [] (qobjs g1) !! 0))
              (l_old := 0))
    as (qs' & ms' & q' & slots & Hq & _ & Hlen & _ & Hq0 & Hcopy & _ & _ & _
        & Hq1 & _); [vm_compute; reflexivity..|].
  exists qs', q'. split_and!; [done..|]. rewrite Hq1. vm_compute. reflexivity.
Defined.

(** The claim as stated fails when Scenario 1 is inserted twice at
    chunk 0: the second insert succeeds and the cache then holds two
    chunks, the first copy at index 1. *)
Lemma C6_counterexample :
  let g1 := (cache_circuit Scenario.job1 [Scenario.program1] 0 (initial ∅)).2 in
  let run := cache_circuit Scenario.job1 [Scenario.program1] 0 g1 in
  chunk_count g1 = 1
  ∧ run.1 = Ok ()
  ∧ chunk_count run.2 = 2
  ∧ default [] (qobjs run.2) !! 1 = default [] (qobjs g1) !! 0.
Proof. split_and!; reflexivity. Qed.

(** ** The patcher *)

(** *** What a patch keeps of the cached jobs *)

Section Kept.

Lemma instruction_kept_refl ci : instruction_kept ci ci.
Proof. by split_and!. Qed.

Lemma instruction_kept_trans ci1 ci2 ci3 :
  instruction_kept ci1 ci2 → instruction_kept ci2 ci3 → instruction_kept ci1 ci3.
Proof.
  intros (Hn & Hq & Hs) (Hn' & Hq' & Hs'). split_and!; [congruence..|].
  intros H. rewrite Hs' by (rewrite Hs; done). by apply Hs.
Qed.

Lemma experiment_kept_refl e : experiment_kept e e.
Proof.
  split; [|done]. apply Forall2_same_length_lookup. split; [done|].
  intros ? ? ? ? ?. simplify_eq. apply instruction_kept_refl.
Qed.

Lemma experiment_kept_trans e1 e2 e3 :
  experiment_kept e1 e2 → experiment_kept e2 e3 → experiment_kept e1 e3.
Proof.
  intros [H12 Hq12] [H23 Hq23]. split; [|congruence].
  eapply Forall2_trans; [|done..]. apply instruction_kept_trans.
Qed.

Lemma experiments_kept_refl es : experiments_kept es es.
Proof. intros k e He. exists e. split; [done|]. apply experiment_kept_refl. Qed.

Lemma experiments_kept_trans es1 es2 es3 :
  experiments_kept es1 es2 → experiments_kept es2 es3 →
  experiments_kept es1 es3.
Proof.
  intros H12 H23 k e He. destruct (H12 _ _ He) as (e2 & He2 & Hk2).
  destruct (H23 _ _ He2) as (e3 & He3 & Hk3). exists e3. split; [done|].
  by eapply experiment_kept_trans.
Qed.

Lemma qobj_kept_refl q : qobj_kept q q.
Proof. split; [done|]. apply experiments_kept_refl. Qed.

Lemma qobjs_kept_refl qs : qobjs_kept qs qs.
Proof. intros c q Hq. exists q. split; [done|]. apply qobj_kept_refl. Qed.

Lemma qobjs_kept_trans qs1 qs2 qs3 :
  qobjs_kept qs1 qs2 → qobjs_kept qs2 qs3 → qobjs_kept qs1 qs3.
Proof.
  intros H12 H23 c q Hq. destruct (H12 _ _ Hq) as (q2 & Hq2 & Hid2 & Hk2).
  destruct (H23 _ _ Hq2) as (q3 & Hq3 & Hid3 & Hk3). exists q3.
  split; [done|]. split; [congruence|]. by eapply experiments_kept_trans.
Qed.

Lemma cache_kept_refl g : cache_kept g g.
Proof. intros qs Hqs. exists qs. split; [done|]. apply qobjs_kept_refl. Qed.

Lemma cache_kept_trans g1 g2 g3 :
  cache_kept g1 g2 → cache_kept g2 g3 → cache_kept g1 g3.
Proof.
  intros H12 H23 qs Hqs. destruct (H12 _ Hqs) as (qs2 & Hqs2 & Hk2).
  destruct (H23 _ Hqs2) as (qs3 & Hqs3 & Hk3). exists qs3. split; [done|].
  by eapply qobjs_kept_trans.
Qed.

(** Appending keeps what was there. *)
Lemma experiments_kept_insert_end es i e :
  length es ≤ i → experiments_kept es (list_insert_at i e es).
Proof.
  intros Hi k e1 Hk. exists e1. split; [|apply experiment_kept_refl].
  rewrite list_insert_at_ge by done. by apply lookup_app_l_Some.
Qed.

(** Replacing one experiment by one that keeps it. *)
Lemma experiments_kept_insert es i e e' :
  es !! i = Some e → experiment_kept e e' →
  experiments_kept es (<[i := e']> es).
Proof.
  intros Hi Hkept k e1 Hk. destruct (decide (k = i)) as [->|Hne].
  - exists e'. rewrite list_lookup_insert_eq by by eapply lookup_lt_Some.
    split; [done|]. by simplify_eq.
  - exists e1. rewrite list_lookup_insert_ne by done.
    split; [done|]. apply experiment_kept_refl.
Qed.

Lemma qobjs_kept_insert qs c q q' :
  qs !! c = Some q → qobj_kept q q' → qobjs_kept qs (<[c := q']> qs).
Proof.
  intros Hc Hkept k q1 Hk. destruct (decide (k = c)) as [->|Hne].
  - exists q'. rewrite list_lookup_insert_eq by by eapply lookup_lt_Some.
    split; [done|]. by simplify_eq.
  - exists q1. rewrite list_lookup_insert_ne by done.
    split; [done|]. apply qobj_kept_refl.
Qed.

Lemma qobjs_kept_insert_end qs i q :
  length qs ≤ i → qobjs_kept qs (list_insert_at i q qs).
Proof.
  intros Hi k q1 Hk. exists q1. split; [|apply qobj_kept_refl].
  rewrite list_insert_at_ge by done. by apply lookup_app_l_Some.
Qed.

End Kept.

(** *** One gate (lines 178-184) *)

Lemma float_list_length (ps : list Param) (xs : list float) :
  float_list ps = Ok xs → length xs = length ps.
Proof.
  revert xs. induction ps as [|[x|re im] ps IH]; intros xs; simpl.
  - by intros [= <-].
  - destruct (float_list ps) as [ys|]; [|done]. simpl_result.
    intros [= <-]. simpl. f_equal. by apply IH.
  - done.
Qed.

(** The conversion of line 184 goes through exactly on real numbers,
    and raises TypeError otherwise. *)
Lemma float_list_real (ps : list Param) :
  (∃ xs, float_list ps = Ok xs) ↔ Forall is_real ps.
Proof.
  induction ps as [|[x|re im] ps IH]; simpl.
  - split; [by constructor|by eexists].
  - split.
    + intros [xs H]. destruct (float_list ps) as [ys|]; [|done].
      constructor; [by exists x|]. apply IH. by eexists.
    + intros [_ [ys ->]%IH]%Forall_cons. by eexists.
  - split; [by intros [? ?]|]. by intros [[? ?] _]%Forall_cons.
Qed.

Lemma float_list_not_real (ps : list Param) :
  ¬ Forall is_real ps → float_list ps = Raise TypeError.
Proof.
  induction ps as [|[x|re im] ps IH]; simpl; intros H.
  - destruct H. constructor.
  - rewrite IH; [done|]. intros Hps. apply H. constructor; [by exists x|done].
  - done.
Qed.

Lemma patch_gate_ok (cache_index gate_num : nat) (ci ci' : Instruction)
  (ug : Gate) :
  patch_gate cache_index gate_num ci ug = Ok ci' →
  name ci' = name ci ∧ qubits ci' = qubits ci
  ∧ name ci = gate_name ug
  ∧ length (default [] (params ci)) = length (param ug)
  ∧ ∃ ps, float_list (param ug) = Ok ps ∧ params ci' = Some ps.
Proof.
  unfold patch_gate.
  destruct (length (default [] (params ci)) =? length (param ug)) eqn:Hlen;
    simpl; [|by destruct (params ci)].
  destruct (String.eqb_spec (name ci) (gate_name ug)) as [Hname|];
    simpl; [|by destruct (params ci)].
  destruct (float_list (param ug)) as [ps|] eqn:Hps; [|done]. simpl_result.
  intros [= <-]. simpl. apply Nat.eqb_eq in Hlen. split_and!; [done..|].
  by exists ps.
Qed.

(** A parameter-count mismatch always raises: AquaError, or
    AttributeError when the compiled instruction has no [params]. *)
Lemma patch_gate_mismatch (cache_index gate_num : nat) (ci : Instruction)
  (ug : Gate) :
  length (default [] (params ci)) ≠ length (param ug) →
  match params ci with
  | Some ps =>
      patch_gate cache_index gate_num ci ug
      = Raise (AquaError (gate_mismatch_msg cache_index ug gate_num (name ci) ps))
  | None => patch_gate cache_index gate_num ci ug = Raise (AttributeError "params")
  end.
Proof.
  intros Hlen. unfold patch_gate. apply Nat.eqb_neq in Hlen. rewrite Hlen.
  simpl. by destruct (params ci).
Qed.

(** *** The gates of one experiment (lines 172-184) *)

Lemma patch_instructions_kept (mapping : result Mapping) (raw : list Gate)
  (gate_num : nat) (compiled : list Instruction) :
  Forall2 instruction_kept compiled
    (patch_instructions mapping raw gate_num compiled).1.
Proof.
  revert gate_num. induction compiled as [|ci compiled IH]; intros gate_num.
  - constructor.
  - simpl. destruct (String.eqb_spec (name ci) "snapshot") as [Hsnap|Hsnap].
    + specialize (IH (S gate_num)).
      destruct (patch_instructions mapping raw (S gate_num) compiled).
      simpl. constructor; [apply instruction_kept_refl | done].
    + destruct (_ ← mapping; _) as [ci'|err] eqn:Hpatch.
      * specialize (IH (S gate_num)).
        destruct (patch_instructions mapping raw (S gate_num) compiled).
        simpl. constructor; [|done].
        destruct mapping as [m|]; [|done]. simpl_result.
        destruct (getitem m gate_num) as [u|]; [|done]. simpl_result.
        destruct (getitem raw u) as [ug|]; [|done]. simpl_result.
        apply patch_gate_ok in Hpatch as (? & ? & _). by split_and!.
      * simpl. constructor; [apply instruction_kept_refl|].
        apply Forall2_same_length_lookup. split; [done|].
        intros ? ? ? ? ?. simplify_eq. apply instruction_kept_refl.
Qed.

(** When the loop completes, every gate that is not a snapshot carries
    the parameters of the source gate the mapping gives for it. *)
Lemma patch_instructions_ok (mapping : result Mapping) (raw : list Gate)
  (gate_num : nat) (compiled patched : list Instruction) :
  patch_instructions mapping raw gate_num compiled = (patched, Ok ()) →
  ∀ i ci', patched !! i = Some ci' → name ci' ≠ "snapshot" →
    ∃ m u ug ci,
      mapping = Ok m ∧ m !! (gate_num + i) = Some u ∧ raw !! u = Some ug
      ∧ compiled !! i = Some ci
      ∧ length (default [] (params ci)) = length (param ug)
      ∧ name ci' = gate_name ug
      ∧ ∃ ps, float_list (param ug) = Ok ps ∧ params ci' = Some ps.
Proof.
  revert gate_num patched.
  induction compiled as [|ci compiled IH]; intros gate_num patched; simpl.
  - by intros [= <-] [|?] ?.
  - destruct (String.eqb_spec (name ci) "snapshot") as [Hsnap|Hsnap].
    + destruct (patch_instructions mapping raw (S gate_num) compiled)
        as [rest r] eqn:Hrest.
      intros [= <- ->] [|i] ci' Hi Hn; simpl in Hi.
      * by simplify_eq.
      * destruct (IH _ _ Hrest _ _ Hi Hn) as (m & u & ug & ci0 & ?).
        exists m, u, ug, ci0. by rewrite <- Nat.add_succ_comm.
    + destruct (_ ← mapping; _) as [ci1|err] eqn:Hpatch; [|done].
      destruct (patch_instructions mapping raw (S gate_num) compiled)
        as [rest r] eqn:Hrest.
      intros [= <- ->] [|i] ci' Hi Hn; simpl in Hi.
      * simplify_eq. destruct mapping as [m|]; [|done]. simpl_result.
        unfold getitem in Hpatch.
        destruct (m !! gate_num) as [u|] eqn:Hu; [|done]. simpl_result.
        destruct (raw !! u) as [ug|] eqn:Hug; [|done]. simpl_result.
        apply patch_gate_ok in Hpatch as (? & ? & ? & ? & ?).
        exists m, u, ug, ci. rewrite Nat.add_0_r. split_and!; try done.
        congruence.
      * destruct (IH _ _ Hrest _ _ Hi Hn) as (m & u & ug & ci0 & ?).
        exists m, u, ug, ci0. by rewrite <- Nat.add_succ_comm.
Qed.

(** A gate that is not a snapshot and whose parameter count differs
    from that of its source gate keeps the loop from completing. *)
Lemma patch_instructions_mismatch (m : Mapping) (raw : list Gate)
  (gate_num : nat) (compiled : list Instruction) (i : nat) (ci : Instruction)
  (u : nat) (ug : Gate) :
  compiled !! i = Some ci → name ci ≠ "snapshot" →
  m !! (gate_num + i) = Some u → raw !! u = Some ug →
  length (default [] (params ci)) ≠ length (param ug) →
  ∃ err, (patch_instructions (Ok m) raw gate_num compiled).2 = Raise err.
Proof.
  revert gate_num i.
  induction compiled as [|c compiled IH]; intros gate_num i; [done|].
  intros Hi Hsnap Hu Hug Hlen. simpl.
  destruct i as [|i]; simpl in Hi.
  - simplify_eq. rewrite Nat.add_0_r in Hu.
    apply String.eqb_neq in Hsnap. rewrite Hsnap. simpl_result.
    unfold getitem. rewrite Hu. simpl_result. rewrite Hug. simpl_result.
    pose proof (patch_gate_mismatch u gate_num Hlen) as Hp.
    destruct (params ci); rewrite Hp; by eexists.
  - rewrite <- Nat.add_succ_comm in Hu.
    destruct (IH _ _ Hi Hsnap Hu Hug Hlen) as [err Herr].
    destruct (String.eqb (name c) "snapshot").
    + destruct (patch_instructions (Ok m) raw (S gate_num) compiled).
      by exists err.
    + match goal with
      | |- context [match ?x with Ok _ => _ | Raise _ => _ end] =>
          destruct x as [c'|err']
      end.
      * destruct (patch_instructions (Ok m) raw (S gate_num) compiled).
        by exists err.
      * by exists err'.
Qed.

(** *** The steps of load_qobj_from_cache *)

Lemma lookup_mapping_eq (chunk circ_num : nat) (g : Globals) :
  lookup_mapping chunk circ_num g = (mapping_at g chunk circ_num, g).
Proof.
  unfold lookup_mapping, mapping_at, subscript_mappings, deref. unfold_M.
  destruct (mappings g) as [ms|]; [|done].
  destruct (getitem ms chunk) as [l|]; [|done]. simpl_result.
  by destruct (getitem (heap g) l).
Qed.

Lemma store_experiment_eq (chunk circ_num : nat) (e : Experiment)
  (g : Globals) (qs : list Qobj) (q : Qobj) :
  qobjs g = Some qs → qs !! chunk = Some q →
  store_experiment chunk circ_num e g
  = (Ok (), set_qobjs
              (Some (<[chunk := with_experiments q
                                  (<[circ_num := e]> (experiments q))]> qs)) g).
Proof.
  intros Hqs Hq. unfold store_experiment, subscript_qobjs, getitem. unfold_M.
  by rewrite Hqs, Hq.
Qed.

(** Lines 162-164 do nothing when the slot is cached. *)
Lemma reuse_first_experiment_cached (chunk circ_num : nat) (g : Globals)
  (qs : list Qobj) (q : Qobj) :
  qobjs g = Some qs → qs !! chunk = Some q →
  circ_num < length (experiments q) →
  reuse_first_experiment chunk circ_num g = (Ok (), g).
Proof.
  intros Hqs Hq Hlen.
  unfold reuse_first_experiment, subscript_qobjs, getitem. unfold_M.
  destruct (_ && _ && _); [|done]. rewrite Hqs, Hq.
  apply Nat.leb_gt in Hlen. by rewrite Hlen.
Qed.

(** What lines 162-164 do: nothing, or they append to the experiments
    of chunk 0 a copy of its first experiment and insert the first
    mapping into the list of chunk 0. *)
Lemma reuse_first_experiment_spec (chunk circ_num : nat) (g g1 : Globals)
  (r : result unit) :
  reuse_first_experiment chunk circ_num g = (r, g1) →
  same_config g g1 ∧ files g1 = files g ∧ mappings g1 = mappings g
  ∧ (g1 = g
     ∨ chunk = 0 ∧ 0 < circ_num
       ∧ ∃ qs q0 e0,
           qobjs g = Some qs ∧ qs !! 0 = Some q0
           ∧ length (experiments q0) ≤ circ_num
           ∧ experiments q0 !! 0 = Some e0
           ∧ qobjs g1
             = Some (<[0 := with_experiments q0
                              (list_insert_at circ_num e0 (experiments q0))]> qs)).
Proof.
  unfold reuse_first_experiment, subscript_qobjs, subscript_mappings, deref,
    store, getitem. unfold_M.
  destruct (try_reusing_qobjs g); simpl; [|intros [= <- <-]; by split_and!; try left].
  destruct (Nat.eqb_spec chunk 0) as [->|]; simpl;
    [|intros [= <- <-]; by split_and!; try left].
  destruct (Nat.ltb_spec 0 circ_num) as [Hpos|]; simpl;
    [|intros [= <- <-]; by split_and!; try left].
  destruct (qobjs g) as [qs|] eqn:Hqs; simpl;
    [|intros [= <- <-]; by split_and!; try left].
  destruct (qs !! 0) as [q0|] eqn:Hq0; simpl;
    [|intros [= <- <-]; by split_and!; try left].
  destruct (Nat.leb_spec (length (experiments q0)) circ_num) as [Hlen|]; simpl;
    [|intros [= <- <-]; by split_and!; try left].
  destruct (experiments q0 !! 0) as [e0|] eqn:He0; simpl;
    [|intros [= <- <-]; by split_and!; try left].
  intros H.
  assert (qobjs g1
          = Some (<[0 := with_experiments q0
                           (list_insert_at circ_num e0 (experiments q0))]> qs)
          ∧ same_config g g1 ∧ files g1 = files g ∧ mappings g1 = mappings g)
    as (? & ? & ? & ?).
  { unfold same_config.
    destruct (mappings g) as [ms|] eqn:Hms; simpl in H;
      [|simplify_eq; simpl; by split_and!].
    destruct (ms !! 0) as [l0|]; simpl in H;
      [|simplify_eq; simpl; by split_and!].
    destruct (heap g !! l0) as [slots|]; simpl in H;
      [|simplify_eq; simpl; by split_and!].
    destruct (slots !! 0) as [m0|]; simpl in H;
      simplify_eq; simpl; by split_and!. }
  split_and!; try done. right. split_and!; try done.
  by exists qs, q0, e0.
Qed.

Lemma reuse_first_experiment_kept (chunk circ_num : nat) (g g1 : Globals)
  (r : result unit) :
  reuse_first_experiment chunk circ_num g = (r, g1) → cache_kept g g1.
Proof.
  intros H. apply reuse_first_experiment_spec in H
    as (_ & _ & _ & [->|(_ & _ & qs & q0 & e0 & Hqs & Hq0 & Hlen & _ & Hqs1)]).
  - apply cache_kept_refl.
  - intros qs' Hqs'. simplify_eq. eexists. split; [done|].
    eapply qobjs_kept_insert; [done|]. split; [done|].
    by apply experiments_kept_insert_end.
Qed.

(** Lines 154-156. *)
Lemma reuse_first_chunk_spec (chunk : nat) (g g1 : Globals) (r : result unit) :
  reuse_first_chunk chunk g = (r, g1) →
  same_config g g1 ∧ files g1 = files g ∧ heap g1 = heap g
  ∧ (qobjs g1 = qobjs g
     ∨ ∃ qs q0, qobjs g = Some qs ∧ length qs ≤ chunk ∧ qs !! 0 = Some q0
                ∧ qobjs g1 = Some (list_insert_at chunk q0 qs)).
Proof.
  unfold reuse_first_chunk, getitem. unfold_M.
  destruct (qobjs g) as [qs|] eqn:Hqs;
    [|intros [= <- <-]; split_and!; try done; by left].
  destruct (try_reusing_qobjs g); simpl;
    [|intros [= <- <-]; split_and!; try done; by left].
  destruct (Nat.leb_spec (length qs) chunk) as [Hlen|]; simpl;
    [|intros [= <- <-]; split_and!; try done; by left].
  destruct (mappings g) as [ms|]; simpl;
    [|intros [= <- <-]; split_and!; try done; by left].
  destruct (ms !! 0) as [l0|]; simpl;
    [|intros [= <- <-]; split_and!; try done; by left].
  destruct (qs !! 0) as [q0|] eqn:Hq0; simpl;
    [|intros [= <- <-]; split_and!; try done; by left].
  intros [= <- <-]. split_and!; try done. right. by exists qs, q0.
Qed.

Lemma reuse_first_chunk_kept (chunk : nat) (g g1 : Globals) (r : result unit) :
  reuse_first_chunk chunk g = (r, g1) → cache_kept g g1.
Proof.
  intros H. apply reuse_first_chunk_spec in H
    as (_ & _ & _ & [Heq|(qs & q0 & Hqs & Hlen & _ & Hqs1)]).
  - intros qs Hqs. exists qs. split; [congruence|]. apply qobjs_kept_refl.
  - intros qs' Hqs'. simplify_eq. eexists. split; [done|].
    by apply qobjs_kept_insert_end.
Qed.

(** Lines 138-144 touch the cache only when there is none. *)
Lemma try_loading_cache_from_file_spec (g g1 : Globals) (r : result unit) :
  try_loading_cache_from_file g = (r, g1) →
  same_config g g1 ∧ files g1 = files g
  ∧ (g1 = g ∨ qobjs g = None).
Proof.
  unfold try_loading_cache_from_file. unfold_M.
  destruct (qobjs g) eqn:Hq; [intros [= <- <-]; split_and!; try done; by left|].
  destruct (cache_file g) as [path|];
    [|intros [= <- <-]; split_and!; try done; by left].
  destruct (0 <? String.length path);
    [|intros [= <- <-]; split_and!; try done; by left].
  destruct (files g !! path) as [[]|];
    intros [= <- <-]; split_and!; try done; (by left) || (by right).
Qed.

Lemma try_loading_cache_from_file_cached (g : Globals) (qs : list Qobj) :
  qobjs g = Some qs → try_loading_cache_from_file g = (Ok (), g).
Proof. intros H. unfold try_loading_cache_from_file. unfold_M. by rewrite H. Qed.

Lemma try_loading_cache_from_file_kept (g g1 : Globals) (r : result unit) :
  try_loading_cache_from_file g = (r, g1) → cache_kept g g1.
Proof.
  intros H. apply try_loading_cache_from_file_spec in H
    as (_ & _ & [->|Hnone]).
  - apply cache_kept_refl.
  - intros qs Hqs. congruence.
Qed.

(** The body of the patch loop, once lines 162-164 have run and the
    slot is there. *)
Lemma load_qobj_body_eq (chunk circ_num : nat) (circ : QuantumCircuit)
  (g g1 : Globals) (qs : list Qobj) (q : Qobj) (e : Experiment) :
  reuse_first_experiment chunk circ_num g = (Ok (), g1) →
  qobjs g1 = Some qs → qs !! chunk = Some q →
  experiments q !! circ_num = Some e →
  load_qobj_body chunk circ_num circ g
  = ((patched_experiment g1 chunk circ_num circ e).2,
     with_patched g1 chunk circ_num qs q
       (patched_experiment g1 chunk circ_num circ e).1).
Proof.
  intros Hreuse Hqs Hq He. unfold load_qobj_body.
  unfold mbind at 1, M_bind at 1, bind at 1. rewrite Hreuse.
  unfold mbind at 1, M_bind at 1, bind at 1, subscript_qobjs at 1.
  unfold_M. rewrite Hqs. unfold getitem. rewrite Hq, He.
  rewrite (store_experiment_eq _ _ Hqs Hq).
  unfold attempt. rewrite lookup_mapping_eq.
  unfold patched_experiment, with_patched. simpl.
  change (mapping_at (set_qobjs _ g1) chunk circ_num)
    with (mapping_at g1 chunk circ_num).
  destruct (patch_instructions _ _ 0 (instructions e)) as [patched r].
  erewrite store_experiment_eq; [|done|].
  2:{ apply list_lookup_insert_eq. by eapply lookup_lt_Some. }
  simpl. rewrite !list_insert_insert_eq. done.
Qed.

(** Every run of the body: lines 162-164, then either an exception that
    leaves the globals as they are, or the slot patched as far as the
    loop over its gates got. *)
Lemma load_qobj_body_cases (chunk circ_num : nat) (circ : QuantumCircuit)
  (g g' : Globals) (r : result unit) :
  load_qobj_body chunk circ_num circ g = (r, g') →
  ∃ r1 g1,
    reuse_first_experiment chunk circ_num g = (r1, g1)
    ∧ ((g' = g1 ∧ r ≠ Ok ())
       ∨ ∃ qs q e,
           r1 = Ok () ∧ qobjs g1 = Some qs ∧ qs !! chunk = Some q
           ∧ experiments q !! circ_num = Some e
           ∧ r = (patched_experiment g1 chunk circ_num circ e).2
           ∧ g' = with_patched g1 chunk circ_num qs q
                    (patched_experiment g1 chunk circ_num circ e).1).
Proof.
  destruct (reuse_first_experiment chunk circ_num g) as [r1 g1] eqn:Hreuse.
  intros H. exists r1, g1. split; [done|].
  destruct r1 as [[]|err].
  - destruct (qobjs g1) as [qs|] eqn:Hqs.
    + destruct (qs !! chunk) as [q|] eqn:Hq.
      * destruct (experiments q !! circ_num) as [e|] eqn:He.
        -- right. exists qs, q, e.
           rewrite (load_qobj_body_eq circ Hreuse Hqs Hq He) in H.
           by simplify_eq.
        -- left. revert H. unfold load_qobj_body, subscript_qobjs, getitem.
           unfold_M. rewrite Hreuse, Hqs, Hq, He. by intros [= <- <-].
      * left. revert H. unfold load_qobj_body, subscript_qobjs, getitem.
        unfold_M. rewrite Hreuse, Hqs, Hq. by intros [= <- <-].
    + left. revert H. unfold load_qobj_body, subscript_qobjs.
      unfold_M. rewrite Hreuse, Hqs. by intros [= <- <-].
  - left. revert H. unfold load_qobj_body. unfold_M. rewrite Hreuse.
    by intros [= <- <-].
Qed.

Lemma patched_experiment_kept (g : Globals) (chunk circ_num : nat)
  (circ : QuantumCircuit) (e : Experiment) :
  experiment_kept e (patched_experiment g chunk circ_num circ e).1.
Proof. split; [apply patch_instructions_kept | done]. Qed.

Lemma with_patched_kept (g : Globals) (chunk circ_num : nat) (qs : list Qobj)
  (q : Qobj) (e e' : Experiment) :
  qobjs g = Some qs → qs !! chunk = Some q →
  experiments q !! circ_num = Some e → experiment_kept e e' →
  cache_kept g (with_patched g chunk circ_num qs q e').
Proof.
  intros Hqs Hq He Hkept qs' Hqs'. simplify_eq. eexists. split; [done|].
  eapply qobjs_kept_insert; [done|]. split; [done|].
  by eapply experiments_kept_insert.
Qed.

Lemma load_qobj_body_kept (chunk circ_num : nat) (circ : QuantumCircuit)
  (g g' : Globals) (r : result unit) :
  load_qobj_body chunk circ_num circ g = (r, g') →
  cache_kept g g' ∧ same_config g g'.
Proof.
  intros H. apply load_qobj_body_cases in H
    as (r1 & g1 & Hreuse & [[-> _]|(qs & q & e & -> & Hqs & Hq & He & -> & ->)]).
  - split; [by eapply reuse_first_experiment_kept|].
    by apply reuse_first_experiment_spec in Hreuse as (? & _).
  - split.
    + eapply cache_kept_trans; [by eapply reuse_first_experiment_kept|].
      eapply with_patched_kept; [done..|]. apply patched_experiment_kept.
    + by apply reuse_first_experiment_spec in Hreuse as (? & _).
Qed.

(** The whole call keeps the cached jobs: no chunk, experiment or
    instruction goes away or moves, type tags and operand addresses
    stay, and snapshots stay as they are. *)
Lemma load_qobj_from_cache_kept (circuits : list QuantumCircuit) (chunk : nat)
  (g g' : Globals) (r : result (Qobj * Sharing)) :
  load_qobj_from_cache circuits chunk g = (r, g') →
  cache_kept g g' ∧ same_config g g'.
Proof.
  unfold load_qobj_from_cache.
  unfold mbind at 1, M_bind at 1, bind at 1.
  destruct (try_loading_cache_from_file g) as [r1 g1] eqn:Hload.
  pose proof (try_loading_cache_from_file_kept Hload) as Hk1.
  apply try_loading_cache_from_file_spec in Hload as (Hc1 & _).
  destruct r1 as [[]|]; [|by intros [= <- <-]].
  unfold mbind at 1, M_bind at 1, bind at 1.
  destruct (reuse_first_chunk chunk g1) as [r2 g2] eqn:Hchunk.
  pose proof (reuse_first_chunk_kept Hchunk) as Hk2.
  apply reuse_first_chunk_spec in Hchunk as (Hc2 & _).
  assert (cache_kept g g2 ∧ same_config g g2) as H2.
  { split; [by eapply cache_kept_trans|].
    unfold same_config in *. destruct_and!. split_and!; congruence. }
  destruct r2 as [[]|]; [|by intros [= <- <-]].
  unfold mbind at 1, M_bind at 1, bind at 1.
  destruct (for_enumerate (load_qobj_body chunk) 0 circuits g2)
    as [r3 g3] eqn:Hloop.
  assert (cache_kept g g3 ∧ same_config g g3) as H3.
  { eapply (for_enumerate_preserves
              (P := λ x, cache_kept g x ∧ same_config g x));
      [|exact H2|exact Hloop].
    intros j x ga ra gb [Hka Hca] Hbody.
    apply load_qobj_body_kept in Hbody as [Hkb Hcb].
    split; [by eapply cache_kept_trans|].
    unfold same_config in *. destruct_and!. split_and!; congruence. }
  destruct r3 as [[]|]; [|by intros [= <- <-]].
  unfold subscript_qobjs, getitem. unfold_M.
  destruct (qobjs g3) as [qs|]; [|by intros [= <- <-]].
  destruct (qs !! chunk) as [q|]; simpl; [|by intros [= <- <-]].
  destruct (naughty_mode g3); by intros [= <- <-].
Qed.

Lemma reuse_first_chunk_cached (chunk : nat) (g : Globals) (qs : list Qobj) :
  qobjs g = Some qs → chunk < length qs →
  reuse_first_chunk chunk g = (Ok (), g).
Proof.
  intros Hqs Hlen. unfold reuse_first_chunk. unfold_M. rewrite Hqs.
  apply Nat.leb_gt in Hlen. rewrite Hlen. by rewrite andb_false_r.
Qed.

Section Patch_loop.

Variables (circuits : list QuantumCircuit) (chunk : nat).

#[local] Abbreviation patched_below_here := (patched_below circuits chunk).

Lemma load_qobj_body_patched (k : nat) (circ : QuantumCircuit)
  (g g' : Globals) :
  circuits !! k = Some circ → patched_below_here k g →
  load_qobj_body chunk k circ g = (Ok (), g') → patched_below_here (S k) g'.
Proof.
  intros Hk Hinv Hbody.
  apply load_qobj_body_cases in Hbody
    as (r1 & g1 & Hreuse & [[_ ?]|(qs & q & e & -> & Hqs & Hq & He & Hr & ->)]);
    [done|].
  assert (patched_below_here k g1) as Hinv1.
  { apply reuse_first_experiment_spec in Hreuse
      as (_ & _ & _ & [->|(Hc0 & _ & qs0 & q0 & e0 & Hqs0 & Hq0 & Hlen & _ & Hqs1)]);
      [done|].
    intros i c Hi Hc.
    destruct (Hinv _ _ Hi Hc) as (qs' & q' & e' & ? & ? & He' & Hp).
    rewrite Hc0 in *. simplify_eq. eexists _, _, e'. split_and!; [done| |  |done].
    - apply list_lookup_insert_eq. by eapply lookup_lt_Some.
    - simpl. rewrite list_insert_at_ge by done. by apply lookup_app_l_Some. }
  intros i c Hi Hc. destruct (decide (i = k)) as [->|Hne].
  - simplify_eq. eexists _, _, _. split_and!; [done| | |].
    + apply list_lookup_insert_eq. by eapply lookup_lt_Some.
    + simpl. apply list_lookup_insert_eq. by eapply lookup_lt_Some.
    + split; [done|]. simpl. intros j ci' Hj Hsnap.
      unfold patched_experiment in Hr. simpl in Hr.
      destruct (patch_instructions _ _ 0 (instructions e))
        as [patched r] eqn:Hpatch.
      simpl in *. subst r.
      destruct (patch_instructions_ok Hpatch Hj Hsnap)
        as (m & u & ug & ci & _ & _ & Hug & _ & _ & Hn & Hp).
      by exists u, ug.
  - destruct (Hinv1 i c) as (qs' & q' & e' & ? & ? & He' & Hp); [lia|done|].
    simplify_eq. eexists _, _, e'. split_and!; [done| | |done].
    + apply list_lookup_insert_eq. by eapply lookup_lt_Some.
    + simpl. by rewrite list_lookup_insert_ne.
Qed.

Lemma load_qobj_loop_patched (g g' : Globals) :
  for_enumerate (load_qobj_body chunk) 0 circuits g = (Ok (), g') →
  patched_below_here (length circuits) g'.
Proof.
  intros Hloop.
  apply (for_enumerate_ok (Inv := patched_below_here) (i := 0) (l := circuits)
           (g := g) (body := load_qobj_body chunk)); [| |done].
  - intros k x g1 g2 Hk. simpl. by apply load_qobj_body_patched.
  - intros i c Hi. lia.
Qed.

End Patch_loop.

(** A call that returns: the job is made of the first [len(circuits)]
    experiments of the cached chunk as the call leaves them, and these
    hold the patch. *)
Lemma load_qobj_from_cache_ok (circuits : list QuantumCircuit) (chunk : nat)
  (g g' : Globals) (job : Qobj) (s : Sharing) :
  load_qobj_from_cache circuits chunk g = (Ok (job, s), g') →
  ∃ qs' q',
    qobjs g' = Some qs' ∧ qs' !! chunk = Some q'
    ∧ job = with_experiments q' (take (length circuits) (experiments q'))
    ∧ s = (if naughty_mode g then SharedWithCache else DeepCopied)
    ∧ patched_below circuits chunk (length circuits) g'.
Proof.
  intros Hcall.
  destruct (load_qobj_from_cache_kept Hcall) as [_ (_ & _ & _ & Hn & _)].
  revert Hcall. unfold load_qobj_from_cache.
  unfold mbind at 1, M_bind at 1, bind at 1.
  destruct (try_loading_cache_from_file g) as [[[]|] g1]; [|done].
  unfold mbind at 1, M_bind at 1, bind at 1.
  destruct (reuse_first_chunk chunk g1) as [[[]|] g2]; [|done].
  unfold mbind at 1, M_bind at 1, bind at 1.
  destruct (for_enumerate _ 0 circuits g2) as [[[]|] g3] eqn:Hloop; [|done].
  apply load_qobj_loop_patched in Hloop.
  unfold subscript_qobjs, getitem. unfold_M.
  destruct (qobjs g3) as [qs|] eqn:Hqs; [|done].
  destruct (qs !! chunk) as [q|] eqn:Hq; simpl; [|done].
  destruct (naughty_mode g3) eqn:Hn3; intros [= <- <- <-];
    exists qs, q; rewrite <- Hn, Hn3; by split_and!.
Qed.

Section Mismatch.

Variables (circuits : list QuantumCircuit) (chunk j : nat).
Variables (circ : QuantumCircuit) (e : Experiment) (m : Mapping).

#[local] Abbreviation slot_waiting_here := (slot_waiting chunk j e m).

Hypothesis Hcirc : circuits !! j = Some circ.
Hypothesis Hraise :
  ∃ err, (patch_instructions (Ok m) (raw_gates circ) 0 (instructions e)).2
         = Raise err.

Lemma load_qobj_body_waiting (k : nat) (x : QuantumCircuit) (g g' : Globals) :
  circuits !! k = Some x → slot_waiting_here k g →
  load_qobj_body chunk k x g = (Ok (), g') → slot_waiting_here (S k) g'.
Proof.
  intros Hk (Hle & qs & q & Hqs & Hq & He & Hm) Hbody.
  assert (reuse_first_experiment chunk k g = (Ok (), g)) as Hreuse.
  { eapply reuse_first_experiment_cached; [done..|].
    apply lookup_lt_Some in He. lia. }
  destruct (experiments q !! k) as [ek|] eqn:Hek.
  2:{ apply lookup_ge_None in Hek. apply lookup_lt_Some in He. lia. }
  rewrite (load_qobj_body_eq x Hreuse Hqs Hq Hek) in Hbody.
  injection Hbody as Hr <-.
  destruct (decide (k = j)) as [->|Hne].
  - simplify_eq. unfold patched_experiment in Hr. simpl in Hr.
    rewrite Hm in Hr. destruct Hraise as [err Herr]. congruence.
  - split; [lia|]. eexists _, _. split_and!; [done| | |done].
    + apply list_lookup_insert_eq. by eapply lookup_lt_Some.
    + simpl. by rewrite list_lookup_insert_ne.
Qed.

Lemma load_qobj_loop_raises (g : Globals) :
  slot_waiting_here 0 g →
  ∃ err g', for_enumerate (load_qobj_body chunk) 0 circuits g = (Raise err, g').
Proof.
  intros Hwait.
  destruct (for_enumerate (load_qobj_body chunk) 0 circuits g)
    as [[[]|err] g'] eqn:Hloop; [|by exists err, g'].
  apply (for_enumerate_ok (Inv := slot_waiting_here)) in Hloop as [Hle _];
    [| |done].
  - apply lookup_lt_Some in Hcirc. simpl in Hle. lia.
  - intros k x g1 g2 Hk. simpl. by apply load_qobj_body_waiting.
Qed.

End Mismatch.

(** *** What a patch leaves alone *)

Lemma reuse_first_chunk_mappings (chunk : nat) (g g1 : Globals) (r : result unit) :
  reuse_first_chunk chunk g = (r, g1) →
  mappings g1 = mappings g
  ∨ ∃ ms l0, mappings g = Some ms ∧ ms !! 0 = Some l0
             ∧ mappings g1 = Some (list_insert_at chunk l0 ms).
Proof.
  unfold reuse_first_chunk, getitem. unfold_M.
  destruct (qobjs g) as [qs|]; [|intros [= <- <-]; by left].
  destruct (try_reusing_qobjs g && (length qs <=? chunk));
    [|intros [= <- <-]; by left].
  destruct (mappings g) as [ms|] eqn:Hms; simpl; [|intros [= <- <-]; by left].
  destruct (ms !! 0) as [l0|] eqn:Hl0; simpl; [|intros [= <- <-]; by left].
  destruct (qs !! 0); simpl; intros [= <- <-]; right; by exists ms, l0.
Qed.

Lemma load_qobj_body_frame (chunk circ_num : nat) (circ : QuantumCircuit)
  (g g' : Globals) (r : result unit) :
  load_qobj_body chunk circ_num circ g = (r, g') →
  mappings g' = mappings g
  ∧ (chunk ≠ 0 → heap g' = heap g)
  ∧ ∀ qs, qobjs g = Some qs →
      ∃ qs', qobjs g' = Some qs' ∧ length qs' = length qs
             ∧ ∀ i, i ≠ chunk → qs' !! i = qs !! i.
Proof.
  intros H. apply load_qobj_body_cases in H as (r1 & g1 & Hreuse & Hcases).
  apply reuse_first_experiment_spec in Hreuse as (_ & _ & Hms & Hg1).
  assert (mappings g' = mappings g1 ∧ heap g' = heap g1
          ∧ ∀ qs1, qobjs g1 = Some qs1 →
              ∃ qs', qobjs g' = Some qs' ∧ length qs' = length qs1
                     ∧ ∀ i, i ≠ chunk → qs' !! i = qs1 !! i)
    as (Hms' & Hh' & Hqs').
  { destruct Hcases as [[-> _]|(qs1 & q & e & _ & Hqs1 & _ & _ & _ & ->)].
    - split_and!; [done..|]. intros qs1 ?. by exists qs1.
    - split_and!; [done..|]. intros qs1' Hqs1'.
      assert (qs1' = qs1) as -> by congruence.
      eexists. split; [done|].
      split; [by rewrite length_insert|].
      intros i Hi. by rewrite list_lookup_insert_ne. }
  split_and!.
  - congruence.
  - intros Hc. destruct Hg1 as [->|[? _]]; done.
  - intros qs Hqs. destruct Hg1 as [->|(Hc & _ & qs0 & q0 & e0 & Hqs0 & _ & _ & _ & Hqs1)].
    + by apply Hqs'.
    + destruct (Hqs' _ Hqs1) as (qs' & ? & Hlen & Hother).
      assert (qs0 = qs) as -> by congruence.
      exists qs'. split; [done|]. rewrite length_insert in Hlen.
      split; [done|]. intros i Hi. rewrite Hother by done.
      apply list_lookup_insert_ne. lia.
Qed.



(** *** When the patch returns *)

Lemma patch_gate_returns (cache_index gate_num : nat) (ci : Instruction)
  (ug : Gate) :
  (∃ ci', patch_gate cache_index gate_num ci ug = Ok ci')
  ↔ name ci = gate_name ug
    ∧ length (default [] (params ci)) = length (param ug)
    ∧ Forall is_real (param ug).
Proof.
  split.
  - intros [ci' H]. apply patch_gate_ok in H as (_ & _ & ? & ? & ps & Hps & _).
    split_and!; [done..|]. apply float_list_real. by exists ps.
  - intros (Hn & Hl & [ps Hps]%float_list_real). unfold patch_gate.
    apply Nat.eqb_eq in Hl. apply String.eqb_eq in Hn. rewrite Hl, Hn, Hps.
    by eexists.
Qed.

(** The loop over the gates of a slot completes exactly when lines
    174-184 go through for every gate. *)
Lemma patch_instructions_returns (m : Mapping) (raw : list Gate)
  (gate_num : nat) (compiled : list Instruction) :
  (patch_instructions (Ok m) raw gate_num compiled).2 = Ok ()
  ↔ ∀ i ci, compiled !! i = Some ci → gate_matches raw m (gate_num + i) ci.
Proof.
  revert gate_num. induction compiled as [|c compiled IH]; intros gate_num.
  - split; [by intros _ [|?] ?|done].
  - assert ((∀ i ci, (c :: compiled) !! i = Some ci →
               gate_matches raw m (gate_num + i) ci)
            ↔ gate_matches raw m gate_num c
              ∧ ∀ i ci, compiled !! i = Some ci →
                  gate_matches raw m (S gate_num + i) ci) as ->.
    { split.
      - intros H. split.
        + specialize (H 0 c eq_refl). by rewrite Nat.add_0_r in H.
        + intros i ci Hi. specialize (H (S i) ci Hi).
          by rewrite <- Nat.add_succ_comm in H.
      - intros [H0 H] [|i] ci Hi; simpl in Hi.
        + simplify_eq. by rewrite Nat.add_0_r.
        + rewrite <- Nat.add_succ_comm. by apply H. }
    rewrite <- IH. simpl. unfold gate_matches at 1.
    destruct (String.eqb_spec (name c) "snapshot") as [Hsnap|Hsnap].
    + destruct (patch_instructions (Ok m) raw (S gate_num) compiled).
      simpl. split; [by split|by intros [_ ?]].
    + simpl_result. unfold getitem.
      destruct (m !! gate_num) as [u|] eqn:Hu; simpl_result.
      2:{ simpl. split; [done|]. by intros [(? & ? & ? & _) _]. }
      destruct (raw !! u) as [ug|] eqn:Hug; simpl_result.
      2:{ simpl. split; [done|]. intros [(? & ? & ? & ? & _) _]; [done|].
          congruence. }
      destruct (patch_gate u gate_num c ug) as [c'|err] eqn:Hp.
      * destruct (patch_instructions (Ok m) raw (S gate_num) compiled).
        simpl. split; [|by intros [_ ?]].
        intros ->. split; [|done]. intros _. exists u, ug.
        split; [done|]. split; [done|].
        apply (patch_gate_returns u gate_num). by exists c'.
      * simpl. split; [done|].
        intros [(u' & ug' & Hu' & Hug' & Hn & Hl & Hreal) _]; [done|].
        assert (u' = u) as -> by congruence.
        assert (ug' = ug) as -> by congruence.
        destruct (proj2 (patch_gate_returns u gate_num c ug)) as [? ?];
          [done|congruence].
Qed.

(** The loop over the gates of a slot up to the first gate that raises:
    the gates before it are rewritten, and the list is as it was from
    that gate on. *)
Lemma patch_instructions_first_failure (m : Mapping) (raw : list Gate)
  (gate_num : nat) (compiled : list Instruction) (i : nat) (ci : Instruction)
  (u : nat) (ug : Gate) (err : error) :
  (∀ i' ci', i' < i → compiled !! i' = Some ci' →
     gate_matches raw m (gate_num + i') ci') →
  compiled !! i = Some ci → name ci ≠ "snapshot" →
  m !! (gate_num + i) = Some u → raw !! u = Some ug →
  patch_gate u (gate_num + i) ci ug = Raise err →
  ∃ patched,
    patch_instructions (Ok m) raw gate_num compiled = (patched, Raise err)
    ∧ length patched = length compiled
    ∧ (∀ i' ci', i' < i → compiled !! i' = Some ci' →
         ∃ ci'', patched !! i' = Some ci''
                 ∧ patched_gate raw m (gate_num + i') ci' ci'')
    ∧ (∀ i', i ≤ i' → patched !! i' = compiled !! i').
Proof.
  revert gate_num compiled.
  induction i as [|i IH]; intros gate_num compiled Hbefore Hi Hsnap Hu Hug Hp.
  - destruct compiled as [|c compiled]; [done|]. injection Hi as ->.
    rewrite Nat.add_0_r in *. simpl.
    apply String.eqb_neq in Hsnap. rewrite Hsnap. simpl_result.
    unfold getitem. rewrite Hu. simpl_result. rewrite Hug. simpl_result.
    rewrite Hp. eexists. split; [done|]. split; [done|].
    split; [intros; lia|done].
  - destruct compiled as [|c compiled]; [done|]. simpl in Hi.
    replace (gate_num + S i) with (S gate_num + i) in * by lia.
    destruct (IH (S gate_num) compiled) as (rest & Hrest & Hlen & Hdone & Hkeep);
      [|done..|].
    { intros i' ci' Hi' Hci'. replace (S gate_num + i') with (gate_num + S i')
        by lia. apply Hbefore; [lia|done]. }
    pose proof (Hbefore 0 c (Nat.lt_0_succ _) eq_refl) as Hc.
    rewrite Nat.add_0_r in Hc. simpl.
    destruct (String.eqb_spec (name c) "snapshot") as [Hs|Hs].
    + rewrite Hrest. eexists. split; [done|]. split; [by simpl; rewrite Hlen|].
      split.
      * intros [|i'] ci' Hi' Hci'; simpl in Hci'.
        -- injection Hci' as <-. exists c. split; [done|].
           unfold patched_gate. by rewrite (proj2 (String.eqb_eq _ _) Hs).
        -- replace (gate_num + S i') with (S gate_num + i') by lia.
           apply Hdone; [lia|done].
      * intros [|i'] Hi'; [lia|]. simpl. apply Hkeep. lia.
    + destruct (Hc Hs) as (u0 & ug0 & Hu0 & Hug0 & Hn0 & Hl0 & Hr0).
      simpl_result. unfold getitem. rewrite Hu0. simpl_result.
      rewrite Hug0. simpl_result.
      destruct (proj2 (patch_gate_returns u0 gate_num c ug0)) as [c' Hc'];
        [done|].
      rewrite Hc', Hrest.
      eexists. split; [done|]. split; [by simpl; rewrite Hlen|].
      split.
      * intros [|i'] ci' Hi' Hci'; simpl in Hci'.
        -- injection Hci' as <-. exists c'. split; [done|].
           unfold patched_gate. rewrite Nat.add_0_r.
           rewrite (proj2 (String.eqb_neq _ _) Hs).
           apply patch_gate_ok in Hc' as (Hn' & Hq' & _ & _ & ps & Hps & Hp').
           exists u0, ug0, ps. split_and!; [done..|].
           destruct c' as [n' q' p']. simpl in *. by subst.
        -- replace (gate_num + S i') with (S gate_num + i') by lia.
           apply Hdone; [lia|done].
      * intros [|i'] Hi'; [lia|]. simpl. apply Hkeep. lia.
Qed.

Lemma patched_experiment_ext (g x : Globals) (chunk circ_num : nat)
  (circ : QuantumCircuit) (e : Experiment) :
  mappings x = mappings g → heap x = heap g →
  patched_experiment x chunk circ_num circ e
  = patched_experiment g chunk circ_num circ e.
Proof.
  intros Hm Hh. unfold patched_experiment, mapping_at. by rewrite Hm, Hh.
Qed.

Section Patch_returns.

Variables (circuits : list QuantumCircuit) (chunk : nat).
Variables (g : Globals) (q : Qobj).

#[local] Abbreviation patching_here := (patching circuits chunk g q).

(** One run of the body on a slot that is cached. *)
Lemma load_qobj_body_patching (k : nat) (circ : QuantumCircuit)
  (e : Experiment) (x : Globals) :
  circuits !! k = Some circ → experiments q !! k = Some e →
  patching_here k x →
  ∃ x', load_qobj_body chunk k circ x
        = ((patched_experiment g chunk k circ e).2, x')
        ∧ patching_here (S k) x'.
Proof.
  intros Hk He (Hm & Hh & qs' & q' & Hqs' & Hq' & Hid & Hlen & Hrest & Hdone).
  assert (experiments q' !! k = Some e) as He' by by rewrite Hrest.
  assert (reuse_first_experiment chunk k x = (Ok (), x)) as Hreuse.
  { eapply reuse_first_experiment_cached; [done..|].
    by eapply lookup_lt_Some. }
  rewrite (load_qobj_body_eq circ Hreuse Hqs' Hq' He').
  rewrite (patched_experiment_ext chunk k circ e Hm Hh).
  eexists. split; [done|].
  split_and!; [done..|].
  eexists _, _. split_and!.
  - done.
  - apply list_lookup_insert_eq. by eapply lookup_lt_Some.
  - done.
  - simpl. by rewrite length_insert.
  - intros i Hi. simpl. rewrite list_lookup_insert_ne by lia.
    apply Hrest. lia.
  - intros i c ei Hi Hc Hei. simpl.
    destruct (decide (i = k)) as [->|Hne].
    + simplify_eq. apply list_lookup_insert_eq. by eapply lookup_lt_Some.
    + rewrite list_lookup_insert_ne by done. apply Hdone; [lia|done..].
Qed.

(** The loop from slot [k] over the circuits from [k] on. *)
Lemma load_qobj_loop_patching (l : list QuantumCircuit) (k : nat) (x : Globals) :
  (∀ j, l !! j = circuits !! (k + j)) →
  k + length l ≤ length (experiments q) →
  patching_here k x →
  ∃ r x', for_enumerate (load_qobj_body chunk) k l x = (r, x')
          ∧ (r = Ok () → patching_here (k + length l) x')
          ∧ (r = Ok ()
             ↔ ∀ j circ e, l !! j = Some circ →
                 experiments q !! (k + j) = Some e →
                 (patched_experiment g chunk (k + j) circ e).2 = Ok ()).
Proof.
  revert k x. induction l as [|circ l IH]; intros k x Hl Hlen Hinv.
  - exists (Ok ()), x. split; [done|]. rewrite Nat.add_0_r.
    split; [done|]. split; [by intros _ ? ? ? ?|done].
  - simpl in Hlen.
    assert (circuits !! k = Some circ) as Hk.
    { specialize (Hl 0). rewrite Nat.add_0_r in Hl. by rewrite <- Hl. }
    destruct (lookup_lt_is_Some_2 (experiments q) k) as [e He]; [lia|].
    destruct (load_qobj_body_patching Hk He Hinv) as (x1 & Hbody & Hinv1).
    rewrite for_enumerate_cons, Hbody.
    destruct (patched_experiment g chunk k circ e).2 as [[]|err] eqn:Hr.
    + destruct (IH (S k) x1) as (r & x' & Hloop & Hok & Hiff).
      { intros j. specialize (Hl (S j)). simpl in Hl. rewrite Hl.
        f_equal. lia. }
      { lia. }
      { done. }
      exists r, x'. split; [done|].
      replace (k + length (circ :: l)) with (S k + length l) by (simpl; lia).
      split; [done|].
      rewrite Hiff. split.
      * intros H [|j] c ej Hc Hej.
        -- rewrite Nat.add_0_r in *. simpl in Hc. by simplify_eq.
        -- replace (k + S j) with (S k + j) in * by lia. by eapply H.
      * intros H j c ej Hc Hej.
        replace (S k + j) with (k + S j) in * by lia.
        by apply (H (S j)).
    + exists (Raise err), x1. split; [done|]. split; [done|].
      split; [done|]. intros H.
      specialize (H 0 circ e eq_refl). rewrite Nat.add_0_r in H.
      specialize (H He). congruence.
Qed.

(** The loop up to its first slot on which the loop over the gates
    raises: that slot, as far as it got, and the slots before it hold
    their patch. *)
Lemma load_qobj_loop_first_failure (l : list QuantumCircuit) (k j : nat)
  (x : Globals) (circ : QuantumCircuit) (e : Experiment) (err : error) :
  (∀ j', l !! j' = circuits !! (k + j')) →
  patching_here k x →
  (∀ j' c' e', j' < j → l !! j' = Some c' →
     experiments q !! (k + j') = Some e' →
     (patched_experiment g chunk (k + j') c' e').2 = Ok ()) →
  l !! j = Some circ → experiments q !! (k + j) = Some e →
  (patched_experiment g chunk (k + j) circ e).2 = Raise err →
  ∃ x', for_enumerate (load_qobj_body chunk) k l x = (Raise err, x')
        ∧ patching_here (S (k + j)) x'.
Proof.
  revert l k x.
  induction j as [|j IH]; intros l k x Hl Hinv Hbefore Hj He Hr.
  - destruct l as [|c l]; [done|]. injection Hj as ->.
    rewrite Nat.add_0_r in *.
    assert (circuits !! k = Some circ) as Hk.
    { specialize (Hl 0). rewrite Nat.add_0_r in Hl. by rewrite <- Hl. }
    destruct (load_qobj_body_patching Hk He Hinv) as (x1 & Hbody & Hinv1).
    exists x1. by rewrite for_enumerate_cons, Hbody, Hr.
  - destruct l as [|c l]; [done|]. simpl in Hj.
    assert (circuits !! k = Some c) as Hk.
    { specialize (Hl 0). rewrite Nat.add_0_r in Hl. by rewrite <- Hl. }
    destruct (lookup_lt_is_Some_2 (experiments q) k) as [e0 He0].
    { apply lookup_lt_Some in He. lia. }
    destruct (load_qobj_body_patching Hk He0 Hinv) as (x1 & Hbody & Hinv1).
    rewrite for_enumerate_cons, Hbody.
    pose proof (Hbefore 0 c e0 (Nat.lt_0_succ _) eq_refl) as H0.
    rewrite Nat.add_0_r in H0. rewrite (H0 He0).
    replace (k + S j) with (S k + j) in * by lia.
    apply IH; [|done| |done..].
    + intros j'. specialize (Hl (S j')). simpl in Hl. rewrite Hl.
      f_equal. lia.
    + intros j' c' e' Hj' Hc' He'.
      replace (S k + j') with (k + S j') in * by lia.
      apply (Hbefore (S j')); [lia|done..].
Qed.

End Patch_returns.

(** The patch of a batch whose chunk and slots are cached: it returns
    exactly when the loop over the gates completes on every slot, and
    the job holds the patched slots. *)
Lemma load_qobj_from_cache_cached (circuits : list QuantumCircuit)
  (chunk : nat) (g : Globals) (qs : list Qobj) (q : Qobj) :
  qobjs g = Some qs → qs !! chunk = Some q →
  length circuits ≤ length (experiments q) →
  ((∃ job s g', load_qobj_from_cache circuits chunk g = (Ok (job, s), g'))
   ↔ ∀ k circ e, circuits !! k = Some circ → experiments q !! k = Some e →
       (patched_experiment g chunk k circ e).2 = Ok ())
  ∧ ∀ job s g', load_qobj_from_cache circuits chunk g = (Ok (job, s), g') →
      patching circuits chunk g q (length circuits) g'
      ∧ qobj_id job = qobj_id q
      ∧ length (experiments job) = length circuits
      ∧ s = (if naughty_mode g then SharedWithCache else DeepCopied)
      ∧ ∀ k circ e, circuits !! k = Some circ →
          experiments q !! k = Some e →
          experiments job !! k = Some (patched_experiment g chunk k circ e).1.
Proof.
  intros Hqs Hq Hlen.
  assert (patching circuits chunk g q 0 g) as Hinv.
  { split_and!; [done..|]. exists qs, q. split_and!; [done..|].
    intros i c e Hi. lia. }
  destruct (load_qobj_loop_patching (l := circuits) (k := 0) (x := g)
              (circuits := circuits) (chunk := chunk) (g := g) (q := q))
    as (r & x' & Hloop & Hok & Hiff); [done|simpl; lia|done|].
  simpl in Hok, Hiff.
  assert (load_qobj_from_cache circuits chunk g
          = match r with
            | Ok _ =>
                match qobjs x' with
                | Some qs' =>
                    match qs' !! chunk with
                    | Some q' =>
                        (Ok (with_experiments q'
                               (take (length circuits) (experiments q')),
                             if naughty_mode x' then SharedWithCache
                             else DeepCopied), x')
                    | None => (Raise IndexError, x')
                    end
                | None => (Raise TypeError, x')
                end
            | Raise err => (Raise err, x')
            end) as Hcall.
  { unfold load_qobj_from_cache.
    unfold mbind at 1, M_bind at 1, bind at 1.
    rewrite (try_loading_cache_from_file_cached Hqs).
    unfold mbind at 1, M_bind at 1, bind at 1.
    rewrite (reuse_first_chunk_cached Hqs) by by eapply lookup_lt_Some.
    unfold mbind at 1, M_bind at 1, bind at 1. rewrite Hloop.
    destruct r as [[]|]; [|done].
    unfold subscript_qobjs, getitem. unfold_M.
    destruct (qobjs x') as [qs'|]; [|done].
    destruct (qs' !! chunk); simpl; [|done].
    by destruct (naughty_mode x'). }
  split.
  - rewrite Hcall. split.
    + intros (job & s & g' & H). destruct r as [[]|]; [|done].
      by apply Hiff.
    + intros H. assert (r = Ok ()) as -> by by apply Hiff.
      destruct (Hok eq_refl) as (_ & _ & qs' & q' & -> & -> & _).
      by eexists _, _, _.
  - intros job s g' H.
    destruct (load_qobj_from_cache_kept H) as [_ (_ & _ & _ & Hn & _)].
    rewrite Hcall in H. destruct r as [[]|]; [|done].
    pose proof (Hok eq_refl) as Hend.
    destruct Hend
      as (_ & _ & qs' & q' & Hqs' & Hq' & Hid & Hlen' & _ & Hdone).
    rewrite Hqs', Hq' in H. injection H as <- <- <-. simpl.
    split_and!.
    + by apply Hok.
    + done.
    + rewrite length_take. lia.
    + by rewrite Hn.
    + intros k circ e Hk He. pose proof (lookup_lt_Some _ _ _ Hk).
      rewrite lookup_take_lt by done. by apply Hdone.
Qed.

(** *** A batch longer than chunk 0 *)

Lemma patched_experiment_with (x : Globals) (chunk circ_num : nat)
  (circ : QuantumCircuit) (e : Experiment) (m : Mapping) :
  mapping_at x chunk circ_num = Ok m →
  patched_experiment x chunk circ_num circ e = patch_with m circ e.
Proof. intros H. unfold patched_experiment, patch_with. by rewrite H. Qed.

(** Lines 162-164 when they fire, on the lists they extend. *)
Lemma reuse_first_experiment_fires (circ_num : nat) (x : Globals)
  (qs : list Qobj) (q : Qobj) (e0 : Experiment) (ms : list loc) (l0 : loc)
  (slots : list Mapping) (m0 : Mapping) :
  try_reusing_qobjs x = true → 0 < circ_num →
  qobjs x = Some qs → qs !! 0 = Some q →
  length (experiments q) ≤ circ_num → experiments q !! 0 = Some e0 →
  mappings x = Some ms → ms !! 0 = Some l0 →
  heap x !! l0 = Some slots → slots !! 0 = Some m0 →
  reuse_first_experiment 0 circ_num x
  = (Ok (),
     set_heap (<[l0 := list_insert_at circ_num m0 slots]> (heap x))
       (set_qobjs
          (Some (<[0 := with_experiments q
                          (list_insert_at circ_num e0 (experiments q))]> qs))
          x)).
Proof.
  intros Hre Hpos Hqs Hq Hlen He0 Hms Hl0 Hslots Hm0.
  apply Nat.ltb_lt in Hpos. apply Nat.leb_le in Hlen.
  unfold reuse_first_experiment, subscript_qobjs, subscript_mappings, deref,
    store, getitem. unfold_M.
  rewrite Hre, Hpos. cbn [andb Nat.eqb]. rewrite Hqs. cbn [andb].
  rewrite Hq. cbn [andb]. rewrite Hlen. cbn [andb].
  rewrite He0. cbn [andb mappings heap set_qobjs]. rewrite Hms.
  cbn [andb mappings heap set_qobjs]. rewrite Hl0.
  cbn [andb mappings heap set_qobjs]. rewrite Hslots.
  cbn [andb mappings heap set_qobjs]. rewrite Hm0. reflexivity.
Qed.

Section Extending.

Variables (circuits : list QuantumCircuit) (g : Globals).
Variables (ms : list loc) (l0 : loc) (slots : list Mapping) (q0 : Qobj).
Variables (e0 : Experiment) (m0 : Mapping) (c0 : QuantumCircuit).

Hypothesis Hl0 : ms !! 0 = Some l0.
Hypothesis Hslots : heap g !! l0 = Some slots.
Hypothesis Hlens : length slots = length (experiments q0).
Hypothesis He0 : experiments q0 !! 0 = Some e0.
Hypothesis Hm0 : slots !! 0 = Some m0.
Hypothesis Hc0 : circuits !! 0 = Some c0.

#[local] Abbreviation e0' := (patch_with m0 c0 e0).1.
#[local] Abbreviation extending_here :=
  (extending circuits g ms l0 slots q0 m0 e0').

Lemma slot_mapping_at (k : nat) (x : Globals) (slots' : list Mapping) (m : Mapping) :
  mappings x = Some ms → heap x = <[l0 := slots']> (heap g) →
  slots' !! k = Some m → mapping_at x 0 k = Ok m.
Proof.
  intros Hms Hh Hm. unfold mapping_at, getitem. rewrite Hms, Hl0. simpl_result.
  rewrite Hh, list_lookup_insert_eq by by eapply lookup_lt_Some.
  simpl_result. by rewrite Hm.
Qed.

(** One run of the body of the loop on chunk 0. *)
Lemma load_qobj_body_extending (k : nat) (circ : QuantumCircuit) (x : Globals) :
  circuits !! k = Some circ → extending_here k x →
  ∃ e m x',
    slot_template q0 e0' k = Some e ∧ slot_mapping slots m0 k = Some m
    ∧ load_qobj_body 0 k circ x = ((patch_with m circ e).2, x')
    ∧ extending_here (S k) x'.
Proof.
  intros Hk (Hre & Hms & Hh & qs' & q' & Hqs' & Hq' & Hid & Hlen & Hrest & Hdone).
  pose proof (lookup_lt_Some _ _ _ He0) as Hpos.
  pose proof (lookup_lt_Some _ _ _ Hslots) as Hl0lt.
  unfold slot_template, slot_mapping. rewrite Hlens.
  destruct (Nat.ltb_spec k (length (experiments q0))) as [Hlt|Hge].
  - (* the slot is cached *)
    destruct (lookup_lt_is_Some_2 (experiments q0) k) as [e He]; [done|].
    destruct (lookup_lt_is_Some_2 slots k) as [m Hm]; [lia|].
    assert (experiments q' !! k = Some e) as He' by by rewrite Hrest.
    assert (reuse_first_experiment 0 k x = (Ok (), x)) as Hreuse.
    { eapply reuse_first_experiment_cached; [done..|]. lia. }
    exists e, m. eexists. split; [done|]. split; [done|].
    rewrite (load_qobj_body_eq circ Hreuse Hqs' Hq' He').
    rewrite (patched_experiment_with circ e (m := m)).
    2:{ eapply slot_mapping_at; [done..|]. by apply lookup_app_l_Some. }
    split; [done|].
    split_and!; [done|done|..].
    + simpl. rewrite Hh. do 2 f_equal. f_equal. lia.
    + eexists _, _. split_and!.
      * done.
      * apply list_lookup_insert_eq. by eapply lookup_lt_Some.
      * done.
      * simpl. rewrite length_insert. lia.
      * intros i Hi. simpl. rewrite list_lookup_insert_ne by lia.
        apply Hrest. lia.
      * intros i c ei mi Hi Hc Hei Hmi. simpl.
        destruct (decide (i = k)) as [->|Hne].
        -- unfold slot_template, slot_mapping in Hei, Hmi.
           rewrite Hlens in Hmi.
           rewrite (proj2 (Nat.ltb_lt _ _) Hlt) in Hei, Hmi.
           assert (c = circ) as -> by congruence.
           assert (ei = e) as -> by congruence.
           assert (mi = m) as -> by congruence.
           apply list_lookup_insert_eq. by eapply lookup_lt_Some.
        -- rewrite list_lookup_insert_ne by done.
           apply (Hdone i c ei mi); [lia|done..].
  - (* past the cached slots: slot 0 is copied *)
    assert (0 < k) as Hk0 by lia.
    assert (length (experiments q') = k) as Hlen' by lia.
    assert (experiments q' !! 0 = Some e0') as He0'.
    { apply (Hdone 0 c0 e0 m0); [done|done|..].
      - unfold slot_template. by rewrite (proj2 (Nat.ltb_lt _ _) Hpos).
      - unfold slot_mapping. rewrite Hlens.
        by rewrite (proj2 (Nat.ltb_lt _ _) Hpos). }
    set (slots_k := slots ++ replicate (k - length slots) m0) in *.
    assert (length slots_k = k) as Hlenk.
    { subst slots_k. rewrite length_app, length_replicate. lia. }
    assert (heap x !! l0 = Some slots_k) as Hslots_k
      by by rewrite Hh, list_lookup_insert_eq.
    assert (slots_k !! 0 = Some m0) as Hm0k by by apply lookup_app_l_Some.
    pose proof (reuse_first_experiment_fires Hre Hk0 Hqs' Hq'
                  (eq_ind_r (λ n, n ≤ k) (le_n k) Hlen') He0' Hms Hl0
                  Hslots_k Hm0k) as Hreuse.
    rewrite !list_insert_at_ge in Hreuse by lia.
    set (q1 := with_experiments q' (experiments q' ++ [e0'])) in *.
    set (x1 := set_heap _ _) in Hreuse.
    assert (qobjs x1 = Some (<[0 := q1]> qs')) as Hqs1 by done.
    assert (<[0 := q1]> qs' !! 0 = Some q1) as Hq1.
    { apply list_lookup_insert_eq. by eapply lookup_lt_Some. }
    assert (experiments q1 !! k = Some e0') as Hek.
    { simpl. rewrite lookup_app_r by lia.
      by rewrite Hlen', Nat.sub_diag. }
    assert (heap x1
            = <[l0 := slots ++ replicate (S k - length slots) m0]> (heap g))
      as Hh1.
    { subst x1. simpl. rewrite Hh, list_insert_insert_eq. f_equal.
      subst slots_k. rewrite <- app_assoc. f_equal.
      replace (S k - length slots) with (S (k - length slots)) by lia.
      by rewrite replicate_S_end. }
    exists e0', m0. eexists. split; [done|]. split; [done|].
    rewrite (load_qobj_body_eq circ Hreuse Hqs1 Hq1 Hek).
    rewrite (patched_experiment_with circ e0' (m := m0)).
    2:{ eapply slot_mapping_at; [done|exact Hh1|].
        rewrite lookup_app_r by lia.
        apply lookup_replicate_2. lia. }
    split; [done|].
    split_and!; [done|done|exact Hh1|].
    eexists _, _. split_and!.
    + done.
    + apply list_lookup_insert_eq. rewrite length_insert.
      by eapply lookup_lt_Some.
    + done.
    + simpl. rewrite length_insert, length_app. simpl. lia.
    + intros i Hi. simpl.
      rewrite (lookup_ge_None_2 (experiments q0)) by lia.
      apply lookup_ge_None_2.
      rewrite length_insert, length_app. simpl. lia.
    + intros i c ei mi Hi Hc Hei Hmi. simpl.
      destruct (decide (i = k)) as [->|Hne].
      * unfold slot_template, slot_mapping in Hei, Hmi.
        rewrite Hlens in Hmi.
        rewrite (proj2 (Nat.ltb_ge _ _) Hge) in Hei, Hmi.
        assert (c = circ) as -> by congruence.
        assert (ei = e0') as -> by congruence.
        assert (mi = m0) as -> by congruence.
        apply list_lookup_insert_eq. rewrite length_app. simpl. lia.
      * rewrite list_lookup_insert_ne by done.
        rewrite lookup_app_l by lia.
        apply (Hdone i c ei mi); [lia|done..].
Qed.

Lemma load_qobj_loop_extending (l : list QuantumCircuit) (k : nat) (x : Globals) :
  (∀ j, l !! j = circuits !! (k + j)) → extending_here k x →
  ∃ r x', for_enumerate (load_qobj_body 0) k l x = (r, x')
          ∧ (r = Ok () → extending_here (k + length l) x')
          ∧ (r = Ok ()
             ↔ ∀ j circ e m, l !! j = Some circ →
                 slot_template q0 e0' (k + j) = Some e →
                 slot_mapping slots m0 (k + j) = Some m →
                 (patch_with m circ e).2 = Ok ()).
Proof.
  revert k x. induction l as [|circ l IH]; intros k x Hl Hinv.
  - exists (Ok ()), x. split; [done|]. rewrite Nat.add_0_r.
    split; [done|]. split; [by intros _ ? ? ? ? ?|done].
  - assert (circuits !! k = Some circ) as Hk.
    { specialize (Hl 0). rewrite Nat.add_0_r in Hl. by rewrite <- Hl. }
    destruct (load_qobj_body_extending Hk Hinv)
      as (e & m & x1 & He & Hm & Hbody & Hinv1).
    rewrite for_enumerate_cons, Hbody.
    destruct (patch_with m circ e).2 as [[]|err] eqn:Hr.
    + destruct (IH (S k) x1) as (r & x' & Hloop & Hok & Hiff).
      { intros j. specialize (Hl (S j)). simpl in Hl. rewrite Hl.
        f_equal. lia. }
      { done. }
      exists r, x'. split; [done|].
      replace (k + length (circ :: l)) with (S k + length l) by (simpl; lia).
      split; [done|].
      rewrite Hiff. split.
      * intros H [|j] c ej mj Hc Hej Hmj.
        -- rewrite Nat.add_0_r in *. simpl in Hc.
           assert (c = circ) as -> by congruence.
           assert (ej = e) as -> by congruence.
           assert (mj = m) as -> by congruence. done.
        -- replace (k + S j) with (S k + j) in * by lia. by eapply H.
      * intros H j c ej mj Hc Hej Hmj.
        replace (S k + j) with (k + S j) in * by lia.
        by apply (H (S j)).
    + exists (Raise err), x1. split; [done|]. split; [done|].
      split; [done|]. intros H.
      specialize (H 0 circ e m eq_refl). rewrite Nat.add_0_r in H.
      specialize (H He Hm). congruence.
Qed.


End Extending.


(** ** The claims about [load_qobj_from_cache] *)

(** C10.  A compiled instruction named 'snapshot' is the same
    instruction, at the same place of the cache, after every call of
    the patch operation, in either mode and whether the call returns or
    raises; and the job a call returns holds it unchanged too. *)
Theorem C10_snapshots_are_not_rewritten
  (circuits : list QuantumCircuit) (chunk : nat) (g g' : Globals)
  (r : result (Qobj * Sharing)) (qs : list Qobj) (c : nat) (q : Qobj)
  (k : nat) (e : Experiment) (i : nat) (ci : Instruction) :
  load_qobj_from_cache circuits chunk g = (r, g') →
  qobjs g = Some qs → qs !! c = Some q → experiments q !! k = Some e →
  instructions e !! i = Some ci → name ci = "snapshot" →
  (∃ qs' q' e',
     qobjs g' = Some qs' ∧ qs' !! c = Some q' ∧ experiments q' !! k = Some e'
     ∧ instructions e' !! i = Some ci)
  ∧ ∀ job s, r = Ok (job, s) → c = chunk → k < length circuits →
      ∃ e', experiments job !! k = Some e' ∧ instructions e' !! i = Some ci.
Proof.
  intros Hcall Hqs Hq He Hi Hsnap.
  destruct (load_qobj_from_cache_kept Hcall) as [Hkept _].
  destruct (Hkept _ Hqs) as (qs' & Hqs' & Hk).
  destruct (Hk _ _ Hq) as (q' & Hq' & _ & Hke).
  destruct (Hke _ _ He) as (e' & He' & Hki & _).
  destruct (Forall2_lookup_l _ _ _ _ _ Hki Hi) as (ci' & Hi' & _ & _ & Hci').
  rewrite (Hci' Hsnap) in Hi'. split.
  - by exists qs', q', e'.
  - intros job s -> -> Hlen.
    destruct (load_qobj_from_cache_ok Hcall) as (qs2 & q2 & ? & ? & -> & _).
    simplify_eq. exists e'. split; [|done]. simpl.
    by rewrite lookup_take_lt.
Qed.

Lemma C10_snapshots_are_not_rewritten_witness :
  let run := load_qobj_from_cache [Cached.program_snapshot] 0 Cached.snapshot in
  ∃ qs' q' e',
    qobjs run.2 = Some qs' ∧ qs' !! 0 = Some q' ∧ experiments q' !! 0 = Some e'
    ∧ instructions e' !! 1 = Some Cached.iSnapshot.
Proof.
  intros run. eapply proj1.
  eapply (C10_snapshots_are_not_rewritten
            (circuits := [Cached.program_snapshot]) (chunk := 0)
            (g := Cached.snapshot) (g' := run.2) (r := run.1)
            (c := 0) (k := 0) (i := 1) (ci := Cached.iSnapshot));
    reflexivity.
Defined.

(** C1 (as amended).  In safe mode a patch that returns has rewritten
    the cached template in place: the cached sub-jobs of the batch carry
    the circuits' names and parameters, and the returned job holds deep
    copies, made after the patch, of exactly these cached sub-jobs.
    What the call keeps of the cached template is its shape: every
    chunk, sub-job and instruction stays at its place with its type tag
    and operand addresses, and snapshots are unchanged. *)
Theorem C1_safe_mode_patches_the_cached_template
  (circuits : list QuantumCircuit) (chunk : nat) (g g' : Globals)
  (job : Qobj) (s : Sharing) :
  naughty_mode g = false →
  load_qobj_from_cache circuits chunk g = (Ok (job, s), g') →
  s = DeepCopied
  ∧ cache_kept g g'
  ∧ ∃ qs' q',
      qobjs g' = Some qs' ∧ qs' !! chunk = Some q'
      ∧ experiments job = take (length circuits) (experiments q')
      ∧ ∀ k circ, circuits !! k = Some circ →
          ∃ e', experiments q' !! k = Some e'
                ∧ experiments job !! k = Some e'
                ∧ slot_patched circ e'.
Proof.
  intros Hsafe Hcall.
  destruct (load_qobj_from_cache_kept Hcall) as [Hkept _].
  destruct (load_qobj_from_cache_ok Hcall)
    as (qs' & q' & Hqs' & Hq' & -> & -> & Hpatched).
  rewrite Hsafe. split_and!; [done..|].
  exists qs', q'. split_and!; [done..|].
  intros k circ Hk. pose proof (lookup_lt_Some _ _ _ Hk) as Hlt.
  destruct (Hpatched _ _ Hlt Hk) as (qs2 & q2 & e' & ? & ? & He' & Hp).
  simplify_eq. exists e'. split_and!; [done| |done].
  simpl. by rewrite lookup_take_lt.
Qed.

Lemma C1_safe_mode_patches_the_cached_template_witness :
  let run := load_qobj_from_cache [Scenario.program1] 0 Cached.scenario1 in
  ∃ job, run.1 = Ok (job, DeepCopied) ∧ cache_kept Cached.scenario1 run.2.
Proof.
  intros run.
  edestruct (C1_safe_mode_patches_the_cached_template
               (circuits := [Scenario.program1]) (chunk := 0)
               (g := Cached.scenario1) (g' := run.2))
    as (Hs & Hkept & _); [reflexivity..|].
  eexists. split; [reflexivity|exact Hkept].
Defined.

(** The claim as stated fails on Scenario 1 patched in safe mode: the
    call returns and the cached template holds the new circuit name and
    the new parameter. *)
Lemma C1_counterexample :
  let run := load_qobj_from_cache [Scenario.program1] 0 Cached.scenario1 in
  naughty_mode Cached.scenario1 = false
  ∧ (∃ job, run.1 = Ok (job, DeepCopied))
  ∧ cached_params Cached.scenario1 0 0 0 = Some [0%float]
  ∧ cached_params run.2 0 0 0 = Some [0.5%float]
  ∧ qobjs run.2 ≠ qobjs Cached.scenario1.
Proof.
  split_and!; [reflexivity|by eexists|reflexivity..|].
  intros H.
  assert (header_name ∘ header <$> cached_experiment
            (load_qobj_from_cache [Scenario.program1] 0 Cached.scenario1).2 0 0
          = header_name ∘ header <$> cached_experiment Cached.scenario1 0 0)
    as Hname by (unfold cached_experiment; by rewrite H).
  vm_compute in Hname. discriminate Hname.
Qed.

(** C8 (as amended).  Whenever a cached compiled instruction that is
    not a snapshot has a parameter count different from that of the
    source operation its mapping gives, the gate raises (AquaError, or
    AttributeError when the instruction has no [params]) and the call
    of the patch operation raises: no job is returned.  When it is the
    first gate of the call that does not go through, the call raises
    the error of that gate and the rewrites made before it stay in the
    cached template, in safe mode too: the slots before carry the
    parameters of their circuits, the slot of the gate carries the name
    of its circuit and, in the gates before the failing one, the new
    parameters; the rest of the chunk, the mappings and their lists are
    as before. *)
Theorem C8_arity_mismatch_aborts_the_patch
  (circuits : list QuantumCircuit) (chunk : nat) (g : Globals)
  (qs : list Qobj) (q : Qobj) (ms : list loc) (l : loc)
  (slots : list Mapping) (j : nat) (circ : QuantumCircuit) (e : Experiment)
  (m : Mapping) (i : nat) (ci : Instruction) (u : nat) (ug : Gate) :
  qobjs g = Some qs → qs !! chunk = Some q → experiments q !! j = Some e →
  mappings g = Some ms → ms !! chunk = Some l → heap g !! l = Some slots →
  slots !! j = Some m →
  circuits !! j = Some circ →
  instructions e !! i = Some ci → name ci ≠ "snapshot" →
  m !! i = Some u → raw_gates circ !! u = Some ug →
  length (default [] (params ci)) ≠ length (param ug) →
  ∃ err,
    patch_gate u i ci ug = Raise err
    ∧ (err = AttributeError "params"
       ∨ ∃ ps, params ci = Some ps
               ∧ err = AquaError (gate_mismatch_msg u ug i (name ci) ps))
    ∧ (∃ err' g', load_qobj_from_cache circuits chunk g = (Raise err', g'))
    ∧ ((∀ k ck ek mk, k < j → circuits !! k = Some ck →
          experiments q !! k = Some ek → slots !! k = Some mk →
          slot_matches ck ek mk) →
       (∀ i' ci', i' < i → instructions e !! i' = Some ci' →
          gate_matches (raw_gates circ) m i' ci') →
       ∃ g' qs' q' e',
         load_qobj_from_cache circuits chunk g = (Raise err, g')
         ∧ mappings g' = mappings g ∧ heap g' = heap g
         ∧ qobjs g' = Some qs' ∧ qs' !! chunk = Some q'
         ∧ length (experiments q') = length (experiments q)
         ∧ (∀ k ck ek, k < j → circuits !! k = Some ck →
              experiments q !! k = Some ek →
              ∃ ek', experiments q' !! k = Some ek' ∧ slot_patched ck ek')
         ∧ experiments q' !! j = Some e'
         ∧ header_name (header e') = circ_name circ
         ∧ length (instructions e') = length (instructions e)
         ∧ (∀ i' ci', i' < i → instructions e !! i' = Some ci' →
              ∃ ci'', instructions e' !! i' = Some ci''
                      ∧ patched_gate (raw_gates circ) m i' ci' ci'')
         ∧ (∀ i', i ≤ i' → instructions e' !! i' = instructions e !! i')
         ∧ (∀ k, j < k → experiments q' !! k = experiments q !! k)).
Proof.
  intros Hqs Hq He Hms Hl Hslots Hm Hcirc Hi Hsnap Hu Hug Hlen.
  assert (∃ err, patch_gate u i ci ug = Raise err
                 ∧ (err = AttributeError "params"
                    ∨ ∃ ps, params ci = Some ps
                            ∧ err = AquaError
                                      (gate_mismatch_msg u ug i (name ci) ps)))
    as (err & Hgate & Herr).
  { pose proof (patch_gate_mismatch u i Hlen) as Hp.
    destruct (params ci) as [ps|] eqn:Hps; eexists; (split; [exact Hp|]).
    - right. by exists ps.
    - by left. }
  assert (∀ k mk, slots !! k = Some mk → mapping_at g chunk k = Ok mk)
    as Hmap.
  { intros k mk Hmk. unfold mapping_at, getitem. rewrite Hms. simpl_result.
    rewrite Hl. simpl_result. rewrite Hslots. simpl_result. by rewrite Hmk. }
  assert (load_qobj_from_cache circuits chunk g
          = match for_enumerate (load_qobj_body chunk) 0 circuits g with
            | (Raise err', g') => (Raise err', g')
            | (Ok _, g') =>
                (qs ← subscript_qobjs ;
                 q ← lift (getitem qs chunk) ;
                 g ← get ;
                 let exec_qobj :=
                   with_experiments q
                     (take (length circuits) (experiments q)) in
                 if naughty_mode g then ret (exec_qobj, SharedWithCache)
                 else ret (exec_qobj, DeepCopied)) g'
            end) as Hcall.
  { unfold load_qobj_from_cache.
    unfold mbind at 1, M_bind at 1, bind at 1.
    rewrite (try_loading_cache_from_file_cached Hqs).
    unfold mbind at 1, M_bind at 1, bind at 1.
    rewrite (reuse_first_chunk_cached Hqs) by by eapply lookup_lt_Some.
    unfold mbind at 1, M_bind at 1, bind at 1.
    by destruct (for_enumerate (load_qobj_body chunk) 0 circuits g)
      as [[[]|] ?]. }
  exists err. split_and!; [done|done|..].
  - assert (∃ err, (patch_instructions (Ok m) (raw_gates circ) 0
                      (instructions e)).2 = Raise err) as Hraise
      by by eapply patch_instructions_mismatch.
    assert (@slot_waiting chunk j e m 0 g) as Hwait.
    { split; [lia|]. exists qs, q. split_and!; try done. by apply Hmap. }
    destruct (@load_qobj_loop_raises circuits chunk j circ e m Hcirc Hraise
                g Hwait) as (err' & g' & Hloop).
    exists err', g'. by rewrite Hcall, Hloop.
  - intros Hslots_before Hgates_before.
    destruct (patch_instructions_first_failure (gate_num := 0)
                (compiled := instructions e) (i := i) (m := m)
                (raw := raw_gates circ) (err := err) Hgates_before Hi Hsnap
                Hu Hug Hgate)
      as (patched & Hpatch & Hlenp & Hdone & Hkeep).
    assert (patched_experiment g chunk j circ e
            = (with_instructions
                 (with_header e {| header_name := circ_name circ;
                                   compiled_circuit_qasm :=
                                     compiled_circuit_qasm (header e) |})
                 patched, Raise err)) as Hpe.
    { unfold patched_experiment. rewrite (Hmap _ _ Hm), Hpatch. done. }
    assert (patching circuits chunk g q 0 g) as Hinv.
    { split_and!; [done..|]. exists qs, q. split_and!; [done..|].
      intros k c ek Hk. lia. }
    destruct (load_qobj_loop_first_failure (circuits := circuits)
                (chunk := chunk) (g := g) (q := q) (l := circuits) (k := 0)
                (j := j) (x := g) (circ := circ) (e := e) (err := err))
      as (g' & Hloop & Hend);
      [done|done| |done|done|change (0 + j) with j; by rewrite Hpe|].
    { intros k ck ek Hk Hck Hek. change (0 + k) with k in *.
      destruct (lookup_lt_is_Some_2 slots k) as [mk Hmk].
      { apply lookup_lt_Some in Hm. lia. }
      unfold patched_experiment. simpl. rewrite (Hmap _ _ Hmk).
      apply patch_instructions_returns. simpl.
      by apply (Hslots_before k ck ek mk). }
    simpl in Hend.
    destruct Hend
      as (Hm' & Hh' & qs' & q' & Hqs' & Hq' & _ & Hlen' & Hrest & Hpatched).
    exists g', qs', q'. eexists.
    split; [by rewrite Hcall, Hloop|].
    split_and!; [done..| | | | | | |].
    + intros k ck ek Hk Hck Hek.
      eexists. split; [apply (Hpatched k ck ek); [lia|done..]|].
      destruct (lookup_lt_is_Some_2 slots k) as [mk Hmk].
      { apply lookup_lt_Some in Hm. lia. }
      unfold patched_experiment. rewrite (Hmap _ _ Hmk).
      split; [done|]. simpl. intros i' ci' Hi' Hs'.
      destruct (patch_instructions (Ok mk) (raw_gates ck) 0 (instructions ek))
        as [pk rk] eqn:Hpk.
      assert (rk = Ok ()) as ->.
      { change rk with (pk, rk).2. rewrite <- Hpk.
        apply patch_instructions_returns. simpl.
        by apply (Hslots_before k ck ek mk). }
      destruct (patch_instructions_ok Hpk Hi' Hs')
        as (? & u' & ug' & ? & _ & _ & Hug' & _ & _ & Hn' & Hp').
      by exists u', ug'.
    + rewrite (Hpatched j circ e); [|lia|done..]. by rewrite Hpe.
    + done.
    + done.
    + intros i' ci' Hi' Hci'. by apply (Hdone i' ci').
    + done.
    + intros k Hk. apply Hrest. lia.
Qed.

Lemma C8_arity_mismatch_aborts_the_patch_witness :
  ∃ err g' ps,
    load_qobj_from_cache [Cached.program_arity] 0 Cached.arity = (Raise err, g')
    ∧ cached_params g' 0 0 0 = Some ps
    ∧ float_list (param (Scenario.OpA 0.5)) = Ok ps.
Proof.
  destruct (C8_arity_mismatch_aborts_the_patch
              (circuits := [Cached.program_arity]) (chunk := 0)
              (g := Cached.arity)
              (qs := default [] (qobjs Cached.arity))
              (q := default Scenario.job1
                      (default [] (qobjs Cached.arity) !! 0))
              (ms := [0]) (l := 0) (slots := [[0; 1]]) (j := 0)
              (circ := Cached.program_arity)
              (e := {| header := {| header_name := "circuit";
                                    compiled_circuit_qasm := None |};
                       instructions := [Scenario.iOpA 0; Scenario.iOpB] |})
              (m := [0; 1]) (i := 1) (ci := Scenario.iOpB) (u := 1)
              (ug := Cached.OpB1))
    as (err & _ & _ & _ & Hfirst);
    [vm_compute; reflexivity..|discriminate|reflexivity|reflexivity| |].
  - simpl. lia.
  - destruct Hfirst
      as (g' & qs' & q' & e' & Hload & _ & _ & Hqs' & Hq' & _ & _ & He' & _
          & _ & Hgates & _).
    + intros k ck ek mk Hk. lia.
    + intros [|i'] ci' Hi' Hci'; [|lia]. injection Hci' as <-.
      intros _. exists 0, (Scenario.OpA 0.5).
      split_and!; [reflexivity..|]. repeat constructor. by eexists.
    + destruct (Hgates 0 (Scenario.iOpA 0)) as (ci'' & Hci'' & Hpg);
        [lia|reflexivity|].
      destruct Hpg as (u' & ug' & ps & Hu' & Hug' & Hps & ->).
      injection Hu' as <-. injection Hug' as <-.
      exists err, g', ps. split; [done|]. split; [|done].
      unfold cached_params, cached_experiment. rewrite Hqs'. simpl.
      rewrite Hq'. simpl. rewrite He'. simpl. by rewrite Hci''.
Defined.

(** The claim as stated fails in safe mode on a cached job whose second
    gate has no parameter where the source gate has one: the call
    raises AquaError at the second gate and the cached template keeps
    the parameter written into the first gate; with a cache file
    configured, the next insert pickles that partial patch. *)
Lemma C8_counterexample :
  let run := load_qobj_from_cache [Cached.program_arity] 0 Cached.arity in
  let run_on_file :=
    load_qobj_from_cache [Cached.program_arity] 0 Cached.arity_on_file in
  let next :=
    cache_circuit Scenario.job1 [Scenario.program1] 1 run_on_file.2 in
  naughty_mode Cached.arity = false
  ∧ run.1
    = Raise (AquaError
               "Gate mismatch at gate 1 (OpB, 1 params) of circuit against gate 1 (OpB, 0 params) of cached qobj")
  ∧ cached_params Cached.arity 0 0 0 = Some [0%float]
  ∧ cached_params run.2 0 0 0 = Some [0.5%float]
  ∧ pickled_params Cached.arity_on_file "cache.pkl" 0 0 0 = Some [0%float]
  ∧ next.1 = Ok ()
  ∧ pickled_params next.2 "cache.pkl" 0 0 0 = Some [0.5%float].
Proof. split_and!; reflexivity. Qed.




(** C9 (as amended).  A load from the configured cache file that fails
    is raised to the caller by [try_loading_cache_from_file] and by the
    patch operation that called it, with the error of the line that
    failed: FileNotFoundError for a file that is not there, EOFError
    for an empty one, UnpicklingError for bytes that do not unpickle,
    TypeError for an unpickled object a string does not subscript,
    KeyError for a dict without 'qobjs' or without 'mappings'.  Nothing
    recovers: files, mappings, their list objects and the settings are
    as before, and [qobjs] stays None, except for a dict that has
    'qobjs' and no 'mappings': line 142 has assigned [qobjs] when line
    143 raises, and the cache is left with jobs and no mappings. *)
Theorem C9_failed_load_is_raised_to_the_caller
  (g : Globals) (path : string) (circuits : list QuantumCircuit)
  (chunk : nat) :
  qobjs g = None → cache_file g = Some path → 0 < String.length path →
  (∀ qs ms objects, files g !! path ≠ Some (Pickle qs ms objects)) →
  ∃ err g',
    try_loading_cache_from_file g = (Raise err, g')
    ∧ load_qobj_from_cache circuits chunk g = (Raise err, g')
    ∧ mappings g' = mappings g ∧ heap g' = heap g ∧ files g' = files g
    ∧ same_config g g'
    ∧ match files g !! path with
      | None => err = FileNotFoundError path ∧ g' = g
      | Some EmptyFile => err = EOFError ∧ g' = g
      | Some Corrupt => err = UnpicklingError ∧ g' = g
      | Some PickleOfOther => err = TypeError ∧ g' = g
      | Some PickleWithoutQobjs => err = KeyError "qobjs" ∧ g' = g
      | Some (PickleWithoutMappings qobj_dicts) =>
          err = KeyError "mappings" ∧ g' = set_qobjs (Some qobj_dicts) g
      | Some (Pickle _ _ _) => False
      end.
Proof.
  intros Hqs Hfile Hlen Hblob. apply Nat.ltb_lt in Hlen.
  assert (∀ err g',
            try_loading_cache_from_file g = (Raise err, g') →
            load_qobj_from_cache circuits chunk g = (Raise err, g'))
    as Hcaller.
  { intros err g' Hload. unfold load_qobj_from_cache.
    unfold mbind at 1, M_bind at 1, bind at 1. by rewrite Hload. }
  assert (try_loading_cache_from_file g
          = match files g !! path with
            | None => (Raise (FileNotFoundError path), g)
            | Some EmptyFile => (Raise EOFError, g)
            | Some Corrupt => (Raise UnpicklingError, g)
            | Some PickleOfOther => (Raise TypeError, g)
            | Some PickleWithoutQobjs => (Raise (KeyError "qobjs"), g)
            | Some (PickleWithoutMappings qobj_dicts) =>
                (Raise (KeyError "mappings"), set_qobjs (Some qobj_dicts) g)
            | Some (Pickle qs ms objects) =>
                (Ok (), set_heap objects
                          (set_mappings (Some ms) (set_qobjs (Some qs) g)))
            end) as Hload.
  { unfold try_loading_cache_from_file. unfold_M. rewrite Hqs, Hfile, Hlen.
    by destruct (files g !! path) as [[]|]. }
  destruct (files g !! path) as [[qs ms objects|qs| | | |]|] eqn:Hfiles;
    [by destruct (Hblob qs ms objects)|..];
    eexists _, _; (split; [exact Hload|]); (split; [by apply Hcaller|]);
    by split_and!.
Qed.

Lemma C9_failed_load_is_raised_to_the_caller_witness :
  let g := Cached.with_cache_file "cache.pkl"
             (initial {["cache.pkl" := PickleWithoutMappings [Scenario.job1]]}) in
  ∃ err g',
    load_qobj_from_cache [Scenario.program1] 0 g = (Raise err, g')
    ∧ mappings g' = None.
Proof.
  intros g.
  destruct (C9_failed_load_is_raised_to_the_caller
              (g := g) (path := "cache.pkl") [Scenario.program1] 0)
    as (err & g' & _ & H & Hms & _).
  - reflexivity.
  - reflexivity.
  - simpl. lia.
  - intros qs ms objects. vm_compute. discriminate.
  - by exists err, g'.
Defined.

(** The claim as stated fails with a cache file configured and no such
    file (or a corrupt one): the patch operation does not continue with
    an empty cache, it raises the error of the load. *)
Lemma C9_counterexample :
  (load_qobj_from_cache [Scenario.program1] 0
     (Cached.with_cache_file "cache.pkl" (initial ∅))).1
  = Raise (FileNotFoundError "cache.pkl")
  ∧ (load_qobj_from_cache [Scenario.program1] 0
       (Cached.with_cache_file "cache.pkl"
          (initial {["cache.pkl" := Corrupt]}))).1
    = Raise UnpicklingError.
Proof. split; reflexivity. Qed.

(** * Further properties of the module *)

(** ** Signatures *)

(** X1.  Two signature strings are equal exactly when the type tags are
    equal and the operand addresses are equal: concatenating the tag
    and the printed qubit list loses nothing. *)
Theorem X1_signature_is_tag_and_operands (t1 t2 : string) (q1 q2 : list nat) :
  type_and_qubits t1 q1 = type_and_qubits t2 q2 ↔ t1 = t2 ∧ q1 = q2.
Proof.
  split; [apply type_and_qubits_inj|]. by intros [-> ->].
Qed.

(** ** A cache miss *)

(** X2.  With no cached chunk ([qobjs] is None) and no cache file to
    load from, every call of the patch operation raises TypeError and
    leaves the globals as they are, whatever the batch and the chunk:
    this is how a miss reaches the caller. *)
Theorem X2_patch_without_cache_raises_TypeError
  (circuits : list QuantumCircuit) (chunk : nat) (g : Globals) :
  qobjs g = None → cache_file g = None ∨ cache_file g = Some "" →
  load_qobj_from_cache circuits chunk g = (Raise TypeError, g).
Proof.
  intros Hqs Hfile.
  assert (try_loading_cache_from_file g = (Ok (), g)) as Hload.
  { unfold try_loading_cache_from_file. unfold_M. rewrite Hqs.
    by destruct Hfile as [-> | ->]. }
  assert (reuse_first_chunk chunk g = (Ok (), g)) as Hchunk.
  { unfold reuse_first_chunk. unfold_M. by rewrite Hqs. }
  unfold load_qobj_from_cache.
  unfold mbind at 1, M_bind at 1, bind at 1. rewrite Hload.
  unfold mbind at 1, M_bind at 1, bind at 1. rewrite Hchunk.
  unfold mbind at 1, M_bind at 1, bind at 1.
  destruct circuits as [|circ circuits].
  - simpl. unfold subscript_qobjs. unfold_M. by rewrite Hqs.
  - rewrite for_enumerate_cons.
    assert (load_qobj_body chunk 0 circ g = (Raise TypeError, g)) as ->; [|done].
    unfold load_qobj_body, reuse_first_experiment, subscript_qobjs. unfold_M.
    rewrite andb_false_r. by rewrite Hqs.
Qed.

Lemma X2_patch_without_cache_raises_TypeError_witness :
  load_qobj_from_cache [Scenario.program1] 3 (clear_cache Cached.scenario1).2
  = (Raise TypeError, (clear_cache Cached.scenario1).2).
Proof.
  apply X2_patch_without_cache_raises_TypeError; [reflexivity|by left].
Defined.

(** ** What an insert writes *)

(** The file system and the configuration after a call of
    [cache_circuit]. *)
Lemma cache_circuit_files (qobj : Qobj) (circuits : list QuantumCircuit)
  (chunk : nat) (g g' : Globals) (r : result unit) :
  cache_circuit qobj circuits chunk g = (r, g') →
  cache_file g' = cache_file g
  ∧ naughty_mode g' = naughty_mode g
  ∧ try_reusing_qobjs g' = try_reusing_qobjs g
  ∧ match r, cache_file g with
    | Ok _, Some path =>
        if 0 <? String.length path then
          ∃ qs' ms', qobjs g' = Some qs' ∧ mappings g' = Some ms'
                     ∧ files g' = <[path := Pickle qs' ms' (heap g')]> (files g)
        else files g' = files g
    | _, _ => files g' = files g
    end.
Proof.
  unfold cache_circuit, alloc, subscript_qobjs, subscript_mappings.
  unfold_M.
  set (g1 := if misses _ is None then _ else _).
  assert (qobjs g1 = Some (default [] (qobjs g))
          ∧ mappings g1 = Some (default [] (mappings g))
          ∧ heap g1 = heap g ∧ files g1 = files g
          ∧ cache_file g1 = cache_file g ∧ naughty_mode g1 = naughty_mode g
          ∧ try_reusing_qobjs g1 = try_reusing_qobjs g)
    as (Hq1 & Hm1 & Hh1 & Hf1 & Hc1 & Hn1 & Ht1).
  { subst g1. destruct (qobjs g) eqn:E1, (mappings g) eqn:E2;
      destruct (misses g) eqn:E3; simpl; rewrite ?E1, ?E2, ?E3; simpl;
      rewrite ?E1, ?E2, ?E3; simpl; by rewrite ?E1, ?E2. }
  rewrite Hq1. simpl. rewrite Hm1, Hh1.
  set (slots := replicate _ _). set (g2 := set_mappings _ _).
  assert (inserting qobj chunk (default [] (qobjs g))
            (default [] (mappings g)) (heap g) g2 g2 qobj slots) as Hins.
  { unfold inserting, same_config. split_and!; try done.
    split; [done|]. apply Forall2_same_length_lookup. split; [done|].
    intros k e1 e2 ??. by simplify_eq. }
  destruct (for_enumerate _ 0 circuits g2) as [r1 g3] eqn:Hloop.
  destruct (cache_circuit_loop_spec Hins Hloop)
    as (q' & slots' & Hins' & _).
  destruct Hins' as (Hq3 & Hm3 & Hh3 & _ & Hf3 & (_ & Ht3 & _ & Hn3 & Hc3 & _)).
  assert (files g3 = files g ∧ cache_file g3 = cache_file g
          ∧ naughty_mode g3 = naughty_mode g
          ∧ try_reusing_qobjs g3 = try_reusing_qobjs g)
    as (Hf & Hc & Hn & Ht).
  { rewrite Hf3, Hc3, Hn3, Ht3. subst g2. simpl. by split_and!. }
  destruct r1 as [[]|e].
  - unfold save_cache_to_file, subscript_qobjs, subscript_mappings. unfold_M.
    rewrite Hc. destruct (cache_file g) as [path|]; [|by intros [= <- <-]].
    destruct (0 <? String.length path); [|by intros [= <- <-]].
    rewrite Hq3, Hm3. simpl. intros [= <- <-]. simpl.
    split_and!; [done..|]. eexists _, _. split_and!; [done..|]. by rewrite Hf.
  - intros [= <- <-]. by split_and!.
Qed.

(** X3.  A call of [cache_circuit] that raises never writes a file, and
    one that returns writes at most one: with a cache file configured
    it stores there the pickle of the cache as the call leaves it (all
    chunks, their mappings and list objects) and changes no other path;
    with none configured (None or the empty string) it writes
    nothing. *)
Theorem X3_insert_writes_only_the_cache_file
  (qobj : Qobj) (circuits : list QuantumCircuit) (chunk : nat)
  (g g' : Globals) (r : result unit) :
  cache_circuit qobj circuits chunk g = (r, g') →
  (r ≠ Ok () → files g' = files g)
  ∧ (cache_file g = None ∨ cache_file g = Some "" → files g' = files g)
  ∧ (∀ path, r = Ok () → cache_file g = Some path → path ≠ "" →
       ∃ qs' ms',
         qobjs g' = Some qs' ∧ mappings g' = Some ms'
         ∧ files g' !! path = Some (Pickle qs' ms' (heap g'))
         ∧ ∀ other, other ≠ path → files g' !! other = files g !! other).
Proof.
  intros Hcall. destruct (cache_circuit_files Hcall) as (_ & _ & _ & Hfiles).
  split_and!.
  - intros Hr. destruct r as [[]|e]; [done|]. by destruct (cache_file g).
  - intros [Hnone|Hempty].
    + rewrite Hnone in Hfiles. by destruct r.
    + rewrite Hempty in Hfiles. by destruct r.
  - intros path -> Hpath Hne. rewrite Hpath in Hfiles.
    destruct path as [|c path]; [done|]. simpl in Hfiles.
    destruct Hfiles as (qs' & ms' & Hqs' & Hms' & ->).
    exists qs', ms'. split_and!; [done..| |].
    + apply lookup_insert_eq.
    + intros other Hother. by apply lookup_insert_ne.
Qed.

Lemma X3_insert_writes_only_the_cache_file_witness :
  let run := cache_circuit Scenario.job2 [Scenario.program2] 0
               (Cached.with_cache_file "cache.pkl" (initial ∅)) in
  files run.2 = ∅.
Proof.
  intros run.
  refine (proj1 (X3_insert_writes_only_the_cache_file
                   (qobj := Scenario.job2) (circuits := [Scenario.program2])
                   (chunk := 0)
                   (g := Cached.with_cache_file "cache.pkl" (initial ∅))
                   (g' := run.2) (r := run.1) _) _).
  - vm_compute. reflexivity.
  - vm_compute. discriminate.
Defined.

(** X4.  Round trip through the cache file: after an insert that
    returns with a cache file configured, clearing the cache and
    loading from the file brings back the cached jobs, the mappings and
    their list objects exactly as the insert left them. *)
Theorem X4_cache_file_round_trip
  (qobj : Qobj) (circuits : list QuantumCircuit) (chunk : nat)
  (g g' : Globals) (path : string) :
  cache_circuit qobj circuits chunk g = (Ok (), g') →
  cache_file g = Some path → path ≠ "" →
  ∃ g'',
    (clear_cache ;; try_loading_cache_from_file) g' = (Ok (), g'')
    ∧ qobjs g'' = qobjs g' ∧ mappings g'' = mappings g' ∧ heap g'' = heap g'
    ∧ files g'' = files g'
    ∧ ∀ circs c, (load_qobj_from_cache circs c g'').1
                 = (load_qobj_from_cache circs c
                      (set_try_reusing_qobjs true (set_misses (Some 0) g'))).1.
Proof.
  intros Hcall Hpath Hne.
  destruct (cache_circuit_files Hcall) as (Hc & _ & _ & Hfiles).
  rewrite Hpath in Hfiles. destruct path as [|c path]; [done|].
  simpl in Hfiles. destruct Hfiles as (qs' & ms' & Hqs' & Hms' & Hf).
  unfold clear_cache, try_loading_cache_from_file. unfold_M. simpl.
  rewrite Hc, Hpath. simpl. rewrite Hf, lookup_insert_eq. simpl.
  eexists. split; [done|]. simpl. split_and!; [done..|].
  intros circs c0. f_equal. f_equal.
  destruct g'. simpl in *. by subst.
Qed.

Lemma X4_cache_file_round_trip_witness :
  let g' := Cached.arity_on_file in
  ∃ g'',
    (clear_cache ;; try_loading_cache_from_file) g' = (Ok (), g'')
    ∧ qobjs g'' = qobjs g' ∧ mappings g'' = mappings g' ∧ heap g'' = heap g'.
Proof.
  intros g'.
  destruct (X4_cache_file_round_trip
              (qobj := Scenario.job [[Scenario.iOpA 0; Scenario.iOpB]])
              (circuits := [Cached.program_arity]) (chunk := 0)
              (g := Cached.with_cache_file "cache.pkl" (initial ∅))
              (g' := g') (path := "cache.pkl"))
    as (g'' & H1 & H2 & H3 & H4 & _).
  - vm_compute. reflexivity.
  - reflexivity.
  - discriminate.
  - by exists g''.
Defined.

(** X5.  An insert, whether it returns or raises, only adds: every job
    and every mapping reference cached before the call is still in the
    cache, in the same order (those from index [chunk] on moved up by
    one), and every list object of mappings that existed before is
    unchanged. *)
Theorem X5_insert_only_adds
  (qobj : Qobj) (circuits : list QuantumCircuit) (chunk : nat)
  (g g' : Globals) (r : result unit) (qs : list Qobj) (ms : list loc) :
  cache_circuit qobj circuits chunk g = (r, g') →
  qobjs g = Some qs → mappings g = Some ms →
  ∃ qs' ms',
    qobjs g' = Some qs' ∧ mappings g' = Some ms'
    ∧ length qs' = S (length qs) ∧ length ms' = S (length ms)
    ∧ (∀ i, i < chunk → i < length qs → qs' !! i = qs !! i)
    ∧ (∀ i, chunk ≤ i → qs' !! S i = qs !! i)
    ∧ (∀ i, i < chunk → i < length ms → ms' !! i = ms !! i)
    ∧ (∀ i, chunk ≤ i → ms' !! S i = ms !! i)
    ∧ ∀ l slots, heap g !! l = Some slots → heap g' !! l = Some slots.
Proof.
  intros Hcall Hqs Hms.
  destruct (cache_circuit_spec Hcall)
    as (q' & slots' & Hq & Hm & Hh & _).
  rewrite Hqs in Hq. rewrite Hms in Hm. simpl in Hq, Hm.
  eexists _, _. split_and!; [done|done|..].
  - apply length_list_insert_at.
  - apply length_list_insert_at.
  - intros i ??. by apply list_insert_at_lookup_lt.
  - intros i ?. by apply list_insert_at_lookup_gt.
  - intros i ??. by apply list_insert_at_lookup_lt.
  - intros i ?. by apply list_insert_at_lookup_gt.
  - intros l slots Hl. rewrite Hh. by apply lookup_app_l_Some.
Qed.

Lemma X5_insert_only_adds_witness :
  let run := cache_circuit Scenario.job2 [Scenario.program2] 0 Cached.scenario1 in
  ∃ qs', qobjs run.2 = Some qs' ∧ length qs' = 2
         ∧ qs' !! 1 = default [] (qobjs Cached.scenario1) !! 0.
Proof.
  intros run.
  destruct (X5_insert_only_adds
              (qobj := Scenario.job2) (circuits := [Scenario.program2])
              (chunk := 0) (g := Cached.scenario1) (g' := run.2)
              (r := run.1) (qs := default [] (qobjs Cached.scenario1))
              (ms := [0]))
    as (qs' & ms' & H1 & _ & H2 & _ & _ & H3 & _).
  - vm_compute. reflexivity.
  - vm_compute. reflexivity.
  - vm_compute. reflexivity.
  - exists qs'. split_and!; [done|exact H2|apply (H3 0); lia].
Defined.

(** ** What a patch never writes *)

Lemma load_qobj_body_files (chunk circ_num : nat) (circ : QuantumCircuit)
  (g g' : Globals) (r : result unit) :
  load_qobj_body chunk circ_num circ g = (r, g') → files g' = files g.
Proof.
  intros H. apply load_qobj_body_cases in H
    as (r1 & g1 & Hreuse & [[-> _]|(qs & q & e & _ & _ & _ & _ & _ & ->)]);
    by apply reuse_first_experiment_spec in Hreuse as (_ & ? & _).
Qed.

(** X6.  The patch operation never writes a file and never changes the
    configuration or the miss counter, whether it returns or raises:
    after the call the file system, [cache_file], [naughty_mode],
    [try_reusing_qobjs], [use_caching], [persist_cache] and [misses] are
    what they were (the cache file is read, at most). *)
Theorem X6_patch_writes_no_file_and_no_setting
  (circuits : list QuantumCircuit) (chunk : nat) (g g' : Globals)
  (r : result (Qobj * Sharing)) :
  load_qobj_from_cache circuits chunk g = (r, g') →
  files g' = files g ∧ same_config g g'.
Proof.
  intros Hcall. split; [|by apply load_qobj_from_cache_kept in Hcall as [_ ?]].
  revert Hcall. unfold load_qobj_from_cache.
  unfold mbind at 1, M_bind at 1, bind at 1.
  destruct (try_loading_cache_from_file g) as [r1 g1] eqn:Hload.
  apply try_loading_cache_from_file_spec in Hload as (_ & Hf1 & _).
  destruct r1 as [[]|]; [|by intros [= <- <-]].
  unfold mbind at 1, M_bind at 1, bind at 1.
  destruct (reuse_first_chunk chunk g1) as [r2 g2] eqn:Hchunk.
  apply reuse_first_chunk_spec in Hchunk as (_ & Hf2 & _).
  destruct r2 as [[]|]; [|intros [= <- <-]; congruence].
  unfold mbind at 1, M_bind at 1, bind at 1.
  destruct (for_enumerate (load_qobj_body chunk) 0 circuits g2)
    as [r3 g3] eqn:Hloop.
  assert (files g3 = files g) as Hf3.
  { refine (for_enumerate_preserves (P := λ x, files x = files g) _ _ Hloop);
      [|congruence].
    intros j x ga ra gb Ha Hbody.
    apply load_qobj_body_files in Hbody. congruence. }
  destruct r3 as [[]|]; [|by intros [= <- <-]].
  unfold subscript_qobjs, getitem. unfold_M.
  destruct (qobjs g3) as [qs|]; [|by intros [= <- <-]].
  destruct (qs !! chunk) as [q|]; simpl; [|by intros [= <- <-]].
  destruct (naughty_mode g3); by intros [= <- <-].
Qed.

Lemma X6_patch_writes_no_file_and_no_setting_witness :
  let run := load_qobj_from_cache [Scenario.program1] 0 Cached.arity_on_file in
  files run.2 = files Cached.arity_on_file.
Proof.
  intros run.
  refine (proj1 (X6_patch_writes_no_file_and_no_setting
                   (circuits := [Scenario.program1]) (chunk := 0)
                   (g := Cached.arity_on_file) (g' := run.2) (r := run.1) _)).
  vm_compute. reflexivity.
Defined.

(** ** The mapping and the parameters *)

(** X7.  The mapping of a program slot depends on the type tags and
    operands only: two programs over the same registers whose unrolled
    gates agree in name and arguments, whatever their parameters, and
    two compiled jobs whose instructions agree in name and qubits,
    whatever their parameters, give the same outcome of the matcher
    (the same mapping and left-over op_graph, or the same exception). *)
Theorem X7_mapping_ignores_parameters
  (c1 c2 : QuantumCircuit) (qobj1 qobj2 : Qobj) (circ_num : nat) :
  regs c1 = regs c2 →
  Forall2 same_shape (raw_gates c1) (raw_gates c2) →
  Forall2 (λ e1 e2, Forall2 same_operation (instructions e1) (instructions e2))
    (experiments qobj1) (experiments qobj2) →
  build_mapping c1 qobj1 circ_num = build_mapping c2 qobj2 circ_num.
Proof.
  intros Hregs Hraw Hexps.
  assert (qreg_indeces c1 = qreg_indeces c2) as Hidx
    by (unfold qreg_indeces, qreg_sizes; by rewrite Hregs).
  unfold build_mapping. rewrite <- Hidx.
  set (indeces := qreg_indeces c1).
  assert (∀ i og, build_op_graph indeces i (raw_gates c1) og
                  = build_op_graph indeces i (raw_gates c2) og) as Hbuild.
  { induction Hraw as [|g1 g2 l1 l2 [Hn Ha] _ IH]; intros i og; [done|].
    simpl. rewrite Hn, Ha.
    destruct (gate_qubits indeces (arg g2)); [|done]. simpl_result. apply IH. }
  rewrite Hbuild.
  destruct (build_op_graph indeces 0 (raw_gates c2) []) as [og0|]; [|done].
  simpl_result. unfold getitem.
  destruct (experiments qobj1 !! circ_num) as [e1|] eqn:He1.
  - destruct (Forall2_lookup_l _ _ _ _ _ Hexps He1) as (e2 & -> & Hinstr).
    simpl_result. generalize (@nil nat). generalize 0.
    revert og0.
    induction Hinstr as [|i1 i2 l1 l2 [Hn Hq] _ IH]; intros og j mapping;
      [done|].
    simpl. rewrite Hn, Hq.
    destruct (dict_getitem og _) as [[|u q]|]; simpl_result; [done| |done].
    unfold getitem.
    destruct (raw_gates c1 !! u) as [g1|] eqn:Hg1.
    + destruct (Forall2_lookup_l _ _ _ _ _ Hraw Hg1) as (g2 & -> & Hn' & Ha').
      simpl_result. rewrite Hn', Ha'.
      destruct (gate_qubits indeces (arg g2)); [|done]. simpl_result. apply IH.
    + assert (raw_gates c2 !! u = None) as ->; [|done].
      apply lookup_ge_None. apply lookup_ge_None in Hg1.
      by rewrite <- (Forall2_length _ _ _ Hraw).
  - assert (experiments qobj2 !! circ_num = None) as ->; [|done].
    apply lookup_ge_None. apply lookup_ge_None in He1.
    by rewrite <- (Forall2_length _ _ _ Hexps).
Qed.

Lemma X7_mapping_ignores_parameters_witness :
  build_mapping Scenario.program1 Scenario.job1 0
  = build_mapping
      (Scenario.program "other"
         [Scenario.OpA 3.25; Scenario.OpB; Scenario.OpA 0.125])
      (Scenario.job [[Scenario.iOpA 1; Scenario.iOpB; Scenario.iOpA 2]]) 0.
Proof.
  apply X7_mapping_ignores_parameters.
  - reflexivity.
  - repeat constructor.
  - repeat constructor.
Defined.

(** ** What the matcher accepts *)

Lemma occurrences_Permutation (s : string) (l1 l2 : list string) :
  l1 ≡ₚ l2 → occurrences s l1 = occurrences s l2.
Proof. induction 1; simpl; lia. Qed.

Lemma lookup_default_seq (sigs : list string) :
  map (λ u, default "" (sigs !! u)) (seq 0 (length sigs)) = sigs.
Proof.
  apply list_eq. intros i. change (map ?f ?l) with (f <$> l).
  rewrite list_lookup_fmap.
  destruct (decide (i < length sigs)) as [Hi|Hi].
  - rewrite lookup_seq_lt by done. simpl.
    destruct (lookup_lt_is_Some_2 sigs i Hi) as [s Hs]. by rewrite Hs.
  - rewrite lookup_seq_ge by lia. simpl. symmetry. apply lookup_ge_None. lia.
Qed.

(** X8.  For a program whose gates all have a signature (their registers
    are registers of the program), the insert accepts a compiled slot,
    that is both loops complete and no source operation is left over,
    exactly when the signatures of the compiled instructions are a
    rearrangement of the signatures of the unrolled source gates. *)
Theorem X8_matcher_accepts_exactly_the_rearrangements
  (input_circuit : QuantumCircuit) (qobj : Qobj) (circ_num : nat)
  (e : Experiment) (sigs : list string) :
  signatures (qreg_indeces input_circuit) (raw_gates input_circuit) = Ok sigs →
  experiments qobj !! circ_num = Some e →
  (∃ og mapping, build_mapping input_circuit qobj circ_num = Ok (og, mapping)
                 ∧ check_leftover og = Ok ())
  ↔ map compiled_signature (instructions e) ≡ₚ sigs.
Proof.
  intros Hsigs He.
  destruct (build_op_graph_total 0 [] Hsigs) as [og0 Hbuild].
  destruct (build_op_graph_queue Hbuild) as (sigs' & Hsigs' & Hqueue).
  assert (sigs' = sigs) as -> by congruence. clear Hsigs'.
  pose proof (build_op_graph_waiting Hbuild) as Hwait. simpl in Hwait.
  pose proof (signatures_length Hsigs) as Hlen.
  assert (queues_sound sigs og0) as Hsound.
  { intros s u. rewrite Hqueue. unfold queue at 1. simpl.
    intros [_ Hu]%sig_positions_lookup. by rewrite Nat.sub_0_r in Hu. }
  unfold build_mapping. rewrite Hbuild. simpl_result.
  unfold getitem. rewrite He. simpl_result. split.
  - intros (og & mapping & Hmatch & Hleft).
    apply check_leftover_ok in Hleft.
    destruct (match_instructions_ok Hsigs Hsound eq_refl Hmatch)
      as (popped & _ & Hlenp & _ & Hperm & _ & Hpop).
    rewrite Hleft, app_nil_r, Hwait in Hperm.
    assert (map compiled_signature (instructions e)
            = map (λ u, default "" (sigs !! u)) popped) as ->.
    { apply list_eq. intros k. change (map ?f ?l) with (f <$> l).
      rewrite !list_lookup_fmap.
      destruct (instructions e !! k) as [ci|] eqn:Hci; simpl.
      - destruct (Hpop _ _ Hci) as (u & -> & Hq & _). simpl.
        assert (sigs !! u = Some (compiled_signature ci)) as ->; [|done].
        apply Hsound. by eapply list_elem_of_lookup_2.
      - assert (popped !! k = None) as ->; [|done].
        apply lookup_ge_None. apply lookup_ge_None in Hci. lia. }
    replace (length (raw_gates input_circuit)) with (length sigs) in Hperm
      by lia.
    apply (fmap_Permutation (λ u, default "" (sigs !! u))) in Hperm.
    change (fmap ?f ?l) with (map f l) in Hperm.
    by rewrite lookup_default_seq in Hperm.
  - intros Hperm.
    destruct (match_instructions_total (compiled := instructions e)
                (mapping := []) Hsigs Hsound eq_refl) as (og & mapping & Hmatch).
    { intros s. rewrite (occurrences_Permutation s Hperm), Hqueue.
      unfold queue at 1. simpl. by rewrite sig_positions_length. }
    exists og, mapping. split; [done|]. apply check_leftover_ok.
    destruct (match_instructions_ok Hsigs Hsound eq_refl Hmatch)
      as (popped & _ & Hlenp & _ & Hperm' & _).
    rewrite Hwait in Hperm'. apply Permutation_length in Hperm'.
    apply Permutation_length in Hperm.
    rewrite length_app, length_seq in Hperm'. rewrite length_map in Hperm.
    apply nil_length_inv. lia.
Qed.

Lemma X8_matcher_accepts_exactly_the_rearrangements_witness :
  ∃ og mapping,
    build_mapping Scenario.program1
      (Scenario.job [[Scenario.iOpA 0; Scenario.iOpA 0; Scenario.iOpB]]) 0
    = Ok (og, mapping)
    ∧ check_leftover og = Ok ().
Proof.
  apply (X8_matcher_accepts_exactly_the_rearrangements
           (input_circuit := Scenario.program1)
           (qobj := Scenario.job
                      [[Scenario.iOpA 0; Scenario.iOpA 0; Scenario.iOpB]])
           (circ_num := 0)
           (e := {| header := {| header_name := "circuit";
                                 compiled_circuit_qasm := Some "OPENQASM 2.0;" |};
                    instructions :=
                      [Scenario.iOpA 0; Scenario.iOpA 0; Scenario.iOpB] |})
           (sigs := ["OpA[0]"; "OpB[0, 1]"; "OpA[0]"])).
  - vm_compute. reflexivity.
  - reflexivity.
  - vm_compute. apply perm_skip, perm_swap.
Defined.

(** ** What a patch leaves alone *)

(** X9.  A patch of one chunk leaves the jobs of the other chunks alone,
    whether it returns or raises: every job cached at another index is
    afterwards the same value at the same index.  The table of mappings
    is unchanged, or has one more entry at [chunk] that refers to
    chunk 0's list; and when the chunk is not chunk 0 no stored list of
    mappings is changed at all. *)
Theorem X9_patch_leaves_the_other_chunks
  (circuits : list QuantumCircuit) (chunk : nat) (g g' : Globals)
  (r : result (Qobj * Sharing)) (qs : list Qobj) :
  load_qobj_from_cache circuits chunk g = (r, g') →
  qobjs g = Some qs →
  (∃ qs', qobjs g' = Some qs'
          ∧ ∀ i q, i ≠ chunk → qs !! i = Some q → qs' !! i = Some q)
  ∧ (mappings g' = mappings g
     ∨ ∃ ms l0, mappings g = Some ms ∧ ms !! 0 = Some l0
                ∧ mappings g' = Some (list_insert_at chunk l0 ms))
  ∧ (chunk ≠ 0 → heap g' = heap g).
Proof.
  intros Hcall Hqs. revert Hcall. unfold load_qobj_from_cache.
  unfold mbind at 1, M_bind at 1, bind at 1.
  rewrite (try_loading_cache_from_file_cached Hqs).
  unfold mbind at 1, M_bind at 1, bind at 1.
  destruct (reuse_first_chunk chunk g) as [r2 g2] eqn:Hchunk.
  pose proof (reuse_first_chunk_mappings Hchunk) as Hms2.
  apply reuse_first_chunk_spec in Hchunk as (_ & _ & Hh2 & Hqs2).
  assert (∃ qs2, qobjs g2 = Some qs2
                 ∧ ∀ i q, i ≠ chunk → qs !! i = Some q → qs2 !! i = Some q)
    as (qs2 & Hq2 & Hother2).
  { destruct Hqs2 as [Heq|(qs0 & q0 & Hqs0 & Hlen & _ & Heq)].
    - exists qs. split; [congruence|done].
    - assert (qs0 = qs) as -> by congruence.
      eexists. split; [done|]. intros i q _ Hi.
      rewrite list_insert_at_ge by done. by apply lookup_app_l_Some. }
  destruct r2 as [[]|]; [|intros [= <- <-]; split_and!; eauto].
  unfold mbind at 1, M_bind at 1, bind at 1.
  destruct (for_enumerate (load_qobj_body chunk) 0 circuits g2)
    as [r3 g3] eqn:Hloop.
  assert (mappings g3 = mappings g2 ∧ (chunk ≠ 0 → heap g3 = heap g2)
          ∧ ∃ qs3, qobjs g3 = Some qs3
                   ∧ ∀ i, i ≠ chunk → qs3 !! i = qs2 !! i)
    as (Hms3 & Hh3 & qs3 & Hq3 & Hother3).
  { refine (for_enumerate_preserves
              (P := λ x, mappings x = mappings g2
                         ∧ (chunk ≠ 0 → heap x = heap g2)
                         ∧ ∃ qs3, qobjs x = Some qs3
                                  ∧ ∀ i, i ≠ chunk → qs3 !! i = qs2 !! i)
              _ _ Hloop); [|split_and!; eauto].
    intros j x ga ra gb (Ha1 & Ha2 & qsa & Ha3 & Ha4) Hbody.
    apply load_qobj_body_frame in Hbody as (Hb1 & Hb2 & Hb3).
    destruct (Hb3 _ Ha3) as (qsb & ? & _ & Hb4).
    split_and!.
    - congruence.
    - intros Hc. rewrite Hb2, Ha2; done.
    - exists qsb. split; [done|]. intros i Hi. rewrite Hb4, Ha4; done. }
  assert ((∃ qs', qobjs g3 = Some qs'
             ∧ ∀ i q, i ≠ chunk → qs !! i = Some q → qs' !! i = Some q)
          ∧ (mappings g3 = mappings g
             ∨ ∃ ms l0, mappings g = Some ms ∧ ms !! 0 = Some l0
                        ∧ mappings g3 = Some (list_insert_at chunk l0 ms))
          ∧ (chunk ≠ 0 → heap g3 = heap g)) as Hend.
  { split_and!.
    - exists qs3. split; [done|]. intros i q Hi Hq.
      rewrite Hother3 by done. by apply Hother2.
    - rewrite Hms3. done.
    - intros Hc. rewrite Hh3 by done. done. }
  destruct r3 as [[]|]; [|by intros [= <- <-]].
  unfold subscript_qobjs, getitem. unfold_M. rewrite Hq3.
  destruct (qs3 !! chunk) as [q|]; simpl; [|by intros [= <- <-]].
  destruct (naughty_mode g3); by intros [= <- <-].
Qed.

Lemma X9_patch_leaves_the_other_chunks_witness :
  ∃ qs', qobjs (load_qobj_from_cache [Scenario.program2] 1 Cached.scenario1).2
         = Some qs'
         ∧ qs' !! 0 = Some (with_experiments Scenario.job1
                              [{| header := {| header_name := "circuit";
                                               compiled_circuit_qasm := None |};
                                  instructions :=
                                    [Scenario.iOpA 0; Scenario.iOpB;
                                     Scenario.iOpA 0] |}]).
Proof.
  destruct (X9_patch_leaves_the_other_chunks
              (circuits := [Scenario.program2]) (chunk := 1)
              (g := Cached.scenario1)
              (g' := (load_qobj_from_cache [Scenario.program2] 1
                        Cached.scenario1).2)
              (r := (load_qobj_from_cache [Scenario.program2] 1
                       Cached.scenario1).1)
              (qs := default [] (qobjs Cached.scenario1)))
    as ((qs' & Hqs' & Hother) & _).
  - vm_compute. reflexivity.
  - vm_compute. reflexivity.
  - exists qs'. split; [done|]. apply Hother; [lia|]. vm_compute. reflexivity.
Defined.

(** ** When the patch returns *)

(** X10.  On a cache that holds the chunk, with a job slot and a stored
    mapping for every circuit of the batch, the patch operation returns
    a job exactly when every compiled gate of these slots that is not a
    snapshot is mapped to a source gate of its circuit that has the
    gate's name and as many parameters, all of them real numbers; in
    every other case it raises (IndexError, AquaError or AttributeError
    at lines 174-183, TypeError at line 184 for a parameter that is not
    real).  The job it returns has one experiment per circuit. *)
Theorem X10_patch_returns_exactly_when_the_slots_match
  (circuits : list QuantumCircuit) (chunk : nat) (g : Globals)
  (qs : list Qobj) (q : Qobj) (ms : list loc) (l : loc)
  (slots : list Mapping) :
  qobjs g = Some qs → qs !! chunk = Some q →
  mappings g = Some ms → ms !! chunk = Some l → heap g !! l = Some slots →
  length circuits ≤ length (experiments q) →
  length circuits ≤ length slots →
  ((∃ job s g', load_qobj_from_cache circuits chunk g = (Ok (job, s), g'))
   ↔ ∀ k circ e m, circuits !! k = Some circ →
       experiments q !! k = Some e → slots !! k = Some m →
       slot_matches circ e m)
  ∧ ∀ job s g', load_qobj_from_cache circuits chunk g = (Ok (job, s), g') →
      qobj_id job = qobj_id q ∧ length (experiments job) = length circuits.
Proof.
  intros Hqs Hq Hms Hl Hslots Hlen Hlens.
  destruct (load_qobj_from_cache_cached (circuits := circuits) Hqs Hq Hlen)
    as [Hiff Hjob].
  assert (∀ k circ e m, slots !! k = Some m →
            ((patched_experiment g chunk k circ e).2 = Ok ()
             ↔ slot_matches circ e m)) as Hslot.
  { intros k circ e m Hm.
    unfold patched_experiment, mapping_at, getitem. simpl.
    rewrite Hms, Hl. simpl_result. rewrite Hslots. simpl_result.
    rewrite Hm. apply patch_instructions_returns. }
  split.
  - rewrite Hiff. split.
    + intros H k circ e m Hk He Hm. apply (Hslot k); [done|]. by apply H.
    + intros H k circ e Hk He.
      destruct (lookup_lt_is_Some_2 slots k) as [m Hm].
      { apply lookup_lt_Some in Hk. lia. }
      apply (Hslot k circ e m); [done|]. by eapply H.
  - intros job s g' H. apply Hjob in H. by destruct_and!.
Qed.

Lemma X10_patch_returns_exactly_when_the_slots_match_witness :
  ∃ job s, (load_qobj_from_cache [Scenario.program1] 0 Cached.scenario1).1
           = Ok (job, s)
           ∧ length (experiments job) = 1.
Proof.
  destruct (X10_patch_returns_exactly_when_the_slots_match
              (circuits := [Scenario.program1]) (chunk := 0)
              (g := Cached.scenario1)
              (qs := default [] (qobjs Cached.scenario1))
              (q := default Scenario.job1
                      (default [] (qobjs Cached.scenario1) !! 0))
              (ms := [0]) (l := 0) (slots := [[0; 1; 2]]))
    as [_ Hjob]; [vm_compute; reflexivity..|vm_compute; lia|vm_compute; lia|].
  destruct (load_qobj_from_cache [Scenario.program1] 0 Cached.scenario1)
    as [[[job s]|err] g'] eqn:Hrun.
  - exists job, s. split; [done|]. by apply (Hjob job s g').
  - vm_compute in Hrun. discriminate Hrun.
Defined.

(** ** An insert followed by a patch *)

(** X11.  A batch that was inserted can be patched with new parameters.
    After a successful insert of a non-empty batch, let the compiled
    gates that are not snapshots have as many parameters as the source
    gates of their name.  Then the patch of the inserted chunk with any
    batch of the same names and parameter counts whose parameters are
    real numbers returns a job, with one experiment per circuit, named
    after its circuit, in which every gate that is not a snapshot
    carries the parameters, converted to floats, of the gate the stored
    mapping gives for it in the new circuit. *)
Theorem X11_an_inserted_batch_can_be_patched
  (qobj : Qobj) (circuits circuits' : list QuantumCircuit) (chunk : nat)
  (g g' : Globals) :
  cache_circuit qobj circuits chunk g = (Ok (), g') →
  circuits ≠ [] →
  same_template circuits circuits' →
  real_parameters circuits' →
  (∀ k circ e i ci u ug,
     circuits !! k = Some circ → experiments qobj !! k = Some e →
     instructions e !! i = Some ci → name ci ≠ "snapshot" →
     raw_gates circ !! u = Some ug → name ci = gate_name ug →
     length (default [] (params ci)) = length (param ug)) →
  ∃ job s g'',
    load_qobj_from_cache circuits' chunk g' = (Ok (job, s), g'')
    ∧ length (experiments job) = length circuits'
    ∧ ∀ k circ', circuits' !! k = Some circ' →
        ∃ e' mapping,
          experiments job !! k = Some e'
          ∧ header_name (header e') = circ_name circ'
          ∧ lookup_mapping chunk k g' = (Ok mapping, g')
          ∧ ∀ i ci', instructions e' !! i = Some ci' →
              name ci' ≠ "snapshot" →
              ∃ u ug', mapping !! i = Some u
                       ∧ raw_gates circ' !! u = Some ug'
                       ∧ name ci' = gate_name ug'
                       ∧ ∃ ps, float_list (param ug') = Ok ps
                               ∧ params ci' = Some ps.
Proof.
  intros Hcall Hne Htemplate Hreal Harity.
  destruct (cache_circuit_spec Hcall)
    as (q' & slots' & Hq & Hm & Hh & Hlens & [Hid Hcopy] & Hok).
  specialize (Hok eq_refl).
  pose proof (Forall2_length _ _ _ Htemplate) as Hlen'.
  pose proof (Forall2_length _ _ _ Hcopy) as Hlenq.
  assert (chunk ≤ length (default [] (qobjs g))
          ∧ chunk ≤ length (default [] (mappings g))) as [Hcq Hcm].
  { destruct circuits as [|c0 rest]; [done|].
    destruct (Hok 0 c0 eq_refl) as (? & ? & _). done. }
  assert (length circuits ≤ length (experiments q')) as Hlene.
  { destruct (decide (length circuits = 0)) as [|Hpos]; [lia|].
    destruct (lookup_lt_is_Some_2 circuits (length circuits - 1))
      as [c Hc]; [lia|].
    destruct (Hok _ _ Hc) as (_ & _ & og & mapping & Hbuild & _).
    apply build_mapping_ok in Hbuild as (sigs & e & _ & He & _).
    apply lookup_lt_Some in He. lia. }
  set (qs' := list_insert_at chunk q' (default [] (qobjs g))) in *.
  assert (qs' !! chunk = Some q') as Hq'
    by by apply list_insert_at_lookup_eq.
  (* the mapping of every slot of the chunk *)
  assert (∀ k circ', circuits' !! k = Some circ' →
            ∃ circ e e' mapping,
              circuits !! k = Some circ
              ∧ Forall2 same_arity (raw_gates circ) (raw_gates circ')
              ∧ experiments qobj !! k = Some e
              ∧ experiments q' !! k = Some e'
              ∧ instructions e' = instructions e
              ∧ mapping_at g' chunk k = Ok mapping
              ∧ slot_matches circ' e' mapping) as Hslot.
  { intros k circ' Hk'.
    destruct (Forall2_lookup_r _ _ _ _ _ Htemplate Hk') as (circ & Hk & Hraw).
    destruct (Hok _ _ Hk) as (_ & _ & og & mapping & Hbuild & _ & Hslot).
    apply build_mapping_ok in Hbuild as (sigs & e & _ & He & _ & _ & Hmap).
    destruct (Forall2_lookup_l _ _ _ _ _ Hcopy He) as (e' & He' & Hi & _).
    exists circ, e, e', mapping. split_and!; [done..| |].
    - unfold mapping_at, getitem. rewrite Hm.
      rewrite list_insert_at_lookup_eq by done. simpl_result.
      rewrite Hh, lookup_app_r, Nat.sub_diag by done. simpl.
      by rewrite Hslot.
    - intros i ci Hci Hsnap. rewrite Hi in Hci.
      destruct (Hmap _ _ Hci) as (u & Hu & _ & ug & Hug & Hname & _).
      destruct (Forall2_lookup_l _ _ _ _ _ Hraw Hug)
        as (ug' & Hug' & Hn' & Hl').
      exists u, ug'. split_and!; [done|done|congruence| |].
      + rewrite Hl'. by eapply (Harity k).
      + unfold real_parameters in Hreal.
        rewrite Forall_lookup in Hreal. specialize (Hreal _ _ Hk').
        rewrite Forall_lookup in Hreal. by apply (Hreal u). }
  destruct (load_qobj_from_cache_cached (circuits := circuits') Hq Hq')
    as [Hiff Hjob]; [lia|].
  destruct (proj2 Hiff) as (job & s & g'' & Hload).
  { intros k circ' e' Hk' He'.
    destruct (Hslot _ _ Hk') as (circ & e & e2 & mapping & _ & _ & _ & He2
                                 & _ & Hmap & Hmatch).
    assert (e2 = e') as -> by congruence.
    unfold patched_experiment. simpl. rewrite Hmap.
    by apply patch_instructions_returns. }
  exists job, s, g''. split; [done|].
  destruct (Hjob _ _ _ Hload) as (_ & _ & Hlenj & _ & Hexp).
  split; [done|].
  intros k circ' Hk'.
  destruct (Hslot _ _ Hk') as (circ & e & e' & mapping & _ & _ & _ & He'
                               & _ & Hmap & Hmatch).
  eexists _, mapping. split; [by apply Hexp|].
  split; [done|]. split; [by rewrite lookup_mapping_eq, Hmap|].
  unfold patched_experiment. simpl. rewrite Hmap.
  intros i ci' Hi Hsnap.
  destruct (patch_instructions (Ok mapping) (raw_gates circ') 0
              (instructions e')) as [patched r] eqn:Hpatch.
  assert (r = Ok ()) as ->.
  { change r with (patched, r).2. rewrite <- Hpatch.
    by apply patch_instructions_returns. }
  simpl in Hi.
  destruct (patch_instructions_ok Hpatch Hi Hsnap)
    as (m & u & ug' & ci & [= <-] & Hu & Hug' & _ & _ & Hn & Hp).
  by exists u, ug'.
Qed.

Lemma X11_an_inserted_batch_can_be_patched_witness :
  ∃ job s g'',
    load_qobj_from_cache
      [Scenario.program "next"
         [Scenario.OpA 3.25; Scenario.OpB; Scenario.OpA 0.125]]
      0 Cached.scenario1
    = (Ok (job, s), g'')
    ∧ length (experiments job) = 1.
Proof.
  destruct (X11_an_inserted_batch_can_be_patched
              (qobj := Scenario.job1) (circuits := [Scenario.program1])
              (circuits' := [Scenario.program "next"
                               [Scenario.OpA 3.25; Scenario.OpB;
                                Scenario.OpA 0.125]])
              (chunk := 0) (g := initial ∅) (g' := Cached.scenario1))
    as (job & s & g'' & Hload & Hlen & _).
  - vm_compute. reflexivity.
  - discriminate.
  - repeat constructor.
  - repeat constructor; by eexists.
  - intros [|k] circ e i ci u ug Hc He Hi Hsnap Hu Hn; [|done].
    injection Hc as <-. injection He as <-.
    destruct i as [|[|[|i]]]; [| | |done];
      (destruct u as [|[|[|u]]]; [| | |done]);
      injection Hi as <-; injection Hu as <-; done.
  - by exists job, s, g''.
Defined.

(** ** A patch repeated *)

Lemma patch_instructions_idempotent (mapping : result Mapping)
  (raw : list Gate) (gate_num : nat) (compiled patched : list Instruction) :
  patch_instructions mapping raw gate_num compiled = (patched, Ok ()) →
  patch_instructions mapping raw gate_num patched = (patched, Ok ()).
Proof.
  revert gate_num patched.
  induction compiled as [|ci compiled IH]; intros gate_num patched; simpl.
  - by intros [= <-].
  - destruct (String.eqb (name ci) "snapshot") eqn:Hsnap.
    + destruct (patch_instructions mapping raw (S gate_num) compiled)
        as [rest r] eqn:Hrest.
      intros [= <- ->]. simpl. rewrite Hsnap. by rewrite (IH _ _ Hrest).
    + destruct (_ ← mapping; _) as [ci'|err] eqn:Hpatch; [|done].
      destruct (patch_instructions mapping raw (S gate_num) compiled)
        as [rest r] eqn:Hrest.
      intros [= <- ->]. simpl.
      destruct mapping as [m|]; [|done]. simpl_result.
      destruct (getitem m gate_num) as [u|]; [|done]. simpl_result.
      destruct (getitem raw u) as [ug|]; [|done]. simpl_result.
      pose proof (patch_gate_ok Hpatch) as (Hn & Hq & Hnu & _ & ps & Hps & Hp).
      rewrite Hn, Hsnap.
      assert (patch_gate u gate_num ci' ug = Ok ci') as ->.
      { unfold patch_gate. rewrite Hp. simpl.
        rewrite (float_list_length Hps), Nat.eqb_refl.
        rewrite Hn, Hnu, String.eqb_refl, Hps. simpl.
        destruct ci' as [n' q' p']. simpl in *. subst. by rewrite Hnu. }
      by rewrite (IH _ _ Hrest).
Qed.

Lemma patched_experiment_idempotent (g : Globals) (chunk circ_num : nat)
  (circ : QuantumCircuit) (e : Experiment) :
  (patched_experiment g chunk circ_num circ e).2 = Ok () →
  patched_experiment g chunk circ_num circ
    (patched_experiment g chunk circ_num circ e).1
  = ((patched_experiment g chunk circ_num circ e).1, Ok ()).
Proof.
  unfold patched_experiment. simpl.
  destruct (patch_instructions _ _ 0 (instructions e)) as [patched r] eqn:Hp.
  simpl. intros ->. by rewrite (patch_instructions_idempotent Hp).
Qed.

(** The body on a slot that holds its patch: nothing changes. *)
Lemma load_qobj_body_fixed (chunk circ_num : nat) (circ : QuantumCircuit)
  (x : Globals) (qs : list Qobj) (q : Qobj) (e : Experiment) :
  qobjs x = Some qs → qs !! chunk = Some q →
  experiments q !! circ_num = Some e →
  patched_experiment x chunk circ_num circ e = (e, Ok ()) →
  load_qobj_body chunk circ_num circ x = (Ok (), x).
Proof.
  intros Hqs Hq He Hp.
  assert (reuse_first_experiment chunk circ_num x = (Ok (), x)) as Hreuse.
  { eapply reuse_first_experiment_cached; [done..|].
    by eapply lookup_lt_Some. }
  rewrite (load_qobj_body_eq circ Hreuse Hqs Hq He), Hp. simpl.
  f_equal. unfold with_patched.
  rewrite (list_insert_id _ _ _ He).
  assert (with_experiments q (experiments q) = q) as -> by by destruct q.
  rewrite (list_insert_id _ _ _ Hq).
  destruct x. simpl in *. by subst.
Qed.

Lemma for_enumerate_fixed {A} (body : nat → A → M unit) (l : list A)
  (k : nat) (x : Globals) :
  (∀ j a, l !! j = Some a → body (k + j) a x = (Ok (), x)) →
  for_enumerate body k l x = (Ok (), x).
Proof.
  revert k. induction l as [|a l IH]; intros k H; [done|].
  rewrite for_enumerate_cons.
  pose proof (H 0 a eq_refl) as H0. rewrite Nat.add_0_r in H0. rewrite H0.
  apply IH. intros j b Hj. replace (S k + j) with (k + S j) by lia.
  by apply H.
Qed.

(** X12.  The patch is idempotent on a cached batch: when a patch of a
    chunk whose slots are cached returns a job, the same call made
    again returns the same job and leaves the cache exactly as the
    first call left it. *)
Theorem X12_patch_is_idempotent
  (circuits : list QuantumCircuit) (chunk : nat) (g g' : Globals)
  (qs : list Qobj) (q : Qobj) (job : Qobj) (s : Sharing) :
  qobjs g = Some qs → qs !! chunk = Some q →
  length circuits ≤ length (experiments q) →
  load_qobj_from_cache circuits chunk g = (Ok (job, s), g') →
  load_qobj_from_cache circuits chunk g' = (Ok (job, s), g').
Proof.
  intros Hqs Hq Hlen Hload.
  destruct (load_qobj_from_cache_cached (circuits := circuits) Hqs Hq Hlen)
    as [Hiff Hjob].
  pose proof (proj1 Hiff (ex_intro _ job (ex_intro _ s (ex_intro _ g' Hload))))
    as Hok.
  destruct (Hjob _ _ _ Hload)
    as ((Hm & Hh & qs' & q' & Hqs' & Hq' & _ & Hlen' & _ & Hdone) & _).
  destruct (load_qobj_from_cache_ok Hload)
    as (qs2 & q2 & Hqs2 & Hq2 & -> & -> & _).
  assert (qs2 = qs') as -> by congruence.
  assert (q2 = q') as -> by congruence.
  destruct (load_qobj_from_cache_kept Hload) as [_ (_ & _ & _ & Hn & _)].
  unfold load_qobj_from_cache.
  unfold mbind at 1, M_bind at 1, bind at 1.
  rewrite (try_loading_cache_from_file_cached Hqs').
  unfold mbind at 1, M_bind at 1, bind at 1.
  rewrite (reuse_first_chunk_cached Hqs') by by eapply lookup_lt_Some.
  unfold mbind at 1, M_bind at 1, bind at 1.
  rewrite for_enumerate_fixed.
  - unfold subscript_qobjs, getitem. unfold_M. rewrite Hqs', Hq'. simpl.
    rewrite Hn. by destruct (naughty_mode g).
  - intros j circ Hj. simpl.
    destruct (lookup_lt_is_Some_2 (experiments q) j) as [e He].
    { apply lookup_lt_Some in Hj. lia. }
    eapply load_qobj_body_fixed; [done..| |].
    + apply (Hdone j circ e); [by eapply lookup_lt_Some|done..].
    + rewrite (patched_experiment_ext chunk j circ _ Hm Hh).
      apply patched_experiment_idempotent. by eapply Hok.
Qed.

Lemma X12_patch_is_idempotent_witness :
  let run := load_qobj_from_cache [Scenario.program1] 0 Cached.scenario1 in
  (load_qobj_from_cache [Scenario.program1] 0 run.2).1 = run.1.
Proof.
  intros run.
  destruct run as [[[job s]|err] g'] eqn:Hrun.
  - simpl.
    rewrite (X12_patch_is_idempotent
               (circuits := [Scenario.program1]) (chunk := 0)
               (g := Cached.scenario1) (g' := g')
               (qs := default [] (qobjs Cached.scenario1))
               (q := default Scenario.job1
                       (default [] (qobjs Cached.scenario1) !! 0))
               (job := job) (s := s)); [done|vm_compute; reflexivity..| |done].
    vm_compute. lia.
  - vm_compute in Hrun. discriminate Hrun.
Defined.

(** ** An insert past the end of the cache *)

(** X13.  An insert of a non-empty batch at a chunk index past the end
    of the cache fails: [list.insert] puts the job at the end, below
    [chunk], so line 89 raises IndexError on [qobjs[chunk]]; the job and
    its empty list of mappings stay in the cache, and no file is
    written. *)
Theorem X13_insert_past_the_end_raises_IndexError
  (qobj : Qobj) (circuits : list QuantumCircuit) (chunk : nat) (g : Globals) :
  chunk_count g < chunk → circuits ≠ [] →
  ∃ g', cache_circuit qobj circuits chunk g = (Raise IndexError, g')
        ∧ qobjs g' = Some (default [] (qobjs g) ++ [qobj])
        ∧ chunk_count g' = S (chunk_count g)
        ∧ files g' = files g.
Proof.
  unfold chunk_count. intros Hchunk Hne.
  destruct circuits as [|circ circuits]; [done|].
  unfold cache_circuit, alloc, subscript_qobjs, subscript_mappings.
  unfold_M.
  set (g1 := if misses _ is None then _ else _).
  assert (qobjs g1 = Some (default [] (qobjs g))
          ∧ mappings g1 = Some (default [] (mappings g))
          ∧ files g1 = files g) as (Hq1 & Hm1 & Hf1).
  { subst g1. destruct (qobjs g) eqn:E1, (mappings g) eqn:E2;
      destruct (misses g) eqn:E3; simpl; rewrite ?E1, ?E2, ?E3; simpl;
      rewrite ?E1, ?E2, ?E3; simpl; by rewrite ?E1, ?E2. }
  rewrite Hq1. simpl. rewrite Hm1.
  unfold cache_circuit_body, del_compiled_circuit_qasm, subscript_qobjs.
  unfold_M. simpl. unfold getitem at 1.
  rewrite (list_insert_at_ge (i := chunk)) by lia.
  rewrite (lookup_ge_None_2 (_ ++ [qobj]) chunk)
    by (rewrite length_app; simpl; lia).
  simpl. eexists. split; [done|]. simpl.
  split_and!; [done| |done].
  rewrite length_app. simpl. lia.
Qed.

Lemma X13_insert_past_the_end_raises_IndexError_witness :
  (cache_circuit Scenario.job1 [Scenario.program1] 1 (initial ∅)).1
  = Raise IndexError.
Proof.
  destruct (@X13_insert_past_the_end_raises_IndexError
              Scenario.job1 [Scenario.program1] 1 (initial ∅))
    as (g' & -> & _).
  - vm_compute. lia.
  - discriminate.
  - reflexivity.
Defined.

(** ** The offsets of the registers *)

Lemma qreg_indeces_from_notin (sizes : list nat) (names : list string)
  (i : nat) (acc : gmap string nat) (n : string) :
  n ∉ names → qreg_indeces_from sizes i names acc !! n = acc !! n.
Proof.
  revert i acc. induction names as [|x names IH]; intros i acc Hn; [done|].
  simpl. apply not_elem_of_cons in Hn as [Hne Hn].
  rewrite IH by done. by rewrite lookup_insert_ne.
Qed.

Lemma qreg_indeces_from_lookup (sizes : list nat) (names : list string)
  (i : nat) (acc : gmap string nat) (j : nat) (n : string) :
  NoDup names → names !! j = Some n →
  qreg_indeces_from sizes i names acc !! n
  = Some (sum_list (take (i + j) sizes)).
Proof.
  revert i acc j. induction names as [|x names IH]; intros i acc j Hnd Hj;
    [done|].
  apply NoDup_cons in Hnd as [Hx Hnd]. destruct j as [|j]; simpl in *.
  - injection Hj as ->. rewrite qreg_indeces_from_notin by done.
    by rewrite lookup_insert_eq, Nat.add_0_r.
  - rewrite (IH (S i) _ j) by done. do 3 f_equal. lia.
Qed.

(** X14.  The offset of a register (lines 91-92): in a program whose
    register names are distinct, the name of the register at position
    [i] is given the sum of the first [i] sizes of the quantum
    registers; when every register is a quantum register, that is the
    number of qubits of the registers before it. *)
Theorem X14_register_offsets
  (c : QuantumCircuit) (i : nat) (n : string) (r : Register) :
  NoDup (map fst (regs c)) → regs c !! i = Some (n, r) →
  qreg_indeces c !! n = Some (sum_list (take i (qreg_sizes c)))
  ∧ (Forall (λ nr, is_QuantumRegister nr.2 = true) (regs c) →
     qreg_indeces c !! n
     = Some (sum_list (map (λ nr, reg_size nr.2) (take i (regs c))))).
Proof.
  intros Hnd Hi.
  assert (qreg_indeces c !! n = Some (sum_list (take i (qreg_sizes c))))
    as Hoff.
  { unfold qreg_indeces.
    rewrite (@qreg_indeces_from_lookup _ _ 0 ∅ i n); [done|done|].
    change (map fst (regs c)) with (fst <$> regs c).
    apply list_lookup_fmap_Some. by exists (n, r). }
  split; [done|]. intros Hq. rewrite Hoff. do 2 f_equal.
  unfold qreg_sizes. clear Hoff Hi Hnd. revert i.
  induction (regs c) as [|[n' r'] l IH]; intros i; [by destruct i|].
  apply Forall_cons in Hq as [Hr' Hq]. simpl in Hr'.
  cbn [map filter]. unfold filter. simpl. rewrite Hr'.
  destruct i as [|i]; [done|]. simpl. f_equal. by apply IH.
Qed.

Lemma X14_register_offsets_witness :
  let a := {| reg_name := "a"; reg_size := 2; is_QuantumRegister := true |} in
  let b := {| reg_name := "b"; reg_size := 3; is_QuantumRegister := true |} in
  let c := {| circ_name := "c"; regs := [("a", a); ("b", b)]; data := [] |} in
  qreg_indeces c !! "b" = Some 2.
Proof.
  intros a b c.
  refine (proj1 (X14_register_offsets (c := c) (i := 1) (n := "b") (r := b)
                   _ _)).
  - simpl. apply NoDup_cons. split; [|apply NoDup_singleton].
    apply not_elem_of_cons. split; [done|apply not_elem_of_nil].
  - reflexivity.
Defined.

(** ** A chunk made from chunk 0 *)

(** X15.  With reuse enabled, a patch of the first chunk index past the
    cached chunks works on a copy of chunk 0: it returns a job exactly
    when the circuits of the batch match the slots and the stored
    mappings of chunk 0 (every gate that is not a snapshot mapped to a
    source gate of its name with as many parameters, all real numbers),
    and the job then has the id of chunk 0's job and one experiment per
    circuit, each the patch of the experiment of chunk 0 at its
    index. *)
Theorem X15_next_chunk_is_patched_from_chunk_0
  (circuits : list QuantumCircuit) (chunk : nat) (g : Globals)
  (qs : list Qobj) (q0 : Qobj) (ms : list loc) (l0 : loc)
  (slots : list Mapping) :
  try_reusing_qobjs g = true →
  qobjs g = Some qs → mappings g = Some ms →
  qs !! 0 = Some q0 → ms !! 0 = Some l0 → heap g !! l0 = Some slots →
  chunk = length qs → length ms = length qs →
  length circuits ≤ length (experiments q0) →
  length circuits ≤ length slots →
  ((∃ job s g', load_qobj_from_cache circuits chunk g = (Ok (job, s), g'))
   ↔ ∀ k circ e m, circuits !! k = Some circ →
       experiments q0 !! k = Some e → slots !! k = Some m →
       slot_matches circ e m)
  ∧ ∀ job s g', load_qobj_from_cache circuits chunk g = (Ok (job, s), g') →
      qobj_id job = qobj_id q0
      ∧ length (experiments job) = length circuits
      ∧ ∀ k circ e m, circuits !! k = Some circ →
          experiments q0 !! k = Some e → slots !! k = Some m →
          ∃ e', experiments job !! k = Some e'
                ∧ header_name (header e') = circ_name circ
                ∧ instructions e'
                  = (patch_instructions (Ok m) (raw_gates circ) 0
                       (instructions e)).1.
Proof.
  intros Hreuse Hqs Hms Hq0 Hl0 Hslots Hchunk Hlenm Hlen Hlens.
  set (g1 := set_qobjs (Some (list_insert_at chunk q0 qs))
               (set_mappings (Some (list_insert_at chunk l0 ms)) g)).
  assert (reuse_first_chunk chunk g = (Ok (), g1)) as Hfirst.
  { unfold reuse_first_chunk, getitem. unfold_M.
    rewrite Hqs, Hreuse, Hms, Hl0, Hq0. simpl.
    by rewrite (proj2 (Nat.leb_le _ _)) by lia. }
  assert (qobjs g1 = Some (list_insert_at chunk q0 qs)) as Hqs1 by done.
  assert (list_insert_at chunk q0 qs !! chunk = Some q0) as Hq1
    by (apply list_insert_at_lookup_eq; lia).
  assert (load_qobj_from_cache circuits chunk g
          = load_qobj_from_cache circuits chunk g1) as ->.
  { unfold load_qobj_from_cache.
    unfold mbind at 1, M_bind at 1, bind at 1.
    rewrite (try_loading_cache_from_file_cached Hqs).
    unfold mbind at 1, M_bind at 1, bind at 1. rewrite Hfirst.
    symmetry.
    unfold mbind at 1, M_bind at 1, bind at 1.
    rewrite (try_loading_cache_from_file_cached Hqs1).
    unfold mbind at 1, M_bind at 1, bind at 1.
    rewrite (reuse_first_chunk_cached Hqs1); [done|].
    rewrite length_list_insert_at. lia. }
  destruct (load_qobj_from_cache_cached (circuits := circuits) Hqs1 Hq1 Hlen)
    as [Hiff Hjob].
  assert (∀ k m, slots !! k = Some m → mapping_at g1 chunk k = Ok m) as Hmap.
  { intros k m Hm. unfold mapping_at, getitem. simpl.
    rewrite list_insert_at_lookup_eq by lia. simpl_result.
    rewrite Hslots. simpl_result. by rewrite Hm. }
  assert (∀ k circ e m, slots !! k = Some m →
            ((patched_experiment g1 chunk k circ e).2 = Ok ()
             ↔ slot_matches circ e m)) as Hslot.
  { intros k circ e m Hm. unfold patched_experiment. simpl.
    rewrite (Hmap _ _ Hm). apply patch_instructions_returns. }
  split.
  - rewrite Hiff. split.
    + intros H k circ e m Hk He Hm. apply (Hslot k); [done|]. by apply H.
    + intros H k circ e Hk He.
      destruct (lookup_lt_is_Some_2 slots k) as [m Hm].
      { apply lookup_lt_Some in Hk. lia. }
      apply (Hslot k circ e m); [done|]. by eapply H.
  - intros job s g' H. apply Hjob in H as (_ & Hid & Hlenj & _ & Hexp).
    split_and!; [done..|].
    intros k circ e m Hk He Hm. eexists. split; [by apply Hexp|].
    unfold patched_experiment. simpl. by rewrite (Hmap _ _ Hm).
Qed.

Lemma X15_next_chunk_is_patched_from_chunk_0_witness :
  ∃ job s, (load_qobj_from_cache [Scenario.program1] 1 Cached.scenario1).1
           = Ok (job, s)
           ∧ qobj_id job = "job" ∧ length (experiments job) = 1.
Proof.
  destruct (X15_next_chunk_is_patched_from_chunk_0
              (circuits := [Scenario.program1]) (chunk := 1)
              (g := Cached.scenario1)
              (qs := default [] (qobjs Cached.scenario1))
              (q0 := default Scenario.job1
                       (default [] (qobjs Cached.scenario1) !! 0))
              (ms := [0]) (l0 := 0) (slots := [[0; 1; 2]]))
    as [_ Hjob];
    [vm_compute; reflexivity..|vm_compute; lia|vm_compute; lia|].
  destruct (load_qobj_from_cache [Scenario.program1] 1 Cached.scenario1)
    as [[[job s]|err] g'] eqn:Hrun.
  - exists job, s. split; [done|].
    destruct (Hjob job s g' eq_refl) as (Hid & Hlen & _). by split.
  - vm_compute in Hrun. discriminate Hrun.
Defined.

(** ** A chunk that is not cached *)

(** X16.  A patch of a chunk index past the cached chunks that cannot
    be made from chunk 0, because reuse is disabled or because the
    cache holds no chunk at all, raises IndexError and leaves the
    globals as they are, whatever the batch. *)
Theorem X16_uncached_chunk_raises_IndexError
  (circuits : list QuantumCircuit) (chunk : nat) (g : Globals)
  (qs : list Qobj) :
  qobjs g = Some qs → length qs ≤ chunk →
  try_reusing_qobjs g = false ∨ (qs = [] ∧ mappings g = Some []) →
  load_qobj_from_cache circuits chunk g = (Raise IndexError, g).
Proof.
  intros Hqs Hlen Hcase.
  pose proof (lookup_ge_None_2 qs chunk Hlen) as Hnone.
  unfold load_qobj_from_cache.
  unfold mbind at 1, M_bind at 1, bind at 1.
  rewrite (try_loading_cache_from_file_cached Hqs).
  unfold mbind at 1, M_bind at 1, bind at 1.
  destruct (try_reusing_qobjs g) eqn:Hoff.
  - destruct Hcase as [?|[-> Hms]]; [done|].
    assert (reuse_first_chunk chunk g = (Raise IndexError, g)) as ->; [|done].
    unfold reuse_first_chunk, getitem. unfold_M.
    by rewrite Hqs, Hoff, Hms.
  - assert (reuse_first_chunk chunk g = (Ok (), g)) as ->.
    { unfold reuse_first_chunk. unfold_M. by rewrite Hqs, Hoff. }
    unfold mbind at 1, M_bind at 1, bind at 1.
    destruct circuits as [|circ circuits].
    + simpl. unfold subscript_qobjs, getitem. unfold_M.
      by rewrite Hqs, Hnone.
    + rewrite for_enumerate_cons.
      unfold load_qobj_body, reuse_first_experiment, subscript_qobjs, getitem.
      unfold_M. rewrite Hoff. simpl. by rewrite Hqs, Hnone.
Qed.

Lemma X16_uncached_chunk_raises_IndexError_witness :
  load_qobj_from_cache [Scenario.program1] 0
    (set_mappings (Some []) (set_qobjs (Some []) (initial ∅)))
  = (Raise IndexError,
     set_mappings (Some []) (set_qobjs (Some []) (initial ∅))).
Proof.
  apply (@X16_uncached_chunk_raises_IndexError [Scenario.program1] 0
           (set_mappings (Some []) (set_qobjs (Some []) (initial ∅))) []).
  - reflexivity.
  - simpl. lia.
  - right. split; reflexivity.
Defined.

(** ** A batch longer than chunk 0 *)

(** X17.  A patch of chunk 0 with reuse enabled and a batch of any
    length: the slots that are cached are patched in place, and every
    slot past them is made from slot 0 as the first iteration left it,
    that is with the parameters of the first circuit, and slot 0's
    mapping.  The call returns a job exactly when every circuit matches
    the slot it is patched into (every gate that is not a snapshot
    mapped to a source gate of its name with as many parameters, all
    real numbers), and the job then holds one experiment per circuit,
    the patch of that slot. *)
Theorem X17_chunk_0_grows_from_slot_0
  (circuits : list QuantumCircuit) (g : Globals) (qs : list Qobj) (q0 : Qobj)
  (ms : list loc) (l0 : loc) (slots : list Mapping)
  (e0 : Experiment) (m0 : Mapping) (c0 : QuantumCircuit) :
  try_reusing_qobjs g = true →
  qobjs g = Some qs → qs !! 0 = Some q0 →
  mappings g = Some ms → ms !! 0 = Some l0 → heap g !! l0 = Some slots →
  length slots = length (experiments q0) →
  experiments q0 !! 0 = Some e0 → slots !! 0 = Some m0 →
  circuits !! 0 = Some c0 →
  ((∃ job s g', load_qobj_from_cache circuits 0 g = (Ok (job, s), g'))
   ↔ ∀ k circ e m, circuits !! k = Some circ →
       slot_template q0 (patch_with m0 c0 e0).1 k = Some e →
       slot_mapping slots m0 k = Some m →
       slot_matches circ e m)
  ∧ ∀ job s g', load_qobj_from_cache circuits 0 g = (Ok (job, s), g') →
      qobj_id job = qobj_id q0
      ∧ length (experiments job) = length circuits
      ∧ ∀ k circ e m, circuits !! k = Some circ →
          slot_template q0 (patch_with m0 c0 e0).1 k = Some e →
          slot_mapping slots m0 k = Some m →
          experiments job !! k = Some (patch_with m circ e).1.
Proof.
  intros Hre Hqs Hq0 Hms Hl0 Hslots Hlens He0 Hm0 Hc0.
  assert (extending circuits g ms l0 slots q0 m0 (patch_with m0 c0 e0).1 0 g)
    as Hinv.
  { split_and!; [done|done|..].
    - simpl. rewrite app_nil_r. symmetry. by apply list_insert_id.
    - exists qs, q0. split_and!; [done|done|done|lia|done|].
      intros i c e m Hi. lia. }
  destruct (load_qobj_loop_extending Hl0 Hslots Hlens He0 Hm0 Hc0
              (l := circuits) (k := 0) (x := g))
    as (r & x' & Hloop & Hok & Hiff); [done|done|].
  simpl in Hok, Hiff.
  assert (load_qobj_from_cache circuits 0 g
          = match r with
            | Ok _ =>
                match qobjs x' with
                | Some qs' =>
                    match qs' !! 0 with
                    | Some q' =>
                        (Ok (with_experiments q'
                               (take (length circuits) (experiments q')),
                             if naughty_mode x' then SharedWithCache
                             else DeepCopied), x')
                    | None => (Raise IndexError, x')
                    end
                | None => (Raise TypeError, x')
                end
            | Raise err => (Raise err, x')
            end) as Hcall.
  { unfold load_qobj_from_cache.
    unfold mbind at 1, M_bind at 1, bind at 1.
    rewrite (try_loading_cache_from_file_cached Hqs).
    unfold mbind at 1, M_bind at 1, bind at 1.
    rewrite (reuse_first_chunk_cached Hqs) by by eapply lookup_lt_Some.
    unfold mbind at 1, M_bind at 1, bind at 1. rewrite Hloop.
    destruct r as [[]|]; [|done].
    unfold subscript_qobjs, getitem. unfold_M.
    destruct (qobjs x') as [qs'|]; [|done].
    destruct (qs' !! 0); simpl; [|done].
    by destruct (naughty_mode x'). }
  assert (∀ m circ e, (patch_with m circ e).2 = Ok () ↔ slot_matches circ e m)
    as Hslot.
  { intros m circ e. unfold patch_with. simpl.
    apply patch_instructions_returns. }
  rewrite Hcall. split.
  - split.
    + intros (job & s & g' & H). destruct r as [[]|]; [|done].
      intros k circ e m Hk He Hm. apply Hslot.
      by apply (proj1 Hiff eq_refl k).
    + intros H.
      assert (r = Ok ()) as ->.
      { apply Hiff. intros k circ e m Hk He Hm. apply Hslot. by eapply H. }
      destruct (Hok eq_refl) as (_ & _ & _ & qs' & q' & -> & -> & _).
      by eexists _, _, _.
  - intros job s g' H. destruct r as [[]|]; [|done].
    destruct (Hok eq_refl)
      as (_ & _ & _ & qs' & q' & Hqs' & Hq' & Hid & Hlen' & _ & Hdone).
    rewrite Hqs', Hq' in H. injection H as <- <- <-. simpl.
    split_and!.
    + done.
    + rewrite length_take. lia.
    + intros k circ e m Hk He Hm. pose proof (lookup_lt_Some _ _ _ Hk).
      rewrite lookup_take_lt by done. by apply (Hdone k circ e m).
Qed.

Lemma X17_chunk_0_grows_from_slot_0_witness :
  ∃ job s,
    (load_qobj_from_cache
       [Scenario.program1;
        Scenario.program "second"
          [Scenario.OpA 3.25; Scenario.OpB; Scenario.OpA 0.125]]
       0 Cached.scenario1).1
    = Ok (job, s)
    ∧ length (experiments job) = 2.
Proof.
  destruct (X17_chunk_0_grows_from_slot_0
              (circuits := [Scenario.program1;
                            Scenario.program "second"
                              [Scenario.OpA 3.25; Scenario.OpB;
                               Scenario.OpA 0.125]])
              (g := Cached.scenario1)
              (qs := default [] (qobjs Cached.scenario1))
              (q0 := default Scenario.job1
                       (default [] (qobjs Cached.scenario1) !! 0))
              (ms := [0]) (l0 := 0) (slots := [[0; 1; 2]])
              (e0 := {| header := {| header_name := "circuit";
                                     compiled_circuit_qasm := None |};
                        instructions := [Scenario.iOpA 0; Scenario.iOpB;
                                         Scenario.iOpA 0] |})
              (m0 := [0; 1; 2]) (c0 := Scenario.program1))
    as [_ Hjob]; [vm_compute; reflexivity..|].
  destruct (load_qobj_from_cache _ 0 Cached.scenario1)
    as [[[job s]|err] g'] eqn:Hrun.
  - exists job, s. split; [done|].
    destruct (Hjob job s g' eq_refl) as (_ & Hlen & _). done.
  - vm_compute in Hrun. discriminate Hrun.
Defined.

(** ** The two modes *)

Lemma bind_with_naughty_mode {A B} (m : M A) (k : A → M B) (b : bool)
  (g : Globals) :
  m (with_naughty_mode b g) = in_mode b (m g) →
  (m ≫= k) (with_naughty_mode b g)
  = match (m g).1 with
    | Ok a => k a (with_naughty_mode b (m g).2)
    | Raise err => (Raise err, with_naughty_mode b (m g).2)
    end.
Proof.
  intros Hm. unfold mbind, M_bind, bind. rewrite Hm.
  by destruct (m g) as [[a|err] g1].
Qed.

Lemma bind_in_mode {A B} (m : M A) (k : A → M B) (b : bool) (g : Globals) :
  m (with_naughty_mode b g) = in_mode b (m g) →
  (∀ a x, k a (with_naughty_mode b x) = in_mode b (k a x)) →
  (m ≫= k) (with_naughty_mode b g) = in_mode b ((m ≫= k) g).
Proof.
  intros Hm Hk. rewrite (bind_with_naughty_mode k Hm).
  unfold mbind, M_bind, bind.
  destruct (m g) as [[a|err] g1]; simpl; [apply Hk|done].
Qed.

Lemma for_enumerate_in_mode {A} (body : nat → A → M unit) (b : bool)
  (l : list A) (i : nat) (g : Globals) :
  (∀ j a x, body j a (with_naughty_mode b x) = in_mode b (body j a x)) →
  for_enumerate body i l (with_naughty_mode b g)
  = in_mode b (for_enumerate body i l g).
Proof.
  intros Hbody. revert i g. induction l as [|a l IH]; intros i g; [done|].
  rewrite !for_enumerate_cons, Hbody.
  destruct (body i a g) as [[[]|err] g1]; simpl; [apply IH|done].
Qed.

Lemma subscript_qobjs_in_mode (b : bool) (g : Globals) :
  subscript_qobjs (with_naughty_mode b g) = in_mode b (subscript_qobjs g).
Proof.
  unfold subscript_qobjs, in_mode. unfold_M. simpl. by destruct (qobjs g).
Qed.

Lemma subscript_mappings_in_mode (b : bool) (g : Globals) :
  subscript_mappings (with_naughty_mode b g)
  = in_mode b (subscript_mappings g).
Proof.
  unfold subscript_mappings, in_mode. unfold_M. simpl.
  by destruct (mappings g).
Qed.

Lemma deref_in_mode (l : loc) (b : bool) (g : Globals) :
  deref l (with_naughty_mode b g) = in_mode b (deref l g).
Proof. done. Qed.

Lemma store_experiment_in_mode (chunk circ_num : nat) (e : Experiment)
  (b : bool) (g : Globals) :
  store_experiment chunk circ_num e (with_naughty_mode b g)
  = in_mode b (store_experiment chunk circ_num e g).
Proof.
  unfold store_experiment.
  apply bind_in_mode; [apply subscript_qobjs_in_mode|]. intros qs x.
  apply bind_in_mode; [done|]. by intros q y.
Qed.

Lemma lookup_mapping_in_mode (chunk circ_num : nat) (b : bool) (g : Globals) :
  lookup_mapping chunk circ_num (with_naughty_mode b g)
  = in_mode b (lookup_mapping chunk circ_num g).
Proof.
  unfold lookup_mapping.
  apply bind_in_mode; [apply subscript_mappings_in_mode|]. intros ms x.
  apply bind_in_mode; [done|]. intros l y.
  apply bind_in_mode; [apply deref_in_mode|]. by intros slots z.
Qed.

Lemma try_loading_cache_from_file_in_mode (b : bool) (g : Globals) :
  try_loading_cache_from_file (with_naughty_mode b g)
  = in_mode b (try_loading_cache_from_file g).
Proof.
  unfold try_loading_cache_from_file, in_mode. unfold_M. simpl.
  destruct (qobjs g); [done|].
  destruct (cache_file g) as [path|]; [|done].
  destruct (0 <? String.length path); [|done].
  by destruct (files g !! path) as [[]|].
Qed.

Lemma reuse_first_chunk_in_mode (chunk : nat) (b : bool) (g : Globals) :
  reuse_first_chunk chunk (with_naughty_mode b g)
  = in_mode b (reuse_first_chunk chunk g).
Proof.
  unfold reuse_first_chunk, in_mode, getitem. unfold_M. simpl.
  destruct (qobjs g) as [qs|]; [|done].
  destruct (try_reusing_qobjs g && (length qs <=? chunk)); [|done].
  destruct (mappings g) as [ms|]; simpl; [|done].
  destruct (ms !! 0); simpl; [|done].
  by destruct (qs !! 0).
Qed.

Lemma reuse_first_experiment_in_mode (chunk circ_num : nat) (b : bool)
  (g : Globals) :
  reuse_first_experiment chunk circ_num (with_naughty_mode b g)
  = in_mode b (reuse_first_experiment chunk circ_num g).
Proof.
  unfold reuse_first_experiment, in_mode, subscript_qobjs,
    subscript_mappings, deref, store, getitem. unfold_M. simpl.
  destruct (try_reusing_qobjs g && (chunk =? 0) && (0 <? circ_num));
    simpl; [|done].
  destruct (qobjs g) as [qs|]; simpl; [|done].
  destruct (qs !! chunk) as [q|]; simpl; [|done].
  destruct (length (experiments q) <=? circ_num); simpl; [|done].
  destruct (qs !! 0) as [q0|]; simpl; [|done].
  destruct (experiments q0 !! 0) as [e0|]; simpl; [|done].
  destruct (mappings g) as [ms|]; simpl; [|done].
  destruct (ms !! 0) as [l0|]; simpl; [|done].
  destruct (heap g !! l0) as [slots|]; simpl; [|done].
  by destruct (slots !! 0).
Qed.

Lemma load_qobj_body_in_mode (chunk circ_num : nat) (circ : QuantumCircuit)
  (b : bool) (g : Globals) :
  load_qobj_body chunk circ_num circ (with_naughty_mode b g)
  = in_mode b (load_qobj_body chunk circ_num circ g).
Proof.
  unfold load_qobj_body.
  apply bind_in_mode; [apply reuse_first_experiment_in_mode|]. intros _ x0.
  apply bind_in_mode; [apply subscript_qobjs_in_mode|]. intros qs x1.
  apply bind_in_mode; [done|]. intros q x2.
  apply bind_in_mode; [done|]. intros e x3.
  apply bind_in_mode; [apply store_experiment_in_mode|]. intros _ x4.
  apply bind_in_mode.
  { unfold attempt. rewrite lookup_mapping_in_mode.
    by destruct (lookup_mapping chunk circ_num x4). }
  intros mapping x5.
  destruct (patch_instructions mapping (raw_gates circ) 0 _) as [patched r].
  apply bind_in_mode; [apply store_experiment_in_mode|]. by intros _ x6.
Qed.

Lemma bind_shared_in_mode {A} (m : M A) (k : A → M (Qobj * Sharing))
  (b : bool) (g : Globals) :
  m (with_naughty_mode b g) = in_mode b (m g) →
  (∀ a x, k a (with_naughty_mode b x) = shared_in_mode b (k a x)) →
  (m ≫= k) (with_naughty_mode b g) = shared_in_mode b ((m ≫= k) g).
Proof.
  intros Hm Hk. rewrite (bind_with_naughty_mode k Hm).
  unfold mbind, M_bind, bind.
  destruct (m g) as [[a|err] g1]; simpl; [apply Hk|done].
Qed.

(** X18.  The mode changes how the returned job is shared with the
    cache and nothing else: run in either mode from otherwise equal
    globals, the patch operation raises the same exception or returns
    the same job, and leaves the same cache, mappings and files. *)
Theorem X18_the_mode_changes_only_the_sharing
  (circuits : list QuantumCircuit) (chunk : nat) (b : bool) (g : Globals) :
  load_qobj_from_cache circuits chunk (with_naughty_mode b g)
  = shared_in_mode b (load_qobj_from_cache circuits chunk g).
Proof.
  unfold load_qobj_from_cache.
  apply bind_shared_in_mode; [apply try_loading_cache_from_file_in_mode|].
  intros _ g1.
  apply bind_shared_in_mode; [apply reuse_first_chunk_in_mode|].
  intros _ g2.
  apply bind_shared_in_mode.
  { apply for_enumerate_in_mode. intros. apply load_qobj_body_in_mode. }
  intros _ g3.
  unfold shared_in_mode, subscript_qobjs, getitem. unfold_M. simpl.
  destruct (qobjs g3) as [qs|]; [|done].
  destruct (qs !! chunk) as [q|]; [|done]. simpl.
  by destruct b, (naughty_mode g3).
Qed.

(** ** The job an insert stores *)

Section Stored.

Variables (qobj : Qobj) (chunk : nat) (qs0 : list Qobj).

Lemma cache_circuit_body_qobjs (j : nat) (circ : QuantumCircuit)
  (g g' : Globals) (q : Qobj) :
  qobjs g = Some (list_insert_at chunk q qs0) →
  cache_circuit_body qobj chunk j circ g = (Ok (), g') →
  ∃ e qasm,
    experiments q !! j = Some e
    ∧ compiled_circuit_qasm (header e) = Some qasm
    ∧ qobjs g'
      = Some (list_insert_at chunk
                (with_experiments q (<[j := without_qasm e]> (experiments q)))
                qs0).
Proof.
  intros Hq.
  unfold cache_circuit_body, del_compiled_circuit_qasm, store_experiment,
    store_mapping, deref, store, subscript_qobjs, subscript_mappings.
  unfold_M. rewrite Hq. unfold getitem at 1.
  destruct (list_insert_at chunk q qs0 !! chunk) as [q1|] eqn:Hq1; simpl;
    [|done].
  apply list_insert_at_lookup_inv in Hq1 as [-> Hchunk].
  unfold getitem at 1.
  destruct (experiments q !! j) as [e|] eqn:He; simpl; [|done].
  destruct (compiled_circuit_qasm (header e)) as [qasm|] eqn:Hqasm; simpl;
    [|done].
  rewrite Hq. unfold getitem at 1.
  rewrite list_insert_at_lookup_eq by done. simpl.
  rewrite insert_list_insert_at, decide_True by done.
  destruct (build_mapping circ qobj j) as [[og mapping]|err]; simpl; [|done].
  destruct (mappings g) as [ms|]; simpl; [|done].
  unfold getitem at 1. destruct (ms !! chunk) as [l|]; simpl; [|done].
  unfold getitem at 1. destruct (heap g !! l) as [slots|]; simpl; [|done].
  destruct (setitem slots j mapping) as [slots'|]; simpl; [|done].
  destruct (check_leftover og) as [[]|]; [|done].
  intros [= <-]. by exists e, qasm.
Qed.

Lemma cache_circuit_loop_qobjs (circuits : list QuantumCircuit) (i : nat)
  (g g' : Globals) (q : Qobj) :
  qobjs g = Some (list_insert_at chunk q qs0) → stored_upto qobj i q →
  for_enumerate (cache_circuit_body qobj chunk) i circuits g = (Ok (), g') →
  ∃ q', qobjs g' = Some (list_insert_at chunk q' qs0)
        ∧ stored_upto qobj (i + length circuits) q'.
Proof.
  revert i g q. induction circuits as [|circ circuits IH]; intros i g q Hq Hst.
  - intros [= <-]. exists q. by rewrite Nat.add_0_r.
  - rewrite for_enumerate_cons.
    destruct (cache_circuit_body qobj chunk i circ g) as [[[]|err] g1] eqn:Hb;
      [|done].
    destruct (cache_circuit_body_qobjs Hq Hb) as (e & qasm & He & Hqasm & Hq1).
    intros Hloop.
    replace (i + length (circ :: circuits)) with (S i + length circuits)
      by (simpl; lia).
    apply (IH _ _ _ Hq1); [|done].
    destruct Hst as (Hid & Hlen & Hexp).
    split_and!; [done|by simpl; rewrite length_insert|].
    intros k ek Hk. destruct (Hexp _ _ Hk) as [Hqk Hdone]. simpl.
    destruct (decide (k = i)) as [->|Hne].
    + rewrite Nat.ltb_irrefl in Hqk.
      assert (ek = e) as -> by congruence.
      rewrite list_lookup_insert_eq by by eapply lookup_lt_Some.
      rewrite (proj2 (Nat.ltb_lt i (S i))) by lia.
      split; [done|]. intros _. by rewrite Hqasm.
    + rewrite list_lookup_insert_ne by done. rewrite Hqk.
      split.
      * destruct (Nat.ltb_spec k i), (Nat.ltb_spec k (S i)); (done || lia).
      * intros Hlt. apply Hdone. lia.
Qed.

End Stored.

(** X19.  What an insert stores: after [cache_circuit] returns, the
    cached job is the compiled job with the qasm text deleted from the
    headers of the first [len(circuits)] experiments and nothing else
    changed; each of these headers had a qasm text to delete. *)
Theorem X19_insert_stores_the_job_without_qasm
  (qobj : Qobj) (circuits : list QuantumCircuit) (chunk : nat)
  (g g' : Globals) :
  cache_circuit qobj circuits chunk g = (Ok (), g') →
  ∃ q',
    qobjs g' = Some (list_insert_at chunk q' (default [] (qobjs g)))
    ∧ qobj_id q' = qobj_id qobj
    ∧ length (experiments q') = length (experiments qobj)
    ∧ ∀ k e, experiments qobj !! k = Some e →
        experiments q' !! k
        = Some (if k <? length circuits then without_qasm e else e)
        ∧ (k < length circuits → compiled_circuit_qasm (header e) ≠ None).
Proof.
  unfold cache_circuit, alloc, subscript_qobjs, subscript_mappings.
  unfold_M.
  set (g1 := if misses _ is None then _ else _).
  assert (qobjs g1 = Some (default [] (qobjs g))
          ∧ mappings g1 = Some (default [] (mappings g))) as (Hq1 & Hm1).
  { subst g1. destruct (qobjs g) eqn:E1, (mappings g) eqn:E2;
      destruct (misses g) eqn:E3; simpl; rewrite ?E1, ?E2, ?E3; simpl;
      rewrite ?E1, ?E2, ?E3; simpl; by rewrite ?E1, ?E2. }
  rewrite Hq1. simpl. rewrite Hm1.
  set (g2 := set_mappings _ _).
  assert (qobjs g2 = Some (list_insert_at chunk qobj (default [] (qobjs g))))
    as Hq2 by done.
  assert (stored_upto qobj 0 qobj) as Hst.
  { split_and!; [done..|]. intros k e Hk. split; [done|lia]. }
  destruct (for_enumerate _ 0 circuits g2) as [[[]|err] g3] eqn:Hloop; [|done].
  destruct (cache_circuit_loop_qobjs Hq2 Hst Hloop) as (q' & Hq3 & Hst').
  destruct (save_cache_to_file g3) as [r4 g4] eqn:Hsave.
  destruct (save_cache_to_file_spec Hsave) as (Hq4 & _).
  intros [= -> <-]. exists q'. rewrite Hq4.
  destruct Hst' as (Hid & Hlen & Hexp). by split_and!.
Qed.

Lemma X19_insert_stores_the_job_without_qasm_witness :
  ∃ q', qobjs Cached.scenario1 = Some [q']
        ∧ length (experiments q') = 1.
Proof.
  destruct (X19_insert_stores_the_job_without_qasm
              (qobj := Scenario.job1) (circuits := [Scenario.program1])
              (chunk := 0) (g := initial ∅) (g' := Cached.scenario1))
    as (q' & Hq & _ & Hlen & _).
  - vm_compute. reflexivity.
  - by exists q'.
Defined.
